(** * Page_Scanner: the document rectification pipeline of
    [src/lib/imageProcessing.ts], embedded function by function.

    Number model.  A JavaScript [number] is modelled by an exact rational
    ([Q]): sums, products and guarded quotients are computed without
    rounding, and the decimal literals of the source (0.15, 0.299, ...)
    stand for the decimal fractions they spell.  Where the rounding of the
    runtime decides what a function returns, the function is embedded a
    second time: the homography solver and the resampler over binary64
    numbers (module [Binary64], on the primitive floats), the corner orderer
    over rounded sums (module [Rounded]).  The two quotients the
    source leaves unguarded (the area ratio and the projective division)
    go through [xnum], which adds the non-finite results of a division by
    zero.  [Math.sqrt], [Math.atan2] and [Math.hypot] belong to the
    JavaScript runtime, not to the repository: they are the fields of a
    [MathLib] record and every theorem holds for any choice of them.

    Buffers.  A [Uint8ClampedArray] is a [list Z] whose stores go through
    [toUint8Clamp]; a [Float32Array] is a [list Q] whose computed stores go
    through [Math_fround], the rounding to single precision.  As for typed arrays, a store outside the
    buffer does nothing, which is what stdpp's list insert does. *)

From Stdlib Require Import ZArith QArith Qround Qabs Qpower Lia Lqa List Bool QNsatz NsatzTactic Floats.
From stdpp Require Import base list sorting strings.

Open Scope Q_scope.

(** ** Numbers *)

Definition Qltb (a b : Q) : bool := negb (Qle_bool b a).
Definition Qleb (a b : Q) : bool := Qle_bool a b.
Definition Qeqb (a b : Q) : bool := Qeq_bool a b.

(** [Math.min], [Math.max], [Math.abs], [Math.floor], [Math.round]. *)
Definition Math_min (a b : Q) : Q := if Qltb b a then b else a.
Definition Math_max (a b : Q) : Q := if Qltb a b then b else a.
Definition Math_abs (a : Q) : Q := Qabs a.
Definition Math_floor (a : Q) : Z := Qfloor a.
Definition Math_round (a : Q) : Z := Qfloor (a + (1 # 2)).

(** The conversion applied by a store into a [Uint8ClampedArray]: clamp to
    [0, 255] and round to the nearest integer, a tie going to the even one. *)
Definition roundHalfEven (q : Q) : Z :=
  let f := Qfloor q in
  let r := q - inject_Z f in
  if Qltb r (1 # 2) then f
  else if Qltb (1 # 2) r then (f + 1)%Z
  else if Z.even f then f else (f + 1)%Z.

Definition toUint8Clamp (q : Q) : Z :=
  if Qleb q 0 then 0%Z else if Qleb 255 q then 255%Z else roundHalfEven q.

(** Rounding to the nearest number with [prec] significant bits, ties to
    even; [binary64] and [binary32] are the roundings of results that
    neither overflow nor fall below the normal range. *)
Definition roundTo (prec : Z) (q : Q) : Q :=
  if Qeqb q 0 then 0
  else
    let a := Qabs q in
    let e := (Z.log2 (Qnum a) - Z.log2 (Z.pos (Qden a)))%Z in
    let e := if Qltb a (2 ^ e) then (e - 1)%Z else e in
    let ulp := 2 ^ (e - (prec - 1)) in
    let m := roundHalfEven (a / ulp) in
    Qred ((if Qltb q 0 then -1 else 1) * inject_Z m * ulp).

Definition binary64 : Q -> Q := roundTo 53.
Definition binary32 : Q -> Q := roundTo 24.

(** ** Loops and buffers *)

(** [for (let i = lo; i < hi; i++) body]: the state is threaded through. *)
Definition for_range {St : Type} (lo hi : nat) (body : nat -> St -> St) (s : St) : St :=
  foldl (fun st i => body i st) s (seq lo (hi - lo)).

(** The loop nest shared by the per-pixel stages,
    [for (let y = 1; y < height - 1; y++) for (let x = 1; x < width - 1; x++)],
    visiting the interior pixels in row-major order. *)
Definition rasterScan {St : Type} (w h : nat) (body : nat -> nat -> St -> St) (s : St) : St :=
  for_range 1 (h - 1) (fun y st => for_range 1 (w - 1) (fun x st => body x y st) st) s.

(** The pixels [rasterScan] visits, in the order it visits them, and the
    buffer index [y * width + x] of a pixel. *)
Definition interiorPositions (w h : nat) : list (nat * nat) :=
  y ← seq 1 (h - 1 - 1); x ← seq 1 (w - 1 - 1); [(x, y)].

Definition pixelIndex (w : nat) (p : nat * nat) : nat := (p.2 * w + p.1)%nat.

Definition interior (w h x y : nat) : Prop :=
  (1 <= x < w - 1)%nat /\ (1 <= y < h - 1)%nat.

Definition interiorb (w h x y : nat) : bool :=
  ((1 <=? x) && (x <? w - 1) && (1 <=? y) && (y <? h - 1))%nat.

(** A read [a[i]] of a buffer that holds [i]. *)
Definition getZ (a : list Z) (i : nat) : Z := default 0%Z (a !! i).
Definition getQ (a : list Q) (i : nat) : Q := default 0 (a !! i).

(** [k[r][c]] for the constant 3x3 kernels. *)
Definition kernelAt (k : list (list Q)) (r c : nat) : Q :=
  default 0 (default [] (k !! r) !! c).

Record ImageData := mkImageData {
  width : nat;
  height : nat;
  data : list Z
}.

(** ** Stage 1: toGrayscale *)

(** One pixel: [Math.round(0.299 * r + 0.587 * g + 0.114 * b)]; a channel
    read past the end of the buffer is [undefined], the sum is then NaN and
    the store writes 0. *)
Definition luminance (r g b : option Z) : Z :=
  match r, g, b with
  | Some r, Some g, Some b =>
      toUint8Clamp (inject_Z (Math_round
        (0.299 * inject_Z r + 0.587 * inject_Z g + 0.114 * inject_Z b)))
  | _, _, _ => 0%Z
  end.

(** The loop variable [i] of the source is [4 * p] here. *)
Definition toGrayscale (imageData : ImageData) : list Z :=
  let d := data imageData in
  for_range 0 (Nat.div (length d + 3) 4) (fun p gray =>
    <[ p := luminance (d !! (4 * p)%nat) (d !! (4 * p + 1)%nat) (d !! (4 * p + 2)%nat) ]> gray)
    (replicate (width imageData * height imageData) 0%Z).

(** ** Stage 2: gaussianBlur *)

Definition kernel : list (list Q) := [[1; 2; 1]; [2; 4; 2]; [1; 2; 1]].
Definition kernelSum : Q := 16.

(** The two inner loops over [ky], [kx] in -1..1; here [ky] and [kx] run over
    0..2, the kernel's own indices, so that the pixel read is
    [(y + ky - 1, x + kx - 1)]. *)
Definition blurSum (d : list Z) (w x y : nat) : Q :=
  for_range 0 3 (fun ky sum =>
    for_range 0 3 (fun kx sum =>
      let idx := ((y + ky - 1) * w + (x + kx - 1))%nat in
      sum + inject_Z (getZ d idx) * kernelAt kernel ky kx) sum) 0.

Definition gaussianBlur (d : list Z) (w h : nat) : list Z :=
  rasterScan w h (fun x y result =>
      <[ (y * w + x)%nat := toUint8Clamp (blurSum d w x y / kernelSum) ]> result)
    (replicate (length d) 0%Z).

(** ** The JavaScript Math object *)

(** The functions of [Math] that are not rational: they come from the
    runtime and are left open.  [Math_fround] is the rounding to single
    precision that a store into a [Float32Array] applies. *)
Record MathLib := mkMath {
  Math_sqrt : Q -> Q;
  Math_atan2 : Q -> Q -> Q;
  Math_hypot : Q -> Q -> Q;
  Math_fround : Q -> Q
}.

Definition Math_PI : Q := 3.141592653589793.

(** ** Stage 3: sobelEdgeDetection *)

Definition sobelX : list (list Q) := [[-1; 0; 1]; [-2; 0; 2]; [-1; 0; 1]].
Definition sobelY : list (list Q) := [[-1; -2; -1]; [0; 0; 0]; [1; 2; 1]].

(** The pair [(gx, gy)] accumulated by the two inner loops. *)
Definition gradient (d : list Z) (w x y : nat) : Q * Q :=
  for_range 0 3 (fun ky g =>
    for_range 0 3 (fun kx g =>
      let idx := ((y + ky - 1) * w + (x + kx - 1))%nat in
      (g.1 + inject_Z (getZ d idx) * kernelAt sobelX ky kx,
       g.2 + inject_Z (getZ d idx) * kernelAt sobelY ky kx)) g) (0, 0).

Record Gradients := mkGradients {
  magnitude : list Q;
  direction : list Q
}.

Definition sobelEdgeDetection (M : MathLib) (d : list Z) (w h : nat) : Gradients :=
  rasterScan w h (fun x y st =>
      let g := gradient d w x y in
      let idx := (y * w + x)%nat in
      {| magnitude :=
           <[ idx := Math_fround M (Math_sqrt M (g.1 * g.1 + g.2 * g.2)) ]> (magnitude st);
         direction := <[ idx := Math_fround M (Math_atan2 M g.2 g.1) ]> (direction st) |})
    {| magnitude := replicate (length d) 0; direction := replicate (length d) 0 |}.

(** ** Stage 4: nonMaxSuppression *)

Definition suppressionNeighbors (mag : list Q) (w x y : nat) (normalizedAngle : Q) : Q * Q :=
  if (Qleb 0 normalizedAngle && Qltb normalizedAngle 22.5)
     || (Qleb 157.5 normalizedAngle && Qleb normalizedAngle 180)
  then (getQ mag (y * w + (x + 1)), getQ mag (y * w + (x - 1)))
  else if Qleb 22.5 normalizedAngle && Qltb normalizedAngle 67.5
  then (getQ mag ((y + 1) * w + (x - 1)), getQ mag ((y - 1) * w + (x + 1)))
  else if Qleb 67.5 normalizedAngle && Qltb normalizedAngle 112.5
  then (getQ mag ((y + 1) * w + x), getQ mag ((y - 1) * w + x))
  else (getQ mag ((y - 1) * w + (x - 1)), getQ mag ((y + 1) * w + (x + 1))).

Definition nonMaxSuppression (mag dir : list Q) (w h : nat) : list Q :=
  rasterScan w h (fun x y result =>
      let idx := (y * w + x)%nat in
      let angle := getQ dir idx * 180 / Math_PI in
      let normalizedAngle := if Qltb angle 0 then angle + 180 else angle in
      let n := suppressionNeighbors mag w x y normalizedAngle in
      if Qleb n.1 (getQ mag idx) && Qleb n.2 (getQ mag idx)
      then <[ idx := getQ mag idx ]> result
      else result)
    (replicate (length mag) 0).

(** ** Stage 5: doubleThreshold *)

Definition maxMagnitude (edges : list Q) : Q :=
  for_range 0 (length edges) (fun i maxMag =>
    if Qltb maxMag (getQ edges i) then getQ edges i else maxMag) 0.

Definition applyThresholds (edges : list Q) (highThreshold lowThreshold : Q) : list Z :=
  for_range 0 (length edges) (fun i result =>
      if Qleb highThreshold (getQ edges i) then <[ i := 255%Z ]> result
      else if Qleb lowThreshold (getQ edges i) then <[ i := 128%Z ]> result
      else result)
    (replicate (length edges) 0%Z).

(** The loops over [dy], [dx] in -1..1 that stop at the first strong pixel;
    as in [blurSum], the offsets run over 0..2.  A read outside the buffer is
    [undefined], which is not 255. *)
Definition hasStrongNeighbor (result : list Z) (w x y : nat) : bool :=
  existsb (fun dy =>
    existsb (fun dx =>
      bool_decide (result !! ((y + dy - 1) * w + (x + dx - 1))%nat = Some 255%Z))
      (seq 0 3)) (seq 0 3).

Definition hysteresis (w h : nat) (result : list Z) : list Z :=
  rasterScan w h (fun x y result =>
      let idx := (y * w + x)%nat in
      if bool_decide (result !! idx = Some 128%Z)
      then <[ idx := if hasStrongNeighbor result w x y then 255%Z else 0%Z ]> result
      else result)
    result.

Definition doubleThreshold (edges : list Q) (w h : nat) : list Z :=
  let maxMag := maxMagnitude edges in
  let highThreshold := maxMag * 0.15 in
  let lowThreshold := highThreshold * 0.4 in
  hysteresis w h (applyThresholds edges highThreshold lowThreshold).

(** ** Points *)

(** The fields [x] and [y] of the source's [Point]. *)
Record Point := mkPoint {
  px : Q;
  py : Q
}.

Definition origin : Point := mkPoint 0 0.

(** [points[i]] for an index the array holds. *)
Definition getP (points : list Point) (i : nat) : Point := default origin (points !! i).

(** ** Stage 6: findContours *)

Definition directions : list (Z * Z) :=
  [(0, 1); (1, 1); (1, 0); (1, -1); (0, -1); (-1, -1); (-1, 0); (-1, 1)]%Z.

(** [visited[idx]] as a condition: set, and not [undefined]. *)
Definition truthy (v : option Z) : bool :=
  match v with Some z => negb (z =? 0)%Z | None => false end.

(** The [while (stack.length > 0)] loop of [traceContour].  The stack is a
    list whose head is the top; the eight neighbours are pushed in the order
    of [directions], so the last of them ends on top.  One unit of fuel is
    spent per iteration and [None] means the fuel ran out. *)
Fixpoint traceLoop (fuel : nat) (edges : list Z) (w h : nat)
    (visited : list Z) (stack : list (Z * Z)) (contour : list Point)
    : option (list Z * list Point) :=
  match stack with
  | [] => Some (visited, contour)
  | (x, y) :: stack =>
      match fuel with
      | O => None
      | S fuel =>
          let idx := Z.to_nat (y * Z.of_nat w + x) in
          if ((x <? 0) || (x >=? Z.of_nat w) || (y <? 0) || (y >=? Z.of_nat h))%Z
          then traceLoop fuel edges w h visited stack contour
          else if truthy (visited !! idx) || bool_decide (edges !! idx = Some 0%Z)
          then traceLoop fuel edges w h visited stack contour
          else traceLoop fuel edges w h (<[ idx := 1%Z ]> visited)
                 (rev (map (fun d => (x + d.1, y + d.2)%Z) directions) ++ stack)
                 (contour ++ [mkPoint (inject_Z x) (inject_Z y)])
      end
  end.

(** Enough fuel for any trace over a buffer of [n] cells: a cell is marked at
    most once and each marking pushes eight entries. *)
Definition traceFuel (n : nat) : nat := S (8 * n).

Definition traceContour (edges : list Z) (w h : nat) (visited : list Z)
    (startX startY : nat) : option (list Z * list Point) :=
  traceLoop (traceFuel (length visited)) edges w h visited
    [(Z.of_nat startX, Z.of_nat startY)] [].

Definition findContours (edges : list Z) (w h : nat) : option (list (list Point)) :=
  snd <$>
  for_range 0 h (fun y st =>
    for_range 0 w (fun x st =>
      '(visited, contours) ← st;
      let idx := (y * w + x)%nat in
      if bool_decide (edges !! idx = Some 255%Z) && negb (truthy (visited !! idx))
      then
        '(visited, contour) ← traceContour edges w h visited x y;
        Some (visited, if (50 <? length contour)%nat then contours ++ [contour] else contours)
      else Some (visited, contours)) st)
    (Some (replicate (length edges) 0%Z, [])).

(** ** Array.prototype.sort *)

(** [sort] with a comparator is stable (ECMAScript 2019); for a comparator
    that orders consistently the result is the one an insertion sort gives:
    [a] goes before the first [b] with [compare a b <= 0]. *)
Fixpoint insertSorted {A : Type} (compare : A -> A -> Q) (a : A) (l : list A) : list A :=
  match l with
  | [] => [a]
  | b :: l' => if Qleb (compare a b) 0 then a :: l else b :: insertSorted compare a l'
  end.

Definition sortBy {A : Type} (compare : A -> A -> Q) (l : list A) : list A :=
  foldr (insertSorted compare) [] l.

(** ** Stage 7: convexHull *)

(** The first loop: the index of the point with the lowest [y], the lowest
    [x] among those. *)
Definition lowestIndex (points : list Point) : nat :=
  for_range 1 (length points) (fun i lowest =>
    if Qltb (py (getP points i)) (py (getP points lowest))
       || (Qeqb (py (getP points i)) (py (getP points lowest))
           && Qltb (px (getP points i)) (px (getP points lowest)))
    then i else lowest) 0%nat.

(** [[points[0], points[lowest]] = [points[lowest], points[0]]]. *)
Definition swapFirst (points : list Point) (lowest : nat) : list Point :=
  <[ lowest := getP points 0 ]> (<[ 0%nat := getP points lowest ]> points).

Definition cross (second top point : Point) : Q :=
  (px top - px second) * (py point - py second)
  - (py top - py second) * (px point - px second).

(** The [while (hull.length > 1)] loop; the hull is kept with its top first. *)
Fixpoint popNonLeft (point : Point) (hull : list Point) : list Point :=
  match hull with
  | top :: ((second :: _) as rest) =>
      if Qleb (cross second top point) 0 then popNonLeft point rest else hull
  | _ => hull
  end.

Definition polarCompare (M : MathLib) (pivot a b : Point) : Q :=
  Math_atan2 M (py a - py pivot) (px a - px pivot)
  - Math_atan2 M (py b - py pivot) (px b - px pivot).

(** [convexHull] writes into the array it is given, so it yields a pair:
    the content of the caller's array on return, and the returned hull.
    With fewer than 3 points the returned array is the argument itself. *)
Definition convexHull (M : MathLib) (points : list Point) : list Point * list Point :=
  if (length points <? 3)%nat then (points, points)
  else
    let lowest := lowestIndex points in
    let points := swapFirst points lowest in
    let pivot := getP points 0 in
    let sorted := sortBy (polarCompare M pivot) (drop 1 points) in
    let hull := foldl (fun hull point => point :: popNonLeft point hull) [pivot] sorted in
    (points, rev hull).

(** ** Stage 8: approximatePolygon *)

Definition pointToLineDistance (M : MathLib) (point lineStart lineEnd : Point) : Q :=
  let A := px point - px lineStart in
  let B := py point - py lineStart in
  let C := px lineEnd - px lineStart in
  let D := py lineEnd - py lineStart in
  let dot := A * C + B * D in
  let lenSq := C * C + D * D in
  let param := if negb (Qeqb lenSq 0) then dot / lenSq else -1 in
  let '(xx, yy) :=
    if Qltb param 0 then (px lineStart, py lineStart)
    else if Qltb 1 param then (px lineEnd, py lineEnd)
    else (px lineStart + param * C, py lineStart + param * D) in
  Math_hypot M (px point - xx) (py point - yy).

Definition totalLength (M : MathLib) (hull : list Point) : Q :=
  for_range 0 (length hull) (fun i sum =>
    let p := getP hull i in
    let next := getP hull ((i + 1) mod length hull) in
    sum + Math_hypot M (px next - px p) (py next - py p)) 0.

(** The loop of [douglasPeucker] that finds the farthest point from the
    chord: the pair [(maxDist, maxIdx)]. *)
Definition farthest (M : MathLib) (hull : list Point) (start end_ : nat) : Q * nat :=
  let startPoint := getP hull start in
  let endPoint := getP hull (end_ mod length hull) in
  for_range (start + 1) end_ (fun i m =>
    let dist := pointToLineDistance M (getP hull (i mod length hull)) startPoint endPoint in
    if Qltb m.1 dist then (dist, i) else m) (0, start).

(** The recursive [douglasPeucker].  [result] holds the indices of the hull
    points pushed so far: [includes] compares objects, and the entries of a
    hull are distinct objects, one per index.  The fuel bounds the depth of
    the recursion; [None] means it ran out. *)
Fixpoint douglasPeucker (fuel : nat) (M : MathLib) (hull : list Point) (threshold : Q)
    (start end_ : nat) (result : list nat) : option (list nat) :=
  match fuel with
  | O => None
  | S fuel =>
      let m := farthest M hull start end_ in
      if Qltb threshold m.1 then
        result ← douglasPeucker fuel M hull threshold start m.2 result;
        douglasPeucker fuel M hull threshold m.2 end_ result
      else
        Some (if bool_decide (start ∈ result) then result else result ++ [start])
  end.

Definition approximatePolygon (M : MathLib) (hull : list Point) (epsilon : Q)
    : option (list Point) :=
  if (length hull <? 4)%nat then Some hull
  else
    result ← douglasPeucker (S (length hull)) M hull (epsilon * totalLength M hull)
               0 (length hull) [];
    Some (map (getP hull) result).

(** ** Non-finite numbers *)

(** The value of a quotient whose divisor may be zero. *)
Inductive xnum :=
  | Fin (q : Q)
  | PInf
  | NInf
  | NaN.

Definition xdiv (a b : Q) : xnum :=
  if Qeqb b 0 then (if Qltb 0 a then PInf else if Qltb a 0 then NInf else NaN)
  else Fin (a / b).

Definition Qnat (n : nat) : Q := inject_Z (Z.of_nat n).

(** ** Stage 10: orderCorners *)

Definition orderCorners (corners : list Point) : list Point :=
  let sorted := sortBy (fun a b => (px a + py a) - (px b + py b)) corners in
  let topLeft := getP sorted 0 in
  let bottomRight := getP sorted 3 in
  let remaining :=
    sortBy (fun a b => (px b - py b) - (px a - py a)) [getP sorted 1; getP sorted 2] in
  let topRight := getP remaining 0 in
  let bottomLeft := getP remaining 1 in
  [topLeft; topRight; bottomRight; bottomLeft].

(** ** Stage 9: findBestQuadrilateral *)

Definition shoelace (polygon : list Point) : Q :=
  let p := getP polygon in
  Math_abs (
    (px (p 0%nat) * py (p 1%nat) - px (p 1%nat) * py (p 0%nat)) +
    (px (p 1%nat) * py (p 2%nat) - px (p 2%nat) * py (p 1%nat)) +
    (px (p 2%nat) * py (p 3%nat) - px (p 3%nat) * py (p 2%nat)) +
    (px (p 3%nat) * py (p 0%nat) - px (p 0%nat) * py (p 3%nat))) / 2.

(** The body of the loop over the contours, on the state
    [(bestQuad, bestScore)].  A non-finite area ratio (an image of area 0)
    fails one of the two comparisons. *)
Definition considerPolygon (polygon : list Point) (w h : nat)
    (best : list Point * Q) : list Point * Q :=
  if (length polygon =? 4)%nat then
    let area := shoelace polygon in
    let imageArea := Qnat w * Qnat h in
    match xdiv area imageArea with
    | Fin areaRatio =>
        if Qltb 0.1 areaRatio && Qltb areaRatio 0.95 then
          let score := areaRatio * 100 in
          if Qltb best.2 score then (polygon, score) else best
        else best
    | _ => best
    end
  else best.

Definition fallbackQuad (w h : nat) : list Point :=
  let margin := Math_min (Qnat w) (Qnat h) * 0.05 in
  [ mkPoint margin margin;
    mkPoint (Qnat w - margin) margin;
    mkPoint (Qnat w - margin) (Qnat h - margin);
    mkPoint margin (Qnat h - margin) ].

Definition selectBest (w h : nat) (best : list Point * Q) : list Point * Q :=
  let best := if negb (length best.1 =? 4)%nat then (fallbackQuad w h, 30) else best in
  (orderCorners best.1, Math_min best.2 95).

Definition findBestQuadrilateral (M : MathLib) (contours : list (list Point)) (w h : nat)
    : option (list Point * Q) :=
  best ← foldl (fun st contour =>
            best ← st;
            let hull := (convexHull M contour).2 in
            polygon ← approximatePolygon M hull 0.02;
            Some (considerPolygon polygon w h best))
          (Some ([], 0)) contours;
  Some (selectBest w h best).

(** ** Stage 11: computeHomography and solveHomography *)

(** [m[i][j]], [m[i][j] = v] for an array of rows and [a[i] = v] for an
    array of numbers.  A stored number is kept in lowest terms ([Qred]):
    this changes the representation of the rational, not its value, and
    keeps the solver runnable. *)
Definition getM (m : list (list Q)) (i j : nat) : Q := getQ (default [] (m !! i)) j.
Definition setM (m : list (list Q)) (i j : nat) (v : Q) : list (list Q) :=
  alter (fun row => <[ j := Qred v ]> row) i m.
Definition setQ (a : list Q) (i : nat) (v : Q) : list Q := <[ i := Qred v ]> a.
Definition getRow (m : list (list Q)) (i : nat) : list Q := default [] (m !! i).

(** The two rows pushed for one correspondence. *)
Definition correspondenceRows (s d : Point) : list (list Q) :=
  let sx := px s in let sy := py s in
  let dx := px d in let dy := py d in
  [ [- sx; - sy; -1; 0; 0; 0; sx * dx; sy * dx; dx];
    [0; 0; 0; - sx; - sy; -1; sx * dy; sy * dy; dy] ].

Definition buildMatrix (src dst : list Point) : list (list Q) :=
  for_range 0 4 (fun i A => A ++ correspondenceRows (getP src i) (getP dst i)) [].

(** The first loop nest of [solveHomography]: [AtA] and [Atb]. *)
Definition normalEquations (n : nat) (A : list (list Q)) : list (list Q) * list Q :=
  for_range 0 8 (fun i st =>
    for_range 0 n (fun j st =>
      let st :=
        for_range 0 8 (fun k st =>
          (setM st.1 j k (getM st.1 j k + getM A i j * getM A i k), st.2)) st in
      (st.1, setQ st.2 j (getQ st.2 j + getM A i j * (- getM A i 8)))) st)
    (replicate n (replicate n 0), replicate n 0).

(** The search for the pivot row of column [i]. *)
Definition pivotRow (n : nat) (AtA : list (list Q)) (i : nat) : nat :=
  for_range (i + 1) n (fun k maxRow =>
    if Qltb (Math_abs (getM AtA maxRow i)) (Math_abs (getM AtA k i)) then k else maxRow) i.

Definition swapRows (AtA : list (list Q)) (i maxRow : nat) : list (list Q) :=
  <[ maxRow := getRow AtA i ]> (<[ i := getRow AtA maxRow ]> AtA).

Definition swapEntries (Atb : list Q) (i maxRow : nat) : list Q :=
  <[ maxRow := getQ Atb i ]> (<[ i := getQ Atb maxRow ]> Atb).

(** The elimination of column [i] from the rows below row [i]. *)
Definition eliminateColumn (n i : nat) (st : list (list Q) * list Q) : list (list Q) * list Q :=
  for_range (i + 1) n (fun k st =>
    if negb (Qeqb (getM st.1 i i) 0) then
      let c := getM st.1 k i / getM st.1 i i in
      let AtA := for_range i n (fun j AtA =>
                   setM AtA k j (getM AtA k j - c * getM AtA i j)) st.1 in
      (AtA, setQ st.2 k (getQ st.2 k - c * getQ st.2 i))
    else st) st.

Definition gaussianElimination (n : nat) (st : list (list Q) * list Q) : list (list Q) * list Q :=
  for_range 0 n (fun i st =>
    let maxRow := pivotRow n st.1 i in
    eliminateColumn n i (swapRows st.1 i maxRow, swapEntries st.2 i maxRow)) st.

(** [for (let i = n - 1; i >= 0; i--)]. *)
Definition for_down {St : Type} (n : nat) (body : nat -> St -> St) (s : St) : St :=
  foldl (fun st i => body i st) s (rev (seq 0 n)).

Definition backSubstitution (n : nat) (AtA : list (list Q)) (Atb : list Q) : list Q :=
  for_down n (fun i x =>
    let x := setQ x i (getQ Atb i) in
    let x := for_range (i + 1) n (fun j x =>
               setQ x i (getQ x i - getM AtA i j * getQ x j)) x in
    if negb (Qeqb (getM AtA i i) 0) then setQ x i (getQ x i / getM AtA i i) else x)
    (replicate n 0).

Definition solveHomography (A : list (list Q)) : list Q :=
  let n := 8%nat in
  let st := gaussianElimination n (normalEquations n A) in
  backSubstitution n st.1 st.2 ++ [1].

Definition computeHomography (src dst : list Point) : list Q :=
  solveHomography (buildMatrix src dst).

(** ** Stage 12: perspectiveTransform *)

(** Where the destination pixel [(x, y)] falls in the source: the pair
    [(srcX, srcY)]; the divisor [w] may be zero. *)
Definition sourceCoordinates (H : list Q) (x y : nat) : xnum * xnum :=
  let w := getQ H 6 * Qnat x + getQ H 7 * Qnat y + getQ H 8 in
  (xdiv (getQ H 0 * Qnat x + getQ H 1 * Qnat y + getQ H 2) w,
   xdiv (getQ H 3 * Qnat x + getQ H 4 * Qnat y + getQ H 5) w).

(** The guard [x0 >= 0 && x1 < width && y0 >= 0 && y1 < height]: with a
    non-finite coordinate one of its comparisons is false. *)
Definition neighborhood (src : ImageData) (s : xnum * xnum) : option (Z * Z) :=
  match s with
  | (Fin srcX, Fin srcY) =>
      let x0 := Math_floor srcX in
      let y0 := Math_floor srcY in
      if ((0 <=? x0) && (x0 + 1 <? Z.of_nat (width src))
          && (0 <=? y0) && (y0 + 1 <? Z.of_nat (height src)))%Z
      then Some (x0, y0) else None
  | _ => None
  end.

(** [sourceData.data[idx]] for a computed index; [None] is [undefined]. *)
Definition readChannel (src : ImageData) (idx : Z) : option Q :=
  if (idx <? 0)%Z then None else inject_Z <$> (data src !! Z.to_nat idx).

(** The interpolated value of channel [c]; it is NaN ([None]) if one of the
    four reads leaves the buffer. *)
Definition bilinear (src : ImageData) (srcX srcY : Q) (x0 y0 : Z) (c : nat) : option Q :=
  let x1 := (x0 + 1)%Z in
  let y1 := (y0 + 1)%Z in
  let xWeight := srcX - inject_Z x0 in
  let yWeight := srcY - inject_Z y0 in
  let W := Z.of_nat (width src) in
  v00 ← readChannel src ((y0 * W + x0) * 4 + Z.of_nat c);
  v01 ← readChannel src ((y0 * W + x1) * 4 + Z.of_nat c);
  v10 ← readChannel src ((y1 * W + x0) * 4 + Z.of_nat c);
  v11 ← readChannel src ((y1 * W + x1) * 4 + Z.of_nat c);
  Some (v00 * (1 - xWeight) * (1 - yWeight) + v01 * xWeight * (1 - yWeight)
        + v10 * (1 - xWeight) * yWeight + v11 * xWeight * yWeight).

(** A store of a possibly-NaN value into the output buffer. *)
Definition storeByte (v : option Q) : Z :=
  match v with Some q => toUint8Clamp q | None => 0%Z end.

(** The body of the two loops for one destination pixel. *)
Definition resamplePixel (src : ImageData) (H : list Q) (outputWidth : nat)
    (x y : nat) (outputData : list Z) : list Z :=
  let s := sourceCoordinates H x y in
  match s, neighborhood src s with
  | (Fin srcX, Fin srcY), Some (x0, y0) =>
      for_range 0 4 (fun c outputData =>
        <[ ((y * outputWidth + x) * 4 + c)%nat := storeByte (bilinear src srcX srcY x0 y0 c) ]>
          outputData) outputData
  | _, _ => outputData
  end.

Definition destinationCorners (outputWidth outputHeight : nat) : list Point :=
  [ mkPoint 0 0;
    mkPoint (Qnat outputWidth) 0;
    mkPoint (Qnat outputWidth) (Qnat outputHeight);
    mkPoint 0 (Qnat outputHeight) ].

(** The canvases are reduced to their pixel buffers: the source canvas is
    the input raster, the result is the buffer handed to [putImageData]. *)
Definition perspectiveTransform (src : ImageData) (corners : list Point)
    (outputWidth outputHeight : nat) : ImageData :=
  let H := computeHomography (destinationCorners outputWidth outputHeight) corners in
  mkImageData outputWidth outputHeight
    (for_range 0 outputHeight (fun y outputData =>
       for_range 0 outputWidth (fun x outputData =>
         resamplePixel src H outputWidth x y outputData) outputData)
       (replicate (outputWidth * outputHeight * 4) 0%Z)).

(** ** processDocument *)

Record ProcessingResult := mkResult {
  processedImage : ImageData;
  corners : list Point;
  confidence : Q;
  warning : option string
}.

Definition lowConfidenceWarning : string :=
  "Low confidence detection. Document edges may not be accurate.".

(** The body of the [onload] handler, from the decoded raster to the value
    the promise resolves with; the image decoder and the JPEG encoder are
    outside.  [None] stands for a run that does not come back.  The two DOM
    calls of the handler that can throw, [getImageData] and
    [createImageData], are added by [processDocumentPromise] below. *)
Definition processDocument (M : MathLib) (imgData : ImageData) : option ProcessingResult :=
  let w := width imgData in
  let h := height imgData in
  let gray := toGrayscale imgData in
  let blurred := gaussianBlur gray w h in
  let g := sobelEdgeDetection M blurred w h in
  let thinEdges := nonMaxSuppression (magnitude g) (direction g) w h in
  let edges := doubleThreshold thinEdges w h in
  contours ← findContours edges w h;
  best ← findBestQuadrilateral M contours w h;
  let corners := best.1 in
  let confidence := best.2 in
  let c := getP corners in
  let width1 := Math_hypot M (px (c 1%nat) - px (c 0%nat)) (py (c 1%nat) - py (c 0%nat)) in
  let width2 := Math_hypot M (px (c 2%nat) - px (c 3%nat)) (py (c 2%nat) - py (c 3%nat)) in
  let height1 := Math_hypot M (px (c 3%nat) - px (c 0%nat)) (py (c 3%nat) - py (c 0%nat)) in
  let height2 := Math_hypot M (px (c 2%nat) - px (c 1%nat)) (py (c 2%nat) - py (c 1%nat)) in
  let outputWidth := Z.to_nat (Math_round (Math_max width1 width2)) in
  let outputHeight := Z.to_nat (Math_round (Math_max height1 height2)) in
  let resultCanvas := perspectiveTransform imgData corners outputWidth outputHeight in
  Some {| processedImage := resultCanvas;
          corners := corners;
          confidence := confidence;
          warning := if Qltb confidence 50 then Some lowConfidenceWarning else None |}.

(** ** A runnable Math object *)

(** A rational stand-in for [Math], used only to run the pipeline on
    examples: the square root is an integer square root taken at a fixed
    binary precision, the arc tangent a quadratic fit folded over the eight
    octants (exact on the axes and the diagonals), the rounding to single
    precision keeps 24 significant bits.  No theorem depends on it beyond
    the examples that name it. *)
Definition sampleSqrt (q : Q) : Q :=
  if Qleb q 0 then 0
  else Z.sqrt (Qnum q * Z.pos (Qden q) * 2 ^ 40) # (Qden q * 2 ^ 20).

Definition sampleAtan2 (y x : Q) : Q :=
  let ax := Qabs x in
  let ay := Qabs y in
  if Qeqb ax 0 && Qeqb ay 0 then 0
  else
    let a := Math_min ax ay / Math_max ax ay in
    let r := Qred (Math_PI / 4 * a + 0.273 * a * (1 - a)) in
    let r := if Qltb ax ay then Math_PI / 2 - r else r in
    let r := if Qltb x 0 then Math_PI - r else r in
    Qred (if Qltb y 0 then - r else r).

Definition sampleMath : MathLib :=
  {| Math_sqrt := sampleSqrt;
     Math_atan2 := sampleAtan2;
     Math_hypot := fun a b => sampleSqrt (a * a + b * b);
     Math_fround := binary32 |}.

(** A raster of one colour. *)
Definition uniformRaster (w h : nat) (r g b a : Z) : ImageData :=
  mkImageData w h (mjoin (replicate (w * h) [r; g; b; a])).

(** ** Statements about the blur *)

(** The pixel [(x, y)] of a one-channel buffer, as a number. *)
Definition pixelAt (d : list Z) (w x y : nat) : Q := inject_Z (getZ d (y * w + x)).

(** The 3x3 weighted sum around [(x, y)] written out, row by row. *)
Definition kernelResponse (d : list Z) (w x y : nat) : Q :=
  1 * pixelAt d w (x - 1) (y - 1) + 2 * pixelAt d w x (y - 1) + 1 * pixelAt d w (x + 1) (y - 1)
  + 2 * pixelAt d w (x - 1) y + 4 * pixelAt d w x y + 2 * pixelAt d w (x + 1) y
  + 1 * pixelAt d w (x - 1) (y + 1) + 2 * pixelAt d w x (y + 1) + 1 * pixelAt d w (x + 1) (y + 1).

(** "Border pixels are passed through unmodified". *)
Definition borderPassedThrough (d : list Z) (w h : nat) : Prop :=
  forall x y, (x < w)%nat -> (y < h)%nat -> interiorb w h x y = false ->
    gaussianBlur d w h !! (y * w + x)%nat = d !! (y * w + x)%nat.

(** ** Statements about the corner order *)

Definition cornerSum (p : Point) : Q := px p + py p.

(** One corner has an [x + y] strictly larger than every other corner's. *)
Definition largestSumUnique (q : list Point) : Prop :=
  exists i, (i < length q)%nat /\
    forall j, (j < length q)%nat -> j <> i -> cornerSum (getP q j) < cornerSum (getP q i).

(** A square standing on a corner, its corners listed left, top, bottom,
    right (the y axis points down). *)
Definition diamond : list Point :=
  [mkPoint 0 10; mkPoint 10 0; mkPoint 10 20; mkPoint 20 10].

(** ** Statements about the whole run *)

(** What the runtime guarantees of [Math.hypot]: it is never negative. *)
Definition hypotNonneg (M : MathLib) : Prop := forall a b, 0 <= Math_hypot M a b.

(** The number of cells a trace has not marked yet. *)
Definition unmarked (visited : list Z) : nat :=
  length (filter (fun z => z = 0%Z) visited).

(** Stages 1 to 5 of [processDocument]: the edge mask of a raster. *)
Definition edgeMask (M : MathLib) (imgData : ImageData) : list Z :=
  let w := width imgData in
  let h := height imgData in
  let g := sobelEdgeDetection M (gaussianBlur (toGrayscale imgData) w h) w h in
  doubleThreshold (nonMaxSuppression (magnitude g) (direction g) w h) w h.

(** The test a simplified hull passes to become a candidate: 4 vertices and
    an area ratio strictly between 0.1 and 0.95. *)
Definition qualifying (polygon : list Point) (w h : nat) : bool :=
  (length polygon =? 4)%nat
  && match xdiv (shoelace polygon) (Qnat w * Qnat h) with
     | Fin areaRatio => Qltb 0.1 areaRatio && Qltb areaRatio 0.95
     | _ => false
     end.

Definition noneQualifies (M : MathLib) (contours : list (list Point)) (w h : nat) : Prop :=
  forall contour polygon,
    contour ∈ contours ->
    approximatePolygon M (convexHull M contour).2 0.02 = Some polygon ->
    qualifying polygon w h = false.

(** Equality of points as numbers. *)
Definition pointEq (p q : Point) : Prop := px p == px q /\ py p == py q.

(** What the loop over the contours keeps: nothing yet, or a 4-gon whose
    score lies strictly between 10 and 95. *)
Definition bestInvariant (best : list Point * Q) : Prop :=
  best = ([], 0) \/ (length best.1 = 4%nat /\ 10 < best.2 /\ best.2 < 95).

(** The loop of [findBestQuadrilateral], as the fold it is. *)
Definition bestOfContours (M : MathLib) (contours : list (list Point)) (w h : nat)
    (init : option (list Point * Q)) : option (list Point * Q) :=
  foldl (fun st contour =>
           best ← st;
           let hull := (convexHull M contour).2 in
           polygon ← approximatePolygon M hull 0.02;
           Some (considerPolygon polygon w h best))
        init contours.

(** ** Statements about the hull *)

(** [a] is not above [b]: a lower [y], or the same [y] and no larger [x]. *)
Definition lowestFirst (a b : Point) : Prop :=
  py a < py b \/ (py a == py b /\ px a <= px b).

(** ** Statements about the resampler *)

(** The byte the resampler leaves in channel [c] of a destination pixel that
    falls at [s] in the source: the stored interpolation when the 2x2
    neighbourhood lies inside the source, the initial 0 otherwise. *)
Definition resampledByte (src : ImageData) (s : xnum * xnum) (c : nat) : Z :=
  match s, neighborhood src s with
  | (Fin srcX, Fin srcY), Some (x0, y0) => storeByte (bilinear src srcX srcY x0 y0 c)
  | _, _ => 0%Z
  end.

(** The divisor [w] of the projective division at [(x, y)]. *)
Definition projectiveDivisor (H : list Q) (x y : nat) : Q :=
  getQ H 6 * Qnat x + getQ H 7 * Qnat y + getQ H 8.

(** The four buffer indices read for channel [c] around [(x0, y0)]. *)
Definition sampleIndices (src : ImageData) (x0 y0 : Z) (c : nat) : list Z :=
  let W := Z.of_nat (width src) in
  [ ((y0 * W + x0) * 4 + Z.of_nat c)%Z;
    ((y0 * W + (x0 + 1)) * 4 + Z.of_nat c)%Z;
    (((y0 + 1) * W + x0) * 4 + Z.of_nat c)%Z;
    (((y0 + 1) * W + (x0 + 1)) * 4 + Z.of_nat c)%Z ].

(** A source raster whose buffer has the length its dimensions declare. *)
Definition wellFormed (src : ImageData) : Prop :=
  length (data src) = (width src * height src * 4)%nat.

(** ** Statements about the edge classifier *)

(** The buffer [doubleThreshold] holds after its thresholding loop and
    before the hysteresis pass. *)
Definition thresholded (edges : list Q) : list Z :=
  let highThreshold := maxMagnitude edges * 0.15 in
  applyThresholds edges highThreshold (highThreshold * 0.4).

(** The buffer the hysteresis pass reads when it visits cell [k]: the cells
    before [k] hold their final value, the cells from [k] on still hold the
    thresholded one. *)
Definition atVisit (out thr : list Z) (k : nat) : list Z := take k out ++ drop k thr.

(** The eight neighbours of [(x, y)], as buffer indices. *)
Definition neighborIndices (w x y : nat) : list nat :=
  [ ((y - 1) * w + (x - 1))%nat; ((y - 1) * w + x)%nat; ((y - 1) * w + (x + 1))%nat;
    (y * w + (x - 1))%nat; (y * w + (x + 1))%nat;
    ((y + 1) * w + (x - 1))%nat; ((y + 1) * w + x)%nat; ((y + 1) * w + (x + 1))%nat ].

Definition maskValue (v : Z) : Prop := v = 0%Z \/ v = 128%Z \/ v = 255%Z.
Definition binaryValue (v : Z) : Prop := v = 0%Z \/ v = 255%Z.

(** The body of the hysteresis loop at the pixel [p]. *)
Definition hysteresisStep (w : nat) (p : nat * nat) (result : list Z) : list Z :=
  if bool_decide (result !! (p.2 * w + p.1)%nat = Some 128%Z)
  then <[ (p.2 * w + p.1)%nat := if hasStrongNeighbor result w p.1 p.2 then 255%Z else 0%Z ]> result
  else result.

(** ** Statements about the solver *)

(** The sum of [f j] over the indices [j] of a list. *)
Definition Qsum (f : nat -> Q) (l : list nat) : Q := foldr (fun j acc => f j + acc) 0 l.

(** Row [r] of the matrix [m] applied to the vector [x]: the sum of
    [m[r][j] * x[j]] over the [n] columns. *)
Definition rowDot (n : nat) (m : list (list Q)) (r : nat) (x : nat -> Q) : Q :=
  Qsum (fun j => getM m r j * x j) (seq 0 n).

(** [x] solves the [n] equations [m x = t b]; [t] is 1 for the system
    itself and 0 for its homogeneous part. *)
Definition solves (n : nat) (m : list (list Q)) (b : list Q) (t : Q) (x : nat -> Q) : Prop :=
  forall r, (r < n)%nat -> rowDot n m r x == t * getQ b r.

(** Only the zero vector is sent to zero by the [n] x [n] matrix [m]. *)
Definition nonsingular (n : nat) (m : list (list Q)) : Prop :=
  forall x, (forall r, (r < n)%nat -> rowDot n m r x == 0) ->
            forall j, (j < n)%nat -> x j == 0.

(** An [n] x [n] array of rows with a right-hand side of [n] entries. *)
Definition shaped (n : nat) (m : list (list Q)) (b : list Q) : Prop :=
  length m = n /\ (forall r, (r < n)%nat -> length (getRow m r) = n) /\ length b = n.

(** The index that reads, after the exchange of the rows [i] and [r], what
    [k] read before. *)
Definition swapIndex (i r k : nat) : nat :=
  if (k =? r)%nat then i else if (k =? i)%nat then r else k.

(** The 8 x 9 matrix [computeHomography] builds for the rectangle
    [(0,0), (W,0), (W,H), (0,H)] and the quadrilateral [p0 p1 p2 p3]. *)
Definition rectMatrix (W H : Q) (p0 p1 p2 p3 : Point) : list (list Q) :=
  correspondenceRows (mkPoint 0 0) p0 ++ correspondenceRows (mkPoint W 0) p1
  ++ correspondenceRows (mkPoint W H) p2 ++ correspondenceRows (mkPoint 0 H) p3.

(** Three points on a line, and a quadrilateral no three corners of which
    are on a line. *)
Definition collinear (a b c : Point) : Prop := cross a b c == 0.

Definition generalPosition (q : list Point) : Prop :=
  ~ collinear (getP q 0) (getP q 1) (getP q 2)
  /\ ~ collinear (getP q 0) (getP q 1) (getP q 3)
  /\ ~ collinear (getP q 0) (getP q 2) (getP q 3)
  /\ ~ collinear (getP q 1) (getP q 2) (getP q 3).

(** Column [j] of the first [n] rows of [m] applied to [u]. *)
Definition columnDot (n : nat) (m : list (list Q)) (j : nat) (u : nat -> Q) : Q :=
  Qsum (fun i => getM m i j * u i) (seq 0 n).

(** The pair of source coordinates is finite and is the point [p]. *)
Definition reproduces (s : xnum * xnum) (p : Point) : Prop :=
  match s with
  | (Fin sx, Fin sy) => sx == px p /\ sy == py p
  | _ => False
  end.

(** A buffer of a [Uint8ClampedArray]: every element is a byte. *)
Definition byteBuffer (d : list Z) : Prop := Forall (fun b => (0 <= b <= 255)%Z) d.

(** The entry [k] of the 3 x 3 identity matrix, in row-major order. *)
Definition identityEntry (k : nat) : Q := getQ [1; 0; 0; 0; 1; 0; 0; 0; 1] k.

(** ** Statements about the per-pixel stages and the contours *)

(** The 3x3 neighbourhood of [(x, y)] holds [v] everywhere. *)
Definition flatAround (d : list Z) (w x y : nat) (v : Z) : Prop :=
  forall dx dy, (dx < 3)%nat -> (dy < 3)%nat ->
    getZ d ((y + dy - 1) * w + (x + dx - 1)) = v.

(** A point of a contour: a pixel of the raster whose mask value is not 0. *)
Definition contourPixel (edges : list Z) (w h : nat) (p : Point) : Prop :=
  exists x y : nat,
    p = mkPoint (Qnat x) (Qnat y) /\ (x < w)%nat /\ (y < h)%nat
    /\ edges !! (y * w + x)%nat <> Some 0%Z.

(** * The same functions over binary64 *)

(** The solver and the resampler computed as the runtime computes them:
    every JavaScript number is an IEEE 754 binary64 value (the kernel's
    primitive [float]) and every operation rounds to nearest, ties to even.
    The functions keep the names they have in the source. *)
Module Binary64.

Local Open Scope float_scope.

(** The number an integer loop variable or a byte is. *)
Definition ofZ (z : Z) : float :=
  let a := PrimFloat.of_uint63 (Uint63.of_Z (Z.abs z)) in
  if (z <? 0)%Z then - a else a.

Definition ofNat (n : nat) : float := ofZ (Z.of_nat n).

(** The value of a number: a rational, an infinity or NaN. *)
Definition value (f : float) : xnum :=
  match Prim2SF f with
  | S754_zero _ => Fin 0%Q
  | S754_finite s m e =>
      Fin (inject_Z (if s then Z.neg m else Z.pos m) * (2 ^ e))%Q
  | S754_infinity false => PInf
  | S754_infinity true => NInf
  | S754_nan => NaN
  end.

(** [Math.floor] of a finite number, as an integer. *)
Definition floorZ (f : float) : option Z :=
  match Prim2SF f with
  | S754_zero _ => Some 0%Z
  | S754_finite s m e =>
      let n := if s then Z.neg m else Z.pos m in
      Some (if (0 <=? e)%Z then n * 2 ^ e else n / 2 ^ (- e))%Z
  | _ => None
  end.

(** A store into a [Uint8ClampedArray]. *)
Definition storeByte (v : float) : Z :=
  match value v with
  | Fin q => toUint8Clamp q
  | PInf => 255%Z
  | _ => 0%Z
  end.

Record Point := mkPoint {
  px : float;
  py : float
}.

(** A read past the end of an array gives [undefined], which is NaN in
    arithmetic. *)
Definition getF (a : list float) (i : nat) : float := default nan (a !! i).
Definition getP (points : list Point) (i : nat) : Point :=
  default (mkPoint nan nan) (points !! i).
Definition getM (m : list (list float)) (i j : nat) : float := getF (default [] (m !! i)) j.
Definition setM (m : list (list float)) (i j : nat) (v : float) : list (list float) :=
  alter (fun row => <[ j := v ]> row) i m.
Definition getRow (m : list (list float)) (i : nat) : list float := default [] (m !! i).

Definition correspondenceRows (s d : Point) : list (list float) :=
  let sx := px s in let sy := py s in
  let dx := px d in let dy := py d in
  [ [- sx; - sy; -1; 0; 0; 0; sx * dx; sy * dx; dx];
    [0; 0; 0; - sx; - sy; -1; sx * dy; sy * dy; dy] ].

Definition buildMatrix (src dst : list Point) : list (list float) :=
  for_range 0 4 (fun i A => A ++ correspondenceRows (getP src i) (getP dst i)) [].

Definition normalEquations (n : nat) (A : list (list float))
    : list (list float) * list float :=
  for_range 0 8 (fun i st =>
    for_range 0 n (fun j st =>
      let st :=
        for_range 0 8 (fun k st =>
          (setM st.1 j k (getM st.1 j k + getM A i j * getM A i k), st.2)) st in
      (st.1, <[ j := getF st.2 j + getM A i j * (- getM A i 8) ]> st.2)) st)
    (replicate n (replicate n 0), replicate n 0).

Definition pivotRow (n : nat) (AtA : list (list float)) (i : nat) : nat :=
  for_range (i + 1) n (fun k maxRow =>
    if PrimFloat.abs (getM AtA maxRow i) <? PrimFloat.abs (getM AtA k i) then k else maxRow) i.

Definition swapRows (AtA : list (list float)) (i maxRow : nat) : list (list float) :=
  <[ maxRow := getRow AtA i ]> (<[ i := getRow AtA maxRow ]> AtA).

Definition swapEntries (Atb : list float) (i maxRow : nat) : list float :=
  <[ maxRow := getF Atb i ]> (<[ i := getF Atb maxRow ]> Atb).

Definition eliminateColumn (n i : nat) (st : list (list float) * list float)
    : list (list float) * list float :=
  for_range (i + 1) n (fun k st =>
    if negb (getM st.1 i i =? 0) then
      let c := getM st.1 k i / getM st.1 i i in
      let AtA := for_range i n (fun j AtA =>
                   setM AtA k j (getM AtA k j - c * getM AtA i j)) st.1 in
      (AtA, <[ k := getF st.2 k - c * getF st.2 i ]> st.2)
    else st) st.

Definition gaussianElimination (n : nat) (st : list (list float) * list float)
    : list (list float) * list float :=
  for_range 0 n (fun i st =>
    let maxRow := pivotRow n st.1 i in
    eliminateColumn n i (swapRows st.1 i maxRow, swapEntries st.2 i maxRow)) st.

Definition backSubstitution (n : nat) (AtA : list (list float)) (Atb : list float)
    : list float :=
  for_down n (fun i x =>
    let x := <[ i := getF Atb i ]> x in
    let x := for_range (i + 1) n (fun j x =>
               <[ i := getF x i - getM AtA i j * getF x j ]> x) x in
    if negb (getM AtA i i =? 0) then <[ i := getF x i / getM AtA i i ]> x else x)
    (replicate n 0).

Definition solveHomography (A : list (list float)) : list float :=
  let n := 8%nat in
  let st := gaussianElimination n (normalEquations n A) in
  backSubstitution n st.1 st.2 ++ [1].

Definition computeHomography (src dst : list Point) : list float :=
  solveHomography (buildMatrix src dst).

(** The pair [(srcX, srcY)] of a destination pixel. *)
Definition sourceCoordinates (H : list float) (x y : nat) : float * float :=
  let w := getF H 6 * ofNat x + getF H 7 * ofNat y + getF H 8 in
  ((getF H 0 * ofNat x + getF H 1 * ofNat y + getF H 2) / w,
   (getF H 3 * ofNat x + getF H 4 * ofNat y + getF H 5) / w).

(** The guard [x0 >= 0 && x1 < width && y0 >= 0 && y1 < height]; a
    coordinate that is not finite fails it. *)
Definition neighborhood (src : ImageData) (s : float * float) : option (Z * Z) :=
  match floorZ s.1, floorZ s.2 with
  | Some x0, Some y0 =>
      if ((0 <=? x0) && (x0 + 1 <? Z.of_nat (width src))
          && (0 <=? y0) && (y0 + 1 <? Z.of_nat (height src)))%Z
      then Some (x0, y0) else None
  | _, _ => None
  end.

Definition readChannel (src : ImageData) (idx : Z) : option float :=
  if (idx <? 0)%Z then None else ofZ <$> (data src !! Z.to_nat idx).

Definition bilinear (src : ImageData) (srcX srcY : float) (x0 y0 : Z) (c : nat)
    : option float :=
  let x1 := (x0 + 1)%Z in
  let y1 := (y0 + 1)%Z in
  let xWeight := srcX - ofZ x0 in
  let yWeight := srcY - ofZ y0 in
  let W := Z.of_nat (width src) in
  v00 ← readChannel src ((y0 * W + x0) * 4 + Z.of_nat c);
  v01 ← readChannel src ((y0 * W + x1) * 4 + Z.of_nat c);
  v10 ← readChannel src ((y1 * W + x0) * 4 + Z.of_nat c);
  v11 ← readChannel src ((y1 * W + x1) * 4 + Z.of_nat c);
  Some (v00 * (1 - xWeight) * (1 - yWeight) + v01 * xWeight * (1 - yWeight)
        + v10 * (1 - xWeight) * yWeight + v11 * xWeight * yWeight).

Definition resamplePixel (src : ImageData) (H : list float) (outputWidth : nat)
    (x y : nat) (outputData : list Z) : list Z :=
  let s := sourceCoordinates H x y in
  match neighborhood src s with
  | Some (x0, y0) =>
      for_range 0 4 (fun c outputData =>
        <[ ((y * outputWidth + x) * 4 + c)%nat :=
             match bilinear src s.1 s.2 x0 y0 c with
             | Some v => storeByte v
             | None => 0%Z
             end ]> outputData) outputData
  | None => outputData
  end.

Definition destinationCorners (outputWidth outputHeight : nat) : list Point :=
  [ mkPoint 0 0;
    mkPoint (ofNat outputWidth) 0;
    mkPoint (ofNat outputWidth) (ofNat outputHeight);
    mkPoint 0 (ofNat outputHeight) ].

Definition perspectiveTransform (src : ImageData) (corners : list Point)
    (outputWidth outputHeight : nat) : ImageData :=
  let H := computeHomography (destinationCorners outputWidth outputHeight) corners in
  mkImageData outputWidth outputHeight
    (for_range 0 outputHeight (fun y outputData =>
       for_range 0 outputWidth (fun x outputData =>
         resamplePixel src H outputWidth x y outputData) outputData)
       (replicate (outputWidth * outputHeight * 4) 0%Z)).

(** [Array.prototype.sort] with a comparator: [a] goes before [b] unless the
    comparator's result is above 0 (a NaN result counts as 0). *)
Fixpoint insertSorted {A : Type} (compare : A -> A -> float) (a : A) (l : list A) : list A :=
  match l with
  | [] => [a]
  | b :: l' => if 0 <? compare a b then b :: insertSorted compare a l' else a :: l
  end.

Definition sortBy {A : Type} (compare : A -> A -> float) (l : list A) : list A :=
  foldr (insertSorted compare) [] l.

Definition orderCorners (corners : list Point) : list Point :=
  let sorted := sortBy (fun a b => (px a + py a) - (px b + py b)) corners in
  let topLeft := getP sorted 0 in
  let bottomRight := getP sorted 3 in
  let remaining :=
    sortBy (fun a b => (px b - py b) - (px a - py a)) [getP sorted 1; getP sorted 2] in
  let topRight := getP remaining 0 in
  let bottomLeft := getP remaining 1 in
  [topLeft; topRight; bottomRight; bottomLeft].

End Binary64.

(** ** Statements about the resampler in binary64 *)

(** The body of the two loops of [perspectiveTransform] for one destination
    pixel, whatever the arithmetic: [write x y] is the byte of each channel
    when the guard passes and [None] when the pixel is skipped. *)
Definition pixelStep (write : nat -> nat -> option (nat -> Z)) (outputWidth x y : nat)
    (outputData : list Z) : list Z :=
  match write x y with
  | Some value =>
      for_range 0 4 (fun c outputData =>
        <[ ((y * outputWidth + x) * 4 + c)%nat := value c ]> outputData) outputData
  | None => outputData
  end.

(** The byte the loops leave in channel [c] of the pixel [(x, y)]. *)
Definition writtenByte (write : nat -> nat -> option (nat -> Z)) (x y c : nat) : Z :=
  match write x y with Some value => value c | None => 0%Z end.

(** The 2x2 neighbourhood whose upper left pixel is [(x0, y0)] lies fully
    inside the source raster. *)
Definition insideRaster (src : ImageData) (x0 y0 : Z) : bool :=
  ((0 <=? x0) && (x0 + 1 <? Z.of_nat (width src))
   && (0 <=? y0) && (y0 + 1 <? Z.of_nat (height src)))%Z.

(** The buffer index of channel [c] of the source pixel [(x, y)] and, as a
    binary64 number, the byte stored there. *)
Definition channelIndex (src : ImageData) (x y : Z) (c : nat) : Z :=
  ((y * Z.of_nat (width src) + x) * 4 + Z.of_nat c)%Z.

Definition channelAt (src : ImageData) (x y : Z) (c : nat) : float :=
  Binary64.ofZ (getZ (data src) (Z.to_nat (channelIndex src x y c))).

(** Bilinear interpolation of channel [c] at [(srcX, srcY)] between the
    four pixels of the neighbourhood at [(x0, y0)], in binary64. *)
Definition interpolated (src : ImageData) (srcX srcY : float) (x0 y0 : Z) (c : nat) : float :=
  let xWeight := (srcX - Binary64.ofZ x0)%float in
  let yWeight := (srcY - Binary64.ofZ y0)%float in
  (channelAt src x0 y0 c * (1 - xWeight) * (1 - yWeight)
   + channelAt src (x0 + 1) y0 c * xWeight * (1 - yWeight)
   + channelAt src x0 (y0 + 1) c * (1 - xWeight) * yWeight
   + channelAt src (x0 + 1) (y0 + 1) c * xWeight * yWeight)%float.

(** What the specification says a destination pixel holds in channel [c] when its
    source position is [(srcX, srcY)]: the interpolated value, stored as a
    clamped byte, when both coordinates are finite and the neighbourhood of
    their floors lies inside the source; the initial 0 otherwise. *)
Definition expectedByte (src : ImageData) (srcX srcY : float) (c : nat) : Z :=
  match Binary64.floorZ srcX, Binary64.floorZ srcY with
  | Some x0, Some y0 =>
      if insideRaster src x0 y0
      then Binary64.storeByte (interpolated src srcX srcY x0 y0 c)
      else 0%Z
  | _, _ => 0%Z
  end.

(** ** Statements about the matrix the resampler is given *)

(** The two loops of [perspectiveTransform], run with the matrix [H]. *)
Definition resampleWith (src : ImageData) (H : list Q) (outputWidth outputHeight : nat)
    : list Z :=
  for_range 0 outputHeight (fun y outputData =>
    for_range 0 outputWidth (fun x outputData =>
      resamplePixel src H outputWidth x y outputData) outputData)
    (replicate (outputWidth * outputHeight * 4) 0%Z).

(** The binary64 number [computed] lies within the relative tolerance [tol]
    of the rational [expected]. *)
Definition withinTolerance (tol : Q) (computed : float) (expected : Q) : bool :=
  match Binary64.value computed with
  | Fin v => Qleb (Qabs (v - expected)) (tol * Qabs expected)
  | _ => false
  end.

(** The four turns of a quadrilateral go the same way: it is convex, and no
    three of its corners are on a line. *)
Definition convexQuad (q : list Point) : Prop :=
  0 < cross (getP q 0) (getP q 1) (getP q 2)
  /\ 0 < cross (getP q 1) (getP q 2) (getP q 3)
  /\ 0 < cross (getP q 2) (getP q 3) (getP q 0)
  /\ 0 < cross (getP q 3) (getP q 0) (getP q 1).

(** A thin convex quadrilateral, a million times wider than high, as exact
    points and as binary64 points (small integers: the same numbers). *)
Definition sliver : list Point :=
  [mkPoint 1 1; mkPoint 1048577 1; mkPoint 2097153 2; mkPoint 1 2].

Definition sliver64 : list Binary64.Point :=
  [Binary64.mkPoint 1 1; Binary64.mkPoint 1048577 1;
   Binary64.mkPoint 2097153 2; Binary64.mkPoint 1 2].

(** A convex quadrilateral three corners of which are nearly on a line. *)
Definition needle : list Point :=
  [mkPoint 1 1; mkPoint 168897 3; mkPoint 337792 5; mkPoint 0 7].

Definition needle64 : list Binary64.Point :=
  [Binary64.mkPoint 1 1; Binary64.mkPoint 168897 3;
   Binary64.mkPoint 337792 5; Binary64.mkPoint 0 7].

(** ** Statements about the edge classifier and its caller *)

(** The magnitudes [doubleThreshold] receives: [nonMaxSuppression] writes
    interior pixels only, so every border pixel holds 0. *)
Definition zeroBorder (edges : list Q) (w h : nat) : Prop :=
  forall x y, (x < w)%nat -> (y < h)%nat -> interiorb w h x y = false ->
    getQ edges (y * w + x) == 0.

(** The mask the specification describes: a weak pixel becomes 255 when one of its
    8 neighbours was thresholded strong and 0 otherwise; every other pixel
    keeps its thresholded value. *)
Definition specifiedMask (thr : list Z) (w : nat) : list Z :=
  imap (fun k v =>
    if (v =? 128)%Z
    then if existsb (fun j => bool_decide (thr !! j = Some 255%Z))
              (neighborIndices w (k mod w) (k / w))
         then 255%Z else 0%Z
    else v) thr.

(** The body of the loop of [nonMaxSuppression] at the pixel [p]. *)
Definition suppressionStep (mag dir : list Q) (w : nat) (p : nat * nat) (result : list Q)
    : list Q :=
  let idx := (p.2 * w + p.1)%nat in
  let angle := getQ dir idx * 180 / Math_PI in
  let normalizedAngle := if Qltb angle 0 then angle + 180 else angle in
  let n := suppressionNeighbors mag w p.1 p.2 normalizedAngle in
  if Qleb n.1 (getQ mag idx) && Qleb n.2 (getQ mag idx)
  then <[ idx := getQ mag idx ]> result
  else result.

(** Steps 1 to 4 of [processDocument]: the magnitudes handed to
    [doubleThreshold]. *)
Definition thinEdges (M : MathLib) (imgData : ImageData) : list Q :=
  let w := width imgData in
  let h := height imgData in
  let g := sobelEdgeDetection M (gaussianBlur (toGrayscale imgData) w h) w h in
  nonMaxSuppression (magnitude g) (direction g) w h.

(** An 8x8 raster, grey 60 everywhere but for the pixel (2, 3), which is
    grey 30. *)
Definition darkSpeck : ImageData :=
  mkImageData 8 8
    (mjoin ((fun v => [v; v; v; 255%Z]) <$> <[ 26%nat := 30%Z ]> (replicate 64 60%Z))).

(** ** orderCorners with the sums the runtime computes *)

(** The result of an addition or a subtraction is rounded to binary64.
    [fl] is that rounding, left open: the corner orderer below is
    [orderCorners] with every sum and difference rounded, and it is
    [orderCorners] itself when [fl] rounds nothing. *)
Module Rounded.
Section Rounding.
Variable fl : Q -> Q.

Definition cornerSum (p : Point) : Q := fl (px p + py p).
Definition cornerDiff (p : Point) : Q := fl (px p - py p).

Definition orderCorners (corners : list Point) : list Point :=
  let sorted := sortBy (fun a b => fl (cornerSum a - cornerSum b)) corners in
  let topLeft := getP sorted 0 in
  let bottomRight := getP sorted 3 in
  let remaining :=
    sortBy (fun a b => fl (cornerDiff b - cornerDiff a)) [getP sorted 1; getP sorted 2] in
  let topRight := getP remaining 0 in
  let bottomLeft := getP remaining 1 in
  [topLeft; topRight; bottomRight; bottomLeft].

(** One corner has a computed [x + y] strictly larger than every other
    corner's. *)
Definition largestSumUnique (q : list Point) : Prop :=
  exists i, (i < length q)%nat /\
    forall j, (j < length q)%nat -> j <> i -> cornerSum (getP q j) < cornerSum (getP q i).

End Rounding.

(** The difference of two binary64 numbers, once rounded, has the sign of
    the exact difference: a difference that is not 0 does not round to 0.
    This is what the comparators of the two sorts rely on. *)
Definition signFaithful (fl : Q -> Q) : Prop :=
  forall u v, Qleb (fl (fl u - fl v)) 0 = Qleb (fl u - fl v) 0.

End Rounded.

(** Four corners whose two largest [x + y] differ by less than the rounding
    of the sums: (0,10), (10,0), (10,20) and (20, 10 + 2^-49). *)
Definition nearTie : list Point :=
  [mkPoint 0 10; mkPoint 10 0; mkPoint 10 20; mkPoint 20 (10 + (1 # 2 ^ 49))].

Definition nearTie64 : list Binary64.Point :=
  [Binary64.mkPoint 0 10; Binary64.mkPoint 10 0; Binary64.mkPoint 10 20;
   Binary64.mkPoint 20 (10 + 1 / Binary64.ofZ (2 ^ 49))].

Definition diamond64 : list Binary64.Point :=
  [Binary64.mkPoint 0 10; Binary64.mkPoint 10 0; Binary64.mkPoint 10 20;
   Binary64.mkPoint 20 10].

(** The corners of a sheet lying askew, with fractional coordinates. *)
Definition askewSheet : list Point :=
  [mkPoint (3801 # 10) (152 # 10); mkPoint (203 # 10) (2854 # 10);
   mkPoint (205 # 10) (156 # 10); mkPoint (3807 # 10) (2858 # 10)].

(** ** The promise of processDocument *)

(** [getImageData] and [createImageData] throw an [IndexSizeError] when
    either dimension of the rectangle asked for is 0. *)
Inductive DOMException := IndexSizeError.

(** What the [Image] element does with the data URL: it fires [load], the
    picture drawn on the canvas being the given raster, or it fires
    [error]. *)
Inductive ImageEvent :=
  | LoadEvent (canvas : ImageData)
  | ErrorEvent.

(** How the promise stands when the event has been handled.
    [new Promise((resolve) => ...)] takes no [reject], no [onerror] handler
    is installed, and an exception thrown inside [onload] is not caught: it
    is reported by the event loop and nothing settles the promise. *)
Inductive Settlement :=
  | Resolved (result : ProcessingResult)
  | Rejected (condition : string)
  | Pending (uncaught : option DOMException).

Definition getImageData (canvas : ImageData) : DOMException + ImageData :=
  if (width canvas =? 0)%nat || (height canvas =? 0)%nat then inl IndexSizeError
  else inr canvas.

Definition createImageData (w h : nat) : DOMException + ImageData :=
  if (w =? 0)%nat || (h =? 0)%nat then inl IndexSizeError
  else inr (mkImageData w h (replicate (w * h * 4) 0%Z)).

(** [processDocument] as its caller sees it.  The handler is
    [processDocument] above between the two calls that can throw:
    [getImageData] on the canvas of the picture, and [createImageData] at the
    start of [perspectiveTransform], on the output dimensions (which the
    resampled raster carries). *)
Definition processDocumentPromise (M : MathLib) (event : ImageEvent) : Settlement :=
  match event with
  | ErrorEvent => Pending None
  | LoadEvent canvas =>
      match getImageData canvas with
      | inl e => Pending (Some e)
      | inr imgData =>
          match processDocument M imgData with
          | None => Pending None
          | Some result =>
              match createImageData (width (processedImage result))
                                    (height (processedImage result)) with
              | inl e => Pending (Some e)
              | inr _ => Resolved result
              end
          end
      end
  end.

(** [Math.hypot] is no smaller than the size of either argument. *)
Definition hypotDominates (M : MathLib) : Prop :=
  forall a b, Qabs a <= Math_hypot M a b /\ Qabs b <= Math_hypot M a b.

(** A point with natural coordinates, as the pixels of a contour are. *)
Definition latticePoint (p : Point) : Prop :=
  exists x y : nat, p = mkPoint (Qnat x) (Qnat y).

(** Two points at least half a pixel apart along an axis. *)
Definition apart (p q : Point) : Prop :=
  1 # 2 <= Qabs (px p - px q) \/ 1 # 2 <= Qabs (py p - py q).

(** One of the two horizontal sides and one of the two vertical sides of the
    ordered corners join points that are apart. *)
Definition cornersApart (corners : list Point) : Prop :=
  let c := getP corners in
  (apart (c 1%nat) (c 0%nat) \/ apart (c 2%nat) (c 3%nat))
  /\ (apart (c 3%nat) (c 0%nat) \/ apart (c 2%nat) (c 1%nat)).

(** What the loop over the contours keeps, as far as the output size goes:
    nothing yet, or a 4-gon of lattice points that encloses some area. *)
Definition bestLattice (best : list Point * Q) : Prop :=
  best.1 = [] \/ (length best.1 = 4%nat /\ 0 < shoelace best.1 /\ Forall latticePoint best.1).

(** * Properties *)

(** ** Loops *)

Lemma for_range_empty {St : Type} (lo hi : nat) (body : nat -> St -> St) (s : St) :
  (hi <= lo)%nat -> for_range lo hi body s = s.
Proof.
  intros Hle. unfold for_range.
  replace (hi - lo)%nat with 0%nat by lia. reflexivity.
Qed.

Lemma for_range_snoc {St : Type} (lo hi : nat) (body : nat -> St -> St) (s : St) :
  (lo <= hi)%nat ->
  for_range lo (S hi) body s = body hi (for_range lo hi body s).
Proof.
  intros Hle. unfold for_range.
  replace (S hi - lo)%nat with (S (hi - lo)) by lia.
  rewrite seq_S, foldl_app. simpl.
  replace (lo + (hi - lo))%nat with hi by lia. reflexivity.
Qed.

(** Invariant rule: [P i st] holds when the loop is about to run its body at
    [i]. *)
Lemma for_range_ind {St : Type} (P : nat -> St -> Prop) (lo hi : nat)
    (body : nat -> St -> St) (s : St) :
  (lo <= hi)%nat ->
  P lo s ->
  (forall i st, (lo <= i < hi)%nat -> P i st -> P (S i) (body i st)) ->
  P hi (for_range lo hi body s).
Proof.
  intros Hle H0 Hstep. induction hi as [|hi IH].
  - assert (lo = 0%nat) by lia. subst. rewrite for_range_empty by lia. exact H0.
  - destruct (decide (lo = S hi)) as [->|Hne].
    + rewrite for_range_empty by lia. exact H0.
    + rewrite for_range_snoc by lia. apply Hstep; [lia|].
      apply IH; [lia|]. intros i st Hi. apply Hstep. lia.
Qed.

Lemma rasterScan_foldl {St : Type} (w h : nat) (body : nat -> nat -> St -> St) (s : St) :
  rasterScan w h body s = foldl (fun st p => body p.1 p.2 st) s (interiorPositions w h).
Proof.
  unfold rasterScan, interiorPositions, for_range.
  generalize (seq 1 (h - 1 - 1)) as ys. intros ys. revert s.
  induction ys as [|y ys IH]; intros s; [reflexivity|].
  simpl. rewrite foldl_app, <- IH. f_equal.
  generalize (seq 1 (w - 1 - 1)) as xs. intros xs. revert s.
  induction xs as [|x xs IHx]; intros s; [reflexivity|].
  simpl. apply IHx.
Qed.

(** A scan whose step at [p] rewrites at most the cell [key p]. *)
Section LocalScan.
Context {Pos A : Type} (key : Pos -> nat) (step : Pos -> list A -> list A).
Hypothesis step_other : forall p s j, j <> key p -> step p s !! j = s !! j.

Lemma foldl_local_other (ps : list Pos) (s : list A) (j : nat) :
  (forall p, p ∈ ps -> key p <> j) ->
  foldl (fun st p => step p st) s ps !! j = s !! j.
Proof using step_other.
  revert s. induction ps as [|p ps IH]; intros s Hk; [reflexivity|].
  simpl. rewrite IH.
  - apply step_other. intros ->. apply (Hk p); [left|reflexivity].
  - intros q Hq. apply Hk. now right.
Qed.

Lemma foldl_local_split (ps1 ps2 : list Pos) (p : Pos) (s : list A) :
  (forall q, q ∈ ps2 -> key q <> key p) ->
  foldl (fun st q => step q st) s (ps1 ++ p :: ps2) !! key p
  = step p (foldl (fun st q => step q st) s ps1) !! key p.
Proof using step_other.
  intros Hk. rewrite foldl_app. simpl. now apply foldl_local_other.
Qed.
End LocalScan.

(** ** The order of the raster scan *)

Definition indexLt (w : nat) (p q : nat * nat) : Prop :=
  (pixelIndex w p < pixelIndex w q)%nat.

Lemma elem_of_interiorPositions (w h x y : nat) :
  (x, y) ∈ interiorPositions w h <-> interior w h x y.
Proof.
  unfold interiorPositions, interior. rewrite list_elem_of_bind. split.
  - intros (y' & Hx & Hy). apply list_elem_of_bind in Hx as (x' & Hp & Hx).
    apply list_elem_of_singleton in Hp. injection Hp as -> ->.
    apply elem_of_seq in Hx, Hy. lia.
  - intros [Hx Hy]. exists y. split; [|apply elem_of_seq; lia].
    apply list_elem_of_bind. exists x. split; [now apply list_elem_of_singleton|].
    apply elem_of_seq. lia.
Qed.

Lemma row_sorted (w y a n : nat) :
  StronglySorted (indexLt w) (x ← seq a n; [(x, y)]).
Proof.
  revert a. induction n as [|n IH]; intros a; [constructor|].
  simpl. constructor; [apply IH|].
  apply Forall_forall. intros [x' y'] Hin.
  apply list_elem_of_bind in Hin as (x & Hp & Hx).
  apply list_elem_of_singleton in Hp. injection Hp as -> ->.
  apply elem_of_seq in Hx. unfold indexLt, pixelIndex. simpl. lia.
Qed.

Lemma rows_sorted (w m b n : nat) :
  (m + 1 <= w)%nat ->
  StronglySorted (indexLt w) (y ← seq b n; x ← seq 1 m; [(x, y)]).
Proof.
  intros Hm. revert b. induction n as [|n IH]; intros b; [constructor|].
  cbn [seq]. rewrite bind_cons. apply StronglySorted_app_2; [|apply row_sorted|apply IH].
  intros [x1 y1] [x2 y2] H1 H2.
  apply list_elem_of_bind in H1 as (x & Hp & Hx).
  apply list_elem_of_singleton in Hp. injection Hp as -> ->.
  apply list_elem_of_bind in H2 as (y & Hq & Hy).
  apply list_elem_of_bind in Hq as (x' & Hp & Hx').
  apply list_elem_of_singleton in Hp. injection Hp as -> ->.
  apply elem_of_seq in Hx, Hx', Hy. unfold indexLt, pixelIndex. simpl. nia.
Qed.

Lemma interiorPositions_sorted (w h : nat) :
  StronglySorted (indexLt w) (interiorPositions w h).
Proof.
  destruct (decide (w <= 1)%nat) as [Hw|Hw].
  - unfold interiorPositions. replace (w - 1 - 1)%nat with 0%nat by lia.
    generalize (seq 1 (h - 1 - 1)). intros l. induction l as [|y l IHl].
    + constructor.
    + rewrite bind_cons. exact IHl.
  - apply rows_sorted. lia.
Qed.

(** Splitting the scan at a pixel: what comes before has a smaller index,
    what comes after a larger one. *)
Lemma interiorPositions_split (w h : nat) (ps1 ps2 : list (nat * nat)) (p : nat * nat) :
  interiorPositions w h = ps1 ++ p :: ps2 ->
  (forall q, q ∈ ps1 -> indexLt w q p) /\ (forall q, q ∈ ps2 -> indexLt w p q).
Proof.
  intros Heq. pose proof (interiorPositions_sorted w h) as Hs. rewrite Heq in Hs.
  split.
  - intros q Hq. eapply StronglySorted_app_1_elem_of; [exact Hs|exact Hq|left].
  - intros q Hq. apply StronglySorted_app_1_r in Hs.
    apply StronglySorted_cons in Hs as [Hall _].
    rewrite Forall_forall in Hall. now apply Hall.
Qed.

Lemma pixelIndex_inj (w x y x' y' : nat) :
  (x < w)%nat -> (x' < w)%nat ->
  pixelIndex w (x, y) = pixelIndex w (x', y') -> x = x' /\ y = y'.
Proof.
  unfold pixelIndex. simpl. intros Hx Hx' Heq.
  assert (y = y') as ->.
  { destruct (Nat.lt_trichotomy y y') as [Hlt|[E|Hlt]]; [|exact E|].
    - assert (S y * w <= y' * w)%nat by (apply Nat.mul_le_mono_r; lia). lia.
    - assert (S y' * w <= y * w)%nat by (apply Nat.mul_le_mono_r; lia). lia. }
  split; [lia|reflexivity].
Qed.

Lemma pixelIndex_bound (w h x y : nat) :
  (x < w)%nat -> (y < h)%nat -> (pixelIndex w (x, y) < w * h)%nat.
Proof.
  unfold pixelIndex. simpl. intros Hx Hy.
  assert (S y * w <= h * w)%nat by (apply Nat.mul_le_mono_r; lia). lia.
Qed.

Lemma interiorb_spec (w h x y : nat) : interiorb w h x y = true <-> interior w h x y.
Proof.
  unfold interiorb, interior.
  rewrite !andb_true_iff, !Nat.leb_le, !Nat.ltb_lt. lia.
Qed.

(** A scan that stores, at each interior pixel, a value that does not depend
    on the buffer being filled: this is the shape of the blur loop. *)
Lemma rasterScan_fill {A : Type} (w h : nat) (f : nat -> nat -> A) (init : list A)
    (x y : nat) :
  length init = (w * h)%nat -> (x < w)%nat -> (y < h)%nat ->
  rasterScan w h (fun x y st => <[ (y * w + x)%nat := f x y ]> st) init !! (y * w + x)%nat
  = if interiorb w h x y then Some (f x y) else init !! (y * w + x)%nat.
Proof.
  intros Hlen Hx Hy. rewrite rasterScan_foldl.
  set (step := fun (p : nat * nat) (st : list A) => <[ (p.2 * w + p.1)%nat := f p.1 p.2 ]> st).
  change (foldl (fun st p => step p st) init (interiorPositions w h) !! pixelIndex w (x, y)
          = if interiorb w h x y then Some (f x y) else init !! pixelIndex w (x, y)).
  assert (Hother : forall p s j, j <> pixelIndex w p -> step p s !! j = s !! j).
  { intros p s j Hj. unfold step. apply list_lookup_insert_ne. intros E. apply Hj.
    rewrite <- E. reflexivity. }
  assert (Hlength : forall ps s, length (foldl (fun st p => step p st) s ps) = length s).
  { induction ps as [|p ps IH]; intros s; [reflexivity|]. simpl. rewrite IH.
    unfold step. apply length_insert. }
  destruct (interiorb w h x y) eqn:Hb.
  - apply interiorb_spec in Hb as Hin.
    apply elem_of_interiorPositions in Hin as Hmem.
    apply list_elem_of_split in Hmem as (ps1 & ps2 & Hsplit).
    destruct (interiorPositions_split _ _ _ _ _ Hsplit) as [_ Hafter].
    rewrite Hsplit, (foldl_local_split (pixelIndex w) step Hother).
    + unfold step at 1. simpl. apply list_lookup_insert_eq.
      rewrite Hlength, Hlen. apply (pixelIndex_bound w h x y Hx Hy).
    + intros q Hq E. specialize (Hafter q Hq). unfold indexLt in Hafter. lia.
  - apply (foldl_local_other (pixelIndex w) step Hother).
    intros [x' y'] Hp E. apply elem_of_interiorPositions in Hp as Hp'.
    apply pixelIndex_inj in E as [-> ->]; [|destruct Hp' as [Hx' _]; lia|exact Hx].
    apply interiorb_spec in Hp'. congruence.
Qed.

(** ** Stores into a clamped byte buffer *)

Lemma Qleb_comp (a a' b b' : Q) : a == a' -> b == b' -> Qleb a b = Qleb a' b'.
Proof.
  intros Ha Hb. unfold Qleb.
  destruct (Qle_bool a b) eqn:E1, (Qle_bool a' b') eqn:E2; try reflexivity.
  - apply Qle_bool_iff in E1. rewrite Ha, Hb in E1. apply Qle_bool_iff in E1. congruence.
  - apply Qle_bool_iff in E2. rewrite <- Ha, <- Hb in E2. apply Qle_bool_iff in E2. congruence.
Qed.

Lemma Qltb_comp (a a' b b' : Q) : a == a' -> b == b' -> Qltb a b = Qltb a' b'.
Proof. intros Ha Hb. unfold Qltb. f_equal. now apply Qleb_comp. Qed.

Lemma Qleb_le (a b : Q) : Qleb a b = true <-> a <= b.
Proof. apply Qle_bool_iff. Qed.

Lemma Qltb_lt (a b : Q) : Qltb a b = true <-> a < b.
Proof.
  unfold Qltb. destruct (Qle_bool b a) eqn:E; simpl.
  - apply Qle_bool_iff in E. split; [discriminate|]. intros H. lra.
  - split; [|reflexivity]. intros _.
    destruct (Qlt_le_dec a b) as [H|H]; [exact H|].
    apply Qle_bool_iff in H. congruence.
Qed.

Lemma Qleb_nle (a b : Q) : Qleb a b = false <-> b < a.
Proof.
  rewrite <- Qltb_lt. unfold Qltb, Qleb. destruct (Qle_bool a b); simpl; split; congruence.
Qed.

Lemma Qltb_nlt (a b : Q) : Qltb a b = false <-> b <= a.
Proof.
  rewrite <- Qleb_le. unfold Qltb, Qleb. destruct (Qle_bool b a); simpl; split; congruence.
Qed.

Lemma roundHalfEven_comp (a b : Q) : a == b -> roundHalfEven a = roundHalfEven b.
Proof.
  intros E. unfold roundHalfEven. rewrite (Qfloor_comp _ _ E).
  rewrite (Qltb_comp (a - inject_Z (Qfloor b)) (b - inject_Z (Qfloor b)) (1 # 2) (1 # 2))
    by (rewrite ?E; reflexivity).
  rewrite (Qltb_comp (1 # 2) (1 # 2) (a - inject_Z (Qfloor b)) (b - inject_Z (Qfloor b)))
    by (rewrite ?E; reflexivity).
  reflexivity.
Qed.

Lemma toUint8Clamp_comp (a b : Q) : a == b -> toUint8Clamp a = toUint8Clamp b.
Proof.
  intros E. unfold toUint8Clamp.
  rewrite (Qleb_comp a b 0 0 E) by reflexivity.
  rewrite (Qleb_comp 255 255 a b) by (reflexivity || exact E).
  now rewrite (roundHalfEven_comp a b E).
Qed.

Lemma roundHalfEven_range (q : Q) :
  0 <= q -> q <= 255 -> (0 <= roundHalfEven q <= 255)%Z.
Proof.
  intros H0 H255. unfold roundHalfEven.
  pose proof (Qfloor_le q) as Hf. pose proof (Qlt_floor q) as Hc.
  assert (0 <= Qfloor q)%Z as Hlo.
  { rewrite <- (Qfloor_Z 0). now apply Qfloor_resp_le. }
  assert (Qfloor q <= 255)%Z as Hhi.
  { rewrite <- (Qfloor_Z 255). now apply Qfloor_resp_le. }
  destruct (Z.eq_dec (Qfloor q) 255%Z) as [E|NE].
  - rewrite E in *.
    assert (Qltb (q - inject_Z 255) (1 # 2) = true) as ->; [|lia].
    apply Qltb_lt. change (inject_Z 255) with 255 in *. lra.
  - destruct (Qltb _ _); [lia|]. destruct (Qltb _ _); [lia|]. destruct (Z.even _); lia.
Qed.

Lemma toUint8Clamp_range (q : Q) : (0 <= toUint8Clamp q <= 255)%Z.
Proof.
  unfold toUint8Clamp. destruct (Qleb q 0) eqn:E0; [lia|].
  destruct (Qleb 255 q) eqn:E1; [lia|].
  apply Qleb_nle in E0, E1. apply roundHalfEven_range; lra.
Qed.

(** ** gaussianBlur *)

Lemma blurSum_kernelResponse (d : list Z) (w x y : nat) :
  (1 <= x)%nat -> (1 <= y)%nat -> blurSum d w x y == kernelResponse d w x y.
Proof.
  intros Hx Hy. unfold blurSum, kernelResponse, pixelAt, for_range. simpl.
  replace (y + 0 - 1)%nat with (y - 1)%nat by lia.
  replace (y + 1 - 1)%nat with y by lia.
  replace (y + 2 - 1)%nat with (y + 1)%nat by lia.
  replace (x + 0 - 1)%nat with (x - 1)%nat by lia.
  replace (x + 1 - 1)%nat with x by lia.
  replace (x + 2 - 1)%nat with (x + 1)%nat by lia.
  unfold kernelAt. simpl. ring.
Qed.

(** C5 (as the code has it): in a buffer of [w * h] pixels the blur leaves
    every border pixel at 0, the value the fresh result buffer starts with,
    whatever the input holds there; an interior pixel receives the 3x3 sum
    weighted by [[1,2,1],[2,4,2],[1,2,1]], divided by 16 and stored as a
    clamped byte. *)
Theorem gaussianBlur_pixels (d : list Z) (w h x y : nat) :
  length d = (w * h)%nat -> (x < w)%nat -> (y < h)%nat ->
  gaussianBlur d w h !! (y * w + x)%nat
  = Some (if interiorb w h x y
          then toUint8Clamp (kernelResponse d w x y / 16)
          else 0%Z).
Proof.
  intros Hlen Hx Hy. unfold gaussianBlur.
  rewrite (rasterScan_fill w h (fun x y => toUint8Clamp (blurSum d w x y / kernelSum)))
    by (rewrite ?length_replicate; assumption).
  destruct (interiorb w h x y) eqn:Hb.
  - apply interiorb_spec in Hb as [Hix Hiy]. f_equal. apply toUint8Clamp_comp.
    rewrite blurSum_kernelResponse by lia. reflexivity.
  - apply lookup_replicate_2. rewrite Hlen. apply (pixelIndex_bound w h x y Hx Hy).
Qed.

Lemma gaussianBlur_pixels_witness :
  gaussianBlur [10; 20; 30; 40; 50; 60; 70; 80; 90; 1; 2; 3]%Z 4 3 !! (1 * 4 + 1)%nat
  = Some (if interiorb 4 3 1 1
          then toUint8Clamp
                 (kernelResponse [10; 20; 30; 40; 50; 60; 70; 80; 90; 1; 2; 3]%Z 4 1 1 / 16)
          else 0%Z).
Proof.
  apply (gaussianBlur_pixels [10; 20; 30; 40; 50; 60; 70; 80; 90; 1; 2; 3]%Z 4 3 1 1);
    [reflexivity | lia | lia].
Defined.

(** C5 (as stated) fails: on the 3x3 buffer that holds 100 everywhere the
    blur returns 0 on the whole border, so the border is not passed through. *)
Lemma gaussianBlur_border_counterexample :
  gaussianBlur (replicate 9 100%Z) 3 3 = [0; 0; 0; 0; 100; 0; 0; 0; 0]%Z
  /\ ~ borderPassedThrough (replicate 9 100%Z) 3 3.
Proof.
  split; [reflexivity|].
  intros Hpass. specialize (Hpass 0%nat 0%nat). 
  assert (Hc : gaussianBlur (replicate 9 100%Z) 3 3 !! (0 * 3 + 0)%nat
               = replicate 9 100%Z !! (0 * 3 + 0)%nat) by (apply Hpass; [lia|lia|reflexivity]).
  vm_compute in Hc. discriminate Hc.
Qed.

(** ** orderCorners *)

Lemma getP_0 (p : Point) (l : list Point) : getP (p :: l) 0 = p.
Proof. reflexivity. Qed.

Lemma getP_S (p : Point) (l : list Point) (n : nat) : getP (p :: l) (S n) = getP l n.
Proof. reflexivity. Qed.

Ltac norm_sort :=
  cbn [insertSorted foldr] in *;
  repeat (rewrite getP_0 in * || rewrite getP_S in * ).

(** Case split on the next comparison of a sort, dropping the branches the
    comparisons made so far rule out. *)
Ltac split_cmp :=
  match goal with
  | |- context [Qleb ?a ?b] =>
      let E := fresh "E" in
      destruct (Qleb a b) eqn:E;
      [apply Qleb_le in E | apply Qleb_nle in E];
      norm_sort;
      try (exfalso; lra)
  end.

(** ** Buffer lengths along the edge pipeline *)

Lemma rasterScan_invariant {St : Type} (P : St -> Prop) (w h : nat)
    (body : nat -> nat -> St -> St) (s : St) :
  P s -> (forall x y st, P st -> P (body x y st)) -> P (rasterScan w h body s).
Proof.
  intros H0 Hstep. rewrite rasterScan_foldl.
  generalize (interiorPositions w h). intros ps. revert s H0.
  induction ps as [|p ps IH]; intros s H0; [exact H0|].
  simpl. apply IH. now apply Hstep.
Qed.

Lemma for_range_invariant {St : Type} (P : St -> Prop) (lo hi : nat)
    (body : nat -> St -> St) (s : St) :
  P s -> (forall i st, P st -> P (body i st)) -> P (for_range lo hi body s).
Proof.
  intros H0 Hstep. unfold for_range.
  generalize (seq lo (hi - lo)). intros l. revert s H0.
  induction l as [|i l IH]; intros s H0; [exact H0|].
  simpl. apply IH. now apply Hstep.
Qed.

Lemma length_toGrayscale (img : ImageData) :
  length (toGrayscale img) = (width img * height img)%nat.
Proof.
  unfold toGrayscale. apply for_range_invariant.
  - apply length_replicate.
  - intros i st Hst. now rewrite length_insert.
Qed.

Lemma length_gaussianBlur (d : list Z) (w h : nat) :
  length (gaussianBlur d w h) = length d.
Proof.
  unfold gaussianBlur. apply rasterScan_invariant.
  - apply length_replicate.
  - intros x y st Hst. now rewrite length_insert.
Qed.

Lemma length_sobelEdgeDetection (M : MathLib) (d : list Z) (w h : nat) :
  length (magnitude (sobelEdgeDetection M d w h)) = length d
  /\ length (direction (sobelEdgeDetection M d w h)) = length d.
Proof.
  unfold sobelEdgeDetection.
  apply (rasterScan_invariant
           (fun st => length (magnitude st) = length d /\ length (direction st) = length d)).
  - simpl. now rewrite !length_replicate.
  - intros x y st [Hm Hd]. simpl. now rewrite !length_insert.
Qed.

Lemma length_nonMaxSuppression (mag dir : list Q) (w h : nat) :
  length (nonMaxSuppression mag dir w h) = length mag.
Proof.
  unfold nonMaxSuppression. apply rasterScan_invariant.
  - apply length_replicate.
  - intros x y st Hst. destruct (_ && _); [now rewrite length_insert|exact Hst].
Qed.

Lemma length_applyThresholds (edges : list Q) (hi lo : Q) :
  length (applyThresholds edges hi lo) = length edges.
Proof.
  unfold applyThresholds. apply for_range_invariant.
  - apply length_replicate.
  - intros i st Hst. destruct (Qleb hi _); [now rewrite length_insert|].
    destruct (Qleb lo _); [now rewrite length_insert|exact Hst].
Qed.

Lemma length_hysteresis (w h : nat) (result : list Z) :
  length (hysteresis w h result) = length result.
Proof.
  unfold hysteresis. apply rasterScan_invariant; [reflexivity|].
  intros x y st Hst. destruct (bool_decide _); [now rewrite length_insert|exact Hst].
Qed.

Lemma length_doubleThreshold (edges : list Q) (w h : nat) :
  length (doubleThreshold edges w h) = length edges.
Proof.
  unfold doubleThreshold. now rewrite length_hysteresis, length_applyThresholds.
Qed.

(** ** findContours always comes back *)


Lemma unmarked_le (visited : list Z) : (unmarked visited <= length visited)%nat.
Proof. apply length_filter. Qed.

Lemma unmarked_mark (visited : list Z) (i : nat) :
  visited !! i = Some 0%Z ->
  S (unmarked (<[ i := 1%Z ]> visited)) = unmarked visited.
Proof.
  unfold unmarked. revert i. induction visited as [|v visited IH]; intros i Hi.
  - discriminate Hi.
  - destruct i as [|i]; simpl in *.
    + injection Hi as ->. rewrite (filter_cons_True _ 0%Z) by reflexivity.
      rewrite (filter_cons_False _ 1%Z) by discriminate. reflexivity.
    + destruct (decide (v = 0%Z)) as [->|Hv].
      * rewrite !filter_cons_True by reflexivity. simpl. f_equal. now apply IH.
      * rewrite !filter_cons_False by assumption. now apply IH.
Qed.

Lemma traceLoop_returns (edges : list Z) (w h : nat) (fuel : nat) :
  forall visited stack contour,
    length visited = (w * h)%nat ->
    (length stack + 8 * unmarked visited <= fuel)%nat ->
    exists visited' contour',
      traceLoop fuel edges w h visited stack contour = Some (visited', contour')
      /\ length visited' = length visited.
Proof.
  induction fuel as [|fuel IH]; intros visited stack contour Hlen Hfuel.
  - destruct stack as [|[x y] stack]; [|simpl in Hfuel; lia].
    simpl. eauto.
  - destruct stack as [|[x y] stack]; [simpl; eauto|].
    cbn [traceLoop]. simpl in Hfuel.
    destruct (_ || _ || _ || _)%bool eqn:Hout.
    + apply IH; [exact Hlen|lia].
    + destruct (truthy _ || bool_decide _) eqn:Hskip.
      * apply IH; [exact Hlen|lia].
      * apply orb_false_iff in Hskip as [Hv _].
        rewrite !orb_false_iff in Hout. destruct Hout as [[[Hx0 Hxw] Hy0] Hyh].
        apply Z.ltb_ge in Hx0, Hy0. rewrite Z.geb_leb in Hxw, Hyh.
        apply Z.leb_gt in Hxw, Hyh.
        set (idx := Z.to_nat (y * Z.of_nat w + x)) in *.
        assert (idx < length visited)%nat as Hidx.
        { rewrite Hlen. unfold idx. nia. }
        destruct (lookup_lt_is_Some_2 visited idx Hidx) as [v Hlook].
        rewrite Hlook in Hv. simpl in Hv. apply negb_false_iff, Z.eqb_eq in Hv. subst v.
        pose proof (unmarked_mark visited idx Hlook) as Hmark.
        destruct (IH (<[ idx := 1%Z ]> visited)
                    (rev (map (fun d => ((x + d.1)%Z, (y + d.2)%Z)) directions) ++ stack)
                    (contour ++ [mkPoint (inject_Z x) (inject_Z y)]))
          as (v' & c' & Heq & Hl').
        { now rewrite length_insert. }
        { rewrite length_app, length_rev, length_map. simpl. lia. }
        exists v', c'. split; [exact Heq|]. now rewrite Hl', length_insert.
Qed.

Lemma traceContour_returns (edges : list Z) (w h : nat) (visited : list Z) (x y : nat) :
  length visited = (w * h)%nat ->
  exists visited' contour',
    traceContour edges w h visited x y = Some (visited', contour')
    /\ length visited' = length visited.
Proof.
  intros Hlen. unfold traceContour. apply traceLoop_returns; [exact Hlen|].
  unfold traceFuel. pose proof (unmarked_le visited). simpl. lia.
Qed.

Lemma findContours_returns (edges : list Z) (w h : nat) :
  length edges = (w * h)%nat ->
  exists contours, findContours edges w h = Some contours.
Proof.
  intros Hlen. unfold findContours.
  set (P := fun st : option (list Z * list (list Point)) =>
              exists visited contours, st = Some (visited, contours)
                                       /\ length visited = (w * h)%nat).
  match goal with
  | |- exists _, snd <$> ?t = _ => assert (HP : P t); [|destruct t as [[v c]|]]
  end.
  - apply for_range_invariant.
    + exists (replicate (length edges) 0%Z), []. split; [reflexivity|].
      now rewrite length_replicate.
    + intros y st Hst. apply for_range_invariant; [exact Hst|].
      intros x st' (visited & contours & -> & Hv). simpl.
      destruct (_ && _).
      * destruct (traceContour_returns edges w h visited x y Hv) as (v' & c' & -> & Hl').
        simpl. eexists _, _. split; [reflexivity|]. now rewrite Hl'.
      * eexists _, _. split; [reflexivity|exact Hv].
  - simpl. eauto.
  - destruct HP as (? & ? & HP & _). discriminate HP.
Qed.

(** ** approximatePolygon always comes back *)

Lemma farthest_spec (M : MathLib) (hull : list Point) (start end_ : nat) :
  farthest M hull start end_ = (0, start)
  \/ (start < (farthest M hull start end_).2 < end_)%nat.
Proof.
  unfold farthest.
  destruct (decide (start + 1 <= end_)%nat) as [Hle|Hgt].
  - apply (for_range_ind (fun i (m : Q * nat) =>
                            m = (0, start) \/ (start < m.2 < i)%nat)); [exact Hle|now left|].
    intros i m Hi Hm. simpl. destruct (Qltb _ _).
    + right. simpl. lia.
    + destruct Hm as [->|Hm]; [now left|right; lia].
  - left. apply for_range_empty. lia.
Qed.

Lemma douglasPeucker_returns (M : MathLib) (hull : list Point) (threshold : Q) :
  0 <= threshold ->
  forall fuel start end_ result,
    (1 <= fuel)%nat -> (end_ - start <= fuel)%nat ->
    exists r, douglasPeucker fuel M hull threshold start end_ result = Some r.
Proof.
  intros Hthr. induction fuel as [|fuel IH]; intros start end_ result Hpos Hfuel; [lia|].
  cbn [douglasPeucker].
  destruct (farthest_spec M hull start end_) as [Hm|Hm].
  - rewrite Hm. simpl.
    assert (Qltb threshold 0 = false) as -> by (apply Qltb_nlt; exact Hthr).
    eauto.
  - destruct (Qltb threshold _); [|eauto].
    destruct (IH start (farthest M hull start end_).2 result) as [r1 Hr1]; [lia|lia|].
    rewrite Hr1. simpl. apply IH; lia.
Qed.

Lemma totalLength_nonneg (M : MathLib) (hull : list Point) :
  hypotNonneg M -> 0 <= totalLength M hull.
Proof.
  intros HM. unfold totalLength. apply for_range_invariant; [lra|].
  intros i sum Hsum. simpl. specialize (HM (px (getP hull ((i + 1) mod length hull)) - px (getP hull i))
    (py (getP hull ((i + 1) mod length hull)) - py (getP hull i))). lra.
Qed.

Lemma approximatePolygon_returns (M : MathLib) (hull : list Point) (epsilon : Q) :
  hypotNonneg M -> 0 <= epsilon ->
  exists polygon, approximatePolygon M hull epsilon = Some polygon.
Proof.
  intros HM Heps. unfold approximatePolygon. destruct (_ <? _)%nat; [eauto|].
  destruct (douglasPeucker_returns M hull (epsilon * totalLength M hull)) with
    (fuel := S (length hull)) (start := 0%nat) (end_ := length hull) (result := @nil nat)
    as [r Hr].
  - pose proof (totalLength_nonneg M hull HM). nra.
  - lia.
  - lia.
  - rewrite Hr. simpl. eauto.
Qed.

(** ** findBestQuadrilateral *)


Lemma considerPolygon_invariant (polygon : list Point) (w h : nat) (best : list Point * Q) :
  bestInvariant best -> bestInvariant (considerPolygon polygon w h best).
Proof.
  intros Hb. unfold considerPolygon.
  destruct (length polygon =? 4)%nat eqn:Hlen; [|exact Hb].
  destruct (xdiv _ _) as [r| | |]; try exact Hb.
  destruct (Qltb 0.1 r && Qltb r 0.95) eqn:Hr; [|exact Hb].
  destruct (Qltb best.2 (r * 100)); [|exact Hb].
  apply andb_true_iff in Hr as [H1 H2]. apply Qltb_lt in H1, H2.
  right. simpl. apply Nat.eqb_eq in Hlen. split; [exact Hlen|]. lra.
Qed.

Lemma considerPolygon_not_qualifying (polygon : list Point) (w h : nat) (best : list Point * Q) :
  qualifying polygon w h = false -> considerPolygon polygon w h best = best.
Proof.
  unfold qualifying, considerPolygon. intros Hq.
  destruct (length polygon =? 4)%nat; [|reflexivity]. simpl in Hq.
  destruct (xdiv _ _) as [r| | |]; try reflexivity. now rewrite Hq.
Qed.


Lemma bestOfContours_returns (M : MathLib) (contours : list (list Point)) (w h : nat)
    (best : list Point * Q) :
  hypotNonneg M -> bestInvariant best ->
  exists best', bestOfContours M contours w h (Some best) = Some best'
                /\ bestInvariant best'
                /\ (noneQualifies M contours w h -> best' = best).
Proof.
  intros HM. revert best. induction contours as [|contour contours IH]; intros best Hb.
  - exists best. split; [reflexivity|]. split; [exact Hb|reflexivity].
  - unfold bestOfContours. cbn [foldl]. simpl.
    destruct (approximatePolygon_returns M (convexHull M contour).2 0.02 HM) as [polygon Hp];
      [lra|].
    rewrite Hp. simpl.
    destruct (IH (considerPolygon polygon w h best)) as (best' & Heq & Hinv & Hnone).
    { now apply considerPolygon_invariant. }
    exists best'. split; [exact Heq|]. split; [exact Hinv|].
    intros Hnq. rewrite Hnone.
    + apply considerPolygon_not_qualifying. apply (Hnq contour polygon); [left|exact Hp].
    + intros c p Hc. apply Hnq. now right.
Qed.

Lemma Math_min_30_95 : Math_min 30 95 = 30.
Proof. reflexivity. Qed.

Lemma selectBest_confidence (w h : nat) (best : list Point * Q) :
  bestInvariant best ->
  0 <= (selectBest w h best).2 /\ (selectBest w h best).2 <= 95.
Proof.
  intros [->|(Hlen & Hlo & Hhi)].
  - simpl. rewrite Math_min_30_95. lra.
  - unfold selectBest. rewrite Hlen. simpl. unfold Math_min.
    destruct (Qltb 95 best.2); lra.
Qed.

Lemma selectBest_fallback (w h : nat) :
  selectBest w h ([], 0) = (orderCorners (fallbackQuad w h), 30).
Proof. reflexivity. Qed.

Lemma findBestQuadrilateral_returns (M : MathLib) (contours : list (list Point)) (w h : nat) :
  hypotNonneg M ->
  exists best, findBestQuadrilateral M contours w h = Some best
               /\ 0 <= best.2 /\ best.2 <= 95
               /\ length best.1 = 4%nat
               /\ (noneQualifies M contours w h ->
                   best = (orderCorners (fallbackQuad w h), 30)).
Proof.
  intros HM. unfold findBestQuadrilateral.
  destruct (bestOfContours_returns M contours w h ([], 0) HM) as (best & Heq & Hinv & Hnone);
    [now left|].
  unfold bestOfContours in Heq. rewrite Heq. simpl.
  exists (selectBest w h best). split; [reflexivity|].
  destruct (selectBest_confidence w h best Hinv) as [Hlo Hhi].
  split; [exact Hlo|]. split; [exact Hhi|]. split; [reflexivity|].
  intros Hnq. rewrite (Hnone Hnq). apply selectBest_fallback.
Qed.

(** ** processDocument always comes back *)

Lemma length_edgeMask (M : MathLib) (img : ImageData) :
  length (edgeMask M img) = (width img * height img)%nat.
Proof.
  unfold edgeMask. rewrite length_doubleThreshold, length_nonMaxSuppression.
  destruct (length_sobelEdgeDetection M (gaussianBlur (toGrayscale img) (width img) (height img))
              (width img) (height img)) as [-> _].
  now rewrite length_gaussianBlur, length_toGrayscale.
Qed.

Lemma processDocument_returns (M : MathLib) (img : ImageData) :
  hypotNonneg M ->
  exists contours r,
    findContours (edgeMask M img) (width img) (height img) = Some contours
    /\ processDocument M img = Some r
    /\ findBestQuadrilateral M contours (width img) (height img)
       = Some (corners r, confidence r)
    /\ warning r = (if Qltb (confidence r) 50 then Some lowConfidenceWarning else None).
Proof.
  intros HM.
  destruct (findContours_returns (edgeMask M img) (width img) (height img)
              (length_edgeMask M img)) as [contours Hc].
  destruct (findBestQuadrilateral_returns M contours (width img) (height img) HM)
    as ([quad conf] & Hb & _).
  exists contours. unfold processDocument. fold (edgeMask M img).
  rewrite Hc. simpl. rewrite Hb. simpl.
  eexists. split; [reflexivity|]. split; [reflexivity|]. simpl. split; reflexivity.
Qed.

(** ** The sample Math object *)

Lemma sampleSqrt_nonneg (q : Q) : 0 <= sampleSqrt q.
Proof.
  unfold sampleSqrt. destruct (Qleb q 0); [lra|].
  unfold Qle. simpl. rewrite Z.mul_1_r. apply Z.sqrt_nonneg.
Qed.

Lemma sampleMath_hypotNonneg : hypotNonneg sampleMath.
Proof. intros a b. apply sampleSqrt_nonneg. Qed.

(** ** Confidence and warning *)

(** C2: whatever the raster, [processDocument] returns a result whose
    confidence lies in [0, 95], and the warning is present exactly when the
    confidence is below 50. *)
Theorem processDocument_confidence (M : MathLib) (img : ImageData) :
  hypotNonneg M ->
  exists r, processDocument M img = Some r
            /\ 0 <= confidence r /\ confidence r <= 95
            /\ (is_Some (warning r) <-> confidence r < 50).
Proof.
  intros HM.
  destruct (processDocument_returns M img HM) as (contours & r & _ & Hr & Hbest & Hwarn).
  destruct (findBestQuadrilateral_returns M contours (width img) (height img) HM)
    as (best & Hb & Hlo & Hhi & _).
  rewrite Hb in Hbest. injection Hbest as ->. simpl in Hlo, Hhi.
  exists r. split; [exact Hr|]. split; [exact Hlo|]. split; [exact Hhi|].
  rewrite Hwarn. destruct (Qltb (confidence r) 50) eqn:E.
  - apply Qltb_lt in E. split; [intros _; exact E|intros _; eauto].
  - apply Qltb_nlt in E. split; [intros [? Hx]; discriminate Hx|intros Hlt; lra].
Qed.

Lemma processDocument_confidence_witness :
  exists r, processDocument sampleMath (uniformRaster 4 4 200 200 200 255) = Some r
            /\ 0 <= confidence r /\ confidence r <= 95
            /\ (is_Some (warning r) <-> confidence r < 50).
Proof.
  apply (processDocument_confidence sampleMath (uniformRaster 4 4 200 200 200 255)
           sampleMath_hypotNonneg).
Defined.

(** ** convexHull and the caller's array *)

Lemma getP_lookup (points : list Point) (i : nat) (p : Point) :
  points !! i = Some p -> getP points i = p.
Proof. unfold getP. now intros ->. Qed.

Lemma lowestIndex_spec (points : list Point) :
  (0 < length points)%nat ->
  (lowestIndex points < length points)%nat
  /\ forall j, (j < length points)%nat ->
       lowestFirst (getP points (lowestIndex points)) (getP points j).
Proof.
  intros Hpos. unfold lowestIndex.
  apply (for_range_ind (fun i lowest =>
           (lowest < length points)%nat
           /\ forall j, (j < i)%nat -> lowestFirst (getP points lowest) (getP points j))
         1 (length points)); [lia| |].
  - split; [exact Hpos|]. intros j Hj. assert (j = 0%nat) as -> by lia.
    right. split; [reflexivity|lra].
  - intros i lowest Hi [Hlt Hmin].
    destruct (Qltb (py (getP points i)) (py (getP points lowest))
              || Qeqb (py (getP points i)) (py (getP points lowest))
                 && Qltb (px (getP points i)) (px (getP points lowest))) eqn:E.
    + split; [lia|]. intros j Hj.
      assert (lowestFirst (getP points i) (getP points lowest)) as Hil.
      { apply orb_true_iff in E as [E|E].
        - left. now apply Qltb_lt.
        - apply andb_true_iff in E as [E1 E2]. apply Qeq_bool_iff in E1.
          apply Qltb_lt in E2. right. split; [exact E1|lra]. }
      destruct (decide (j = i)) as [->|Hne].
      * right. split; [reflexivity|lra].
      * specialize (Hmin j ltac:(lia)). unfold lowestFirst in *.
        destruct Hil as [Hil|[Hil1 Hil2]], Hmin as [Hmin|[Hm1 Hm2]].
        -- left. lra.
        -- left. lra.
        -- left. lra.
        -- right. split; [lra|lra].
    + split; [exact Hlt|]. intros j Hj.
      destruct (decide (j = i)) as [->|Hne]; [|apply Hmin; lia].
      apply orb_false_iff in E as [E1 E2]. apply Qltb_nlt in E1.
      destruct (Qle_lt_or_eq _ _ E1) as [Hlt'|Heq]; [now left|].
      right. split; [exact Heq|].
      apply andb_false_iff in E2 as [E2|E2].
      * exfalso. assert (Qeqb (py (getP points i)) (py (getP points lowest)) = true) as E3.
        { apply Qeq_bool_iff. symmetry. exact Heq. }
        congruence.
      * now apply Qltb_nlt in E2.
Qed.

Lemma swapFirst_Permutation (points : list Point) (lowest : nat) :
  (lowest < length points)%nat -> swapFirst points lowest ≡ₚ points.
Proof.
  intros Hlt. unfold swapFirst.
  destruct points as [|p0 rest]; [simpl in Hlt; lia|].
  destruct lowest as [|k].
  - simpl. reflexivity.
  - simpl in Hlt. assert (k < length rest)%nat as Hk by lia.
    destruct (lookup_lt_is_Some_2 rest k Hk) as [pl Hpl].
    rewrite getP_0. unfold getP at 1. simpl. rewrite Hpl. simpl.
    rewrite insert_take_drop by exact Hk.
    rewrite <- (take_drop_middle rest k pl Hpl) at 3.
    rewrite <- !Permutation_middle. apply perm_swap.
Qed.

Lemma swapFirst_head (points : list Point) (lowest : nat) :
  (lowest < length points)%nat ->
  getP (swapFirst points lowest) 0 = getP points lowest.
Proof.
  intros Hlt. unfold swapFirst.
  destruct points as [|p0 rest]; [simpl in Hlt; lia|].
  destruct lowest as [|k]; reflexivity.
Qed.

Lemma elem_of_getP (points : list Point) (p : Point) :
  p ∈ points -> exists j, (j < length points)%nat /\ getP points j = p.
Proof.
  intros Hin. apply list_elem_of_lookup in Hin as [j Hj].
  exists j. split; [now apply lookup_lt_Some in Hj|now apply getP_lookup].
Qed.

(** C10: with fewer than 3 points [convexHull] hands back the array it was
    given, untouched.  With 3 points or more the caller's array holds, on
    return, its entries at index 0 and at the index of the lowest point
    exchanged: the same points as before (as a multiset), and at index 0 a
    point with the lowest [y], the lowest [x] among those. *)
Theorem convexHull_in_place (M : MathLib) (points : list Point) :
  ((length points < 3)%nat -> convexHull M points = (points, points))
  /\ ((3 <= length points)%nat ->
      (convexHull M points).1 = swapFirst points (lowestIndex points)
      /\ (convexHull M points).1 ≡ₚ points
      /\ getP (convexHull M points).1 0 = getP points (lowestIndex points)
      /\ getP (convexHull M points).1 (lowestIndex points) = getP points 0
      /\ forall p, p ∈ points -> lowestFirst (getP (convexHull M points).1 0) p).
Proof.
  split; intros Hlen; unfold convexHull.
  - apply Nat.ltb_lt in Hlen. now rewrite Hlen.
  - assert ((length points <? 3)%nat = false) as -> by (apply Nat.ltb_ge; exact Hlen).
    cbn [fst].
    destruct (lowestIndex_spec points ltac:(lia)) as [Hlow Hmin].
    split; [reflexivity|]. split; [now apply swapFirst_Permutation|].
    split; [now apply swapFirst_head|]. split.
    + unfold swapFirst. apply getP_lookup. apply list_lookup_insert_eq.
      rewrite length_insert. exact Hlow.
    + intros p Hp. rewrite swapFirst_head by exact Hlow.
      destruct (elem_of_getP points p Hp) as (j & Hj & <-). now apply Hmin.
Qed.

(** ** perspectiveTransform, pixel by pixel *)

Lemma neighborhood_inside (src : ImageData) (s : xnum * xnum) (x0 y0 : Z) :
  neighborhood src s = Some (x0, y0) ->
  exists srcX srcY,
    s = (Fin srcX, Fin srcY) /\ x0 = Math_floor srcX /\ y0 = Math_floor srcY
    /\ (0 <= x0 /\ x0 + 1 < Z.of_nat (width src)
        /\ 0 <= y0 /\ y0 + 1 < Z.of_nat (height src))%Z.
Proof.
  unfold neighborhood. destruct s as [[sx| | |] [sy| | |]]; try discriminate.
  destruct (_ && _ && _ && _)%bool eqn:E; [|discriminate].
  intros Heq. injection Heq as <- <-.
  rewrite !andb_true_iff in E. destruct E as [[[E1 E2] E3] E4].
  apply Z.leb_le in E1, E3. apply Z.ltb_lt in E2, E4.
  exists sx, sy. repeat split; assumption.
Qed.

Lemma xdiv_zero (a b : Q) : b == 0 -> forall q, xdiv a b <> Fin q.
Proof.
  intros Hb q. unfold xdiv.
  assert (Qeqb b 0 = true) as -> by (apply Qeq_bool_iff; exact Hb).
  destruct (Qltb 0 a); [discriminate|]. destruct (Qltb a 0); discriminate.
Qed.

Lemma neighborhood_zero_divisor (src : ImageData) (H : list Q) (x y : nat) :
  projectiveDivisor H x y == 0 ->
  neighborhood src (sourceCoordinates H x y) = None.
Proof.
  intros Hw. unfold sourceCoordinates. fold (projectiveDivisor H x y).
  pose proof (xdiv_zero (getQ H 0 * Qnat x + getQ H 1 * Qnat y + getQ H 2) _ Hw) as Hx.
  unfold neighborhood.
  destruct (xdiv (getQ H 0 * Qnat x + getQ H 1 * Qnat y + getQ H 2) (projectiveDivisor H x y));
    try reflexivity.
  exfalso. now apply (Hx q).
Qed.

Lemma readChannel_inside (src : ImageData) (idx : Z) :
  (0 <= idx < Z.of_nat (length (data src)))%Z ->
  readChannel src idx = Some (inject_Z (getZ (data src) (Z.to_nat idx))).
Proof.
  intros [H0 H1]. unfold readChannel.
  assert ((idx <? 0)%Z = false) as -> by (apply Z.ltb_ge; exact H0).
  destruct (lookup_lt_is_Some_2 (data src) (Z.to_nat idx) ltac:(lia)) as [v Hv].
  unfold getZ. rewrite Hv. reflexivity.
Qed.

Lemma sampleIndices_inside (src : ImageData) (x0 y0 : Z) (c : nat) :
  wellFormed src ->
  (0 <= x0 /\ x0 + 1 < Z.of_nat (width src)
   /\ 0 <= y0 /\ y0 + 1 < Z.of_nat (height src))%Z ->
  (c < 4)%nat ->
  Forall (fun idx => (0 <= idx < Z.of_nat (length (data src)))%Z) (sampleIndices src x0 y0 c).
Proof.
  intros Hwf (Hx0 & Hx1 & Hy0 & Hy1) Hc. unfold wellFormed in Hwf. rewrite Hwf.
  rewrite !Nat2Z.inj_mul. change (Z.of_nat 4) with 4%Z.
  set (W := Z.of_nat (width src)) in *. set (Hh := Z.of_nat (height src)) in *.
  assert ((y0 + 1) * W + (x0 + 1) <= W * Hh - 1)%Z as Hmax.
  { assert ((y0 + 1) * W <= (Hh - 1) * W)%Z by (apply Z.mul_le_mono_nonneg_r; lia). lia. }
  assert (0 <= y0 * W)%Z as Hyw by (apply Z.mul_nonneg_nonneg; lia).
  unfold sampleIndices. fold W.
  repeat constructor; lia.
Qed.

Lemma bilinear_inside (src : ImageData) (srcX srcY : Q) (x0 y0 : Z) (c : nat) :
  Forall (fun idx => (0 <= idx < Z.of_nat (length (data src)))%Z) (sampleIndices src x0 y0 c) ->
  is_Some (bilinear src srcX srcY x0 y0 c).
Proof.
  unfold sampleIndices. intros Hall.
  apply Forall_cons in Hall as [H00 Hall]. apply Forall_cons in Hall as [H01 Hall].
  apply Forall_cons in Hall as [H10 Hall]. apply Forall_cons in Hall as [H11 _].
  unfold bilinear.
  rewrite (readChannel_inside src _ H00), (readChannel_inside src _ H01),
          (readChannel_inside src _ H10), (readChannel_inside src _ H11).
  simpl. eauto.
Qed.

Lemma channelIndex_inj (ow x y c x' y' c' : nat) :
  (x < ow)%nat -> (x' < ow)%nat -> (c < 4)%nat -> (c' < 4)%nat ->
  ((y * ow + x) * 4 + c = (y' * ow + x') * 4 + c')%nat ->
  x = x' /\ y = y' /\ c = c'.
Proof.
  intros Hx Hx' Hc Hc' Heq.
  assert (y * ow + x = y' * ow + x')%nat as Hp by lia.
  destruct (pixelIndex_inj ow x y x' y' Hx Hx' Hp) as [-> ->]. lia.
Qed.

Lemma channelIndex_bound (ow oh x y c : nat) :
  (x < ow)%nat -> (y < oh)%nat -> (c < 4)%nat ->
  ((y * ow + x) * 4 + c < ow * oh * 4)%nat.
Proof.
  intros Hx Hy Hc. pose proof (pixelIndex_bound ow oh x y Hx Hy) as Hb.
  unfold pixelIndex in Hb. simpl in Hb. lia.
Qed.

(** One destination pixel: its four channels receive [resampledByte], every
    other cell keeps its value. *)
Lemma resamplePixel_lookup (src : ImageData) (H : list Q) (ow x y : nat)
    (out : list Z) (j : nat) :
  (j < length out)%nat ->
  (((y * ow + x) * 4 <= j < (y * ow + x) * 4 + 4)%nat -> out !! j = Some 0%Z) ->
  resamplePixel src H ow x y out !! j
  = if bool_decide ((y * ow + x) * 4 <= j < (y * ow + x) * 4 + 4)%nat
    then Some (resampledByte src (sourceCoordinates H x y) (j - (y * ow + x) * 4))
    else out !! j.
Proof.
  intros Hj Hzero. unfold resamplePixel, resampledByte.
  set (base := ((y * ow + x) * 4)%nat) in *.
  destruct (bool_decide_reflect (base <= j < base + 4)%nat) as [Hin|Hno].
  - specialize (Hzero Hin).
    destruct (sourceCoordinates H x y) as [[sx| | |] [sy| | |]] eqn:Hs;
      try exact Hzero;
      try (destruct (neighborhood src _) as [[? ?]|]; exact Hzero).
    destruct (neighborhood src (Fin sx, Fin sy)) as [[x0 y0]|]; [|exact Hzero].
    unfold for_range. cbn [seq foldl Nat.sub].
    assert (j = base + 0 \/ j = base + 1 \/ j = base + 2 \/ j = base + 3)%nat
      as [-> | [-> | [-> | ->]]] by lia.
    + rewrite !list_lookup_insert_ne by lia. replace (base + 0 - base)%nat with 0%nat by lia.
      apply list_lookup_insert_eq. exact Hj.
    + rewrite !list_lookup_insert_ne by lia. replace (base + 1 - base)%nat with 1%nat by lia.
      apply list_lookup_insert_eq. now rewrite !length_insert.
    + rewrite !list_lookup_insert_ne by lia. replace (base + 2 - base)%nat with 2%nat by lia.
      apply list_lookup_insert_eq. now rewrite !length_insert.
    + replace (base + 3 - base)%nat with 3%nat by lia.
      apply list_lookup_insert_eq. now rewrite !length_insert.
  - destruct (sourceCoordinates H x y) as [[sx| | |] [sy| | |]]; try reflexivity;
      try (destruct (neighborhood src _) as [[? ?]|]; reflexivity).
    destruct (neighborhood src (Fin sx, Fin sy)) as [[x0 y0]|]; [|reflexivity].
    unfold for_range. cbn [seq foldl Nat.sub].
    rewrite !list_lookup_insert_ne by lia. reflexivity.
Qed.

Lemma length_resamplePixel (src : ImageData) (H : list Q) (ow x y : nat) (out : list Z) :
  length (resamplePixel src H ow x y out) = length out.
Proof.
  unfold resamplePixel.
  destruct (sourceCoordinates H x y) as [[sx| | |] [sy| | |]]; try reflexivity;
    try (destruct (neighborhood src _) as [[? ?]|]; reflexivity).
  destruct (neighborhood src (Fin sx, Fin sy)) as [[x0 y0]|]; [|reflexivity].
  apply for_range_invariant; [reflexivity|]. intros c o Ho. now rewrite length_insert.
Qed.

(** The pixels the two loops of [perspectiveTransform] have already written
    when they reach [(x0, y0)]. *)
Lemma resample_rows (src : ImageData) (H : list Q) (ow oh : nat) :
  let out := for_range 0 oh (fun y o =>
               for_range 0 ow (fun x o => resamplePixel src H ow x y o) o)
               (replicate (ow * oh * 4) 0%Z) in
  forall x y c, (x < ow)%nat -> (y < oh)%nat -> (c < 4)%nat ->
    out !! ((y * ow + x) * 4 + c)%nat
    = Some (resampledByte src (sourceCoordinates H x y) c).
Proof.
  set (before := fun (y0 x0 x y : nat) => ((y <? y0) || ((y =? y0) && (x <? x0)))%nat).
  set (Inv := fun (y0 x0 : nat) (o : list Z) =>
    length o = (ow * oh * 4)%nat
    /\ forall x y c, (x < ow)%nat -> (y < oh)%nat -> (c < 4)%nat ->
         o !! ((y * ow + x) * 4 + c)%nat
         = Some (if before y0 x0 x y
                 then resampledByte src (sourceCoordinates H x y) c else 0%Z)).
  assert (Hrow : forall y0 o, (y0 < oh)%nat -> Inv y0 0%nat o ->
            Inv (S y0) 0%nat (for_range 0 ow (fun x o => resamplePixel src H ow x y0 o) o)).
  { intros y0 o Hy0 Ho.
    assert (Inv y0 ow (for_range 0 ow (fun x o => resamplePixel src H ow x y0 o) o)) as Hend.
    { apply (for_range_ind (fun x0 o => Inv y0 x0 o)); [lia|exact Ho|].
      intros x0 o' Hx0 [Hlen Hcells]. split; [now rewrite length_resamplePixel|].
      intros x y c Hx Hy Hc.
      rewrite resamplePixel_lookup.
      - destruct (bool_decide_reflect
                    ((y0 * ow + x0) * 4 <= (y * ow + x) * 4 + c < (y0 * ow + x0) * 4 + 4)%nat)
          as [Hin|Hno].
        + assert (y * ow + x = y0 * ow + x0)%nat as Hp by lia.
          destruct (pixelIndex_inj ow x y x0 y0 Hx ltac:(lia) Hp) as [-> ->].
          replace ((y0 * ow + x0) * 4 + c - (y0 * ow + x0) * 4)%nat with c by lia.
          unfold before. rewrite Nat.eqb_refl.
          assert ((x0 <? S x0)%nat = true) as -> by (apply Nat.ltb_lt; lia).
          now rewrite orb_true_r.
        + rewrite (Hcells x y c Hx Hy Hc). f_equal. unfold before.
          destruct (y <? y0)%nat; [reflexivity|]. simpl.
          destruct (y =? y0)%nat eqn:Ey; [|reflexivity]. simpl.
          apply Nat.eqb_eq in Ey. subst y.
          assert (x <> x0) by (intros ->; apply Hno; lia).
          destruct (x <? x0)%nat eqn:E1, (x <? S x0)%nat eqn:E2; try reflexivity;
            [apply Nat.ltb_lt in E1; apply Nat.ltb_ge in E2
            |apply Nat.ltb_ge in E1; apply Nat.ltb_lt in E2]; lia.
      - rewrite Hlen. now apply channelIndex_bound.
      - intros Hin.
        assert (y * ow + x = y0 * ow + x0)%nat as Hp by lia.
        destruct (pixelIndex_inj ow x y x0 y0 Hx ltac:(lia) Hp) as [-> ->].
        rewrite (Hcells x0 y0 c Hx Hy Hc). f_equal. unfold before.
        rewrite !Nat.ltb_irrefl, Nat.eqb_refl. reflexivity. }
    destruct Hend as [Hlen Hcells]. split; [exact Hlen|].
    intros x y c Hx Hy Hc. rewrite (Hcells x y c Hx Hy Hc). f_equal. unfold before.
    assert ((x <? ow)%nat = true) as -> by (apply Nat.ltb_lt; exact Hx).
    assert ((x <? 0)%nat = false) as -> by reflexivity.
    rewrite andb_true_r, andb_false_r, orb_false_r.
    destruct (y <? y0)%nat eqn:E1, (y =? y0)%nat eqn:E2, (y <? S y0)%nat eqn:E3;
      try reflexivity; exfalso;
      rewrite ?Nat.ltb_lt, ?Nat.ltb_ge, ?Nat.eqb_eq, ?Nat.eqb_neq in *; lia. }
  intros out x y c Hx Hy Hc.
  assert (Inv oh 0%nat out) as [_ Hcells].
  { apply (for_range_ind (fun y0 o => Inv y0 0%nat o)); [lia| |].
    - split; [apply length_replicate|].
      intros x' y' c' Hx' Hy' Hc'. unfold before.
      change (x' <? 0)%nat with false. change (y' <? 0)%nat with false.
      rewrite andb_false_r. cbn [orb].
      apply lookup_replicate_2. now apply channelIndex_bound.
    - intros y0 o Hy0 Ho. apply Hrow; [lia|exact Ho]. }
  rewrite (Hcells x y c Hx Hy Hc). f_equal. unfold before.
  assert ((y <? oh)%nat = true) as -> by (apply Nat.ltb_lt; exact Hy). reflexivity.
Qed.

(** ** doubleThreshold: the hysteresis pass *)


Lemma hysteresis_foldl (w h : nat) (result : list Z) :
  hysteresis w h result
  = foldl (fun st p => hysteresisStep w p st) result (interiorPositions w h).
Proof. unfold hysteresis. now rewrite rasterScan_foldl. Qed.

Lemma hysteresisStep_other (w : nat) (p : nat * nat) (s : list Z) (j : nat) :
  j <> pixelIndex w p -> hysteresisStep w p s !! j = s !! j.
Proof.
  intros Hj. unfold hysteresisStep. destruct (bool_decide _); [|reflexivity].
  apply list_lookup_insert_ne. intros E. apply Hj. now rewrite <- E.
Qed.

Lemma hysteresisStep_at (w : nat) (p : nat * nat) (s : list Z) :
  hysteresisStep w p s !! pixelIndex w p
  = if bool_decide (s !! pixelIndex w p = Some 128%Z)
    then Some (if hasStrongNeighbor s w p.1 p.2 then 255%Z else 0%Z)
    else s !! pixelIndex w p.
Proof.
  unfold hysteresisStep, pixelIndex.
  destruct (bool_decide_reflect (s !! (p.2 * w + p.1)%nat = Some 128%Z)) as [E|E];
    [|reflexivity].
  apply list_lookup_insert_eq. now apply lookup_lt_Some in E.
Qed.

Lemma length_hysteresis_prefix (w : nat) (ps : list (nat * nat)) (s : list Z) :
  length (foldl (fun st p => hysteresisStep w p st) s ps) = length s.
Proof.
  revert s. induction ps as [|p ps IH]; intros s; [reflexivity|].
  simpl. rewrite IH. unfold hysteresisStep.
  destruct (bool_decide _); [apply length_insert|reflexivity].
Qed.

(** A cell outside the interior is never written. *)
Lemma hysteresis_border (w h : nat) (thr : list Z) (x y : nat) :
  (x < w)%nat -> interiorb w h x y = false ->
  hysteresis w h thr !! (y * w + x)%nat = thr !! (y * w + x)%nat.
Proof.
  intros Hx Hb. rewrite hysteresis_foldl.
  apply (foldl_local_other (pixelIndex w) (hysteresisStep w) (hysteresisStep_other w)).
  intros [x' y'] Hp E. apply elem_of_interiorPositions in Hp as Hp'.
  apply (pixelIndex_inj w x' y' x y) in E as [-> ->]; [|destruct Hp'; lia|exact Hx].
  apply interiorb_spec in Hp'. congruence.
Qed.

(** The state of the pass when it reaches an interior pixel. *)
Lemma hysteresis_visit (w h : nat) (thr : list Z) (x y : nat) :
  interior w h x y ->
  exists s,
    s = atVisit (hysteresis w h thr) thr (y * w + x)
    /\ hysteresis w h thr !! (y * w + x)%nat
       = if bool_decide (thr !! (y * w + x)%nat = Some 128%Z)
         then Some (if hasStrongNeighbor s w x y then 255%Z else 0%Z)
         else thr !! (y * w + x)%nat.
Proof.
  intros Hin. apply elem_of_interiorPositions in Hin as Hmem.
  apply list_elem_of_split in Hmem as (ps1 & ps2 & Hsplit).
  destruct (interiorPositions_split _ _ _ _ _ Hsplit) as [Hbefore Hafter].
  set (k := (y * w + x)%nat).
  set (S1 := foldl (fun st p => hysteresisStep w p st) thr ps1).
  pose proof (hysteresisStep_other w) as Hother.
  assert (Hout : hysteresis w h thr
                 = foldl (fun st p => hysteresisStep w p st) S1 ((x, y) :: ps2)).
  { rewrite hysteresis_foldl, Hsplit, foldl_app. reflexivity. }
  assert (HS1k : S1 !! k = thr !! k).
  { apply (foldl_local_other (pixelIndex w) (hysteresisStep w) Hother).
    intros q Hq E. specialize (Hbefore q Hq). unfold indexLt, pixelIndex in *.
    simpl in Hbefore. unfold k in E. lia. }
  assert (HS1 : S1 = atVisit (hysteresis w h thr) thr k).
  { apply list_eq. intros j. unfold atVisit.
    destruct (decide (j < k)%nat) as [Hlt|Hge].
    - destruct (decide (j < length thr)%nat) as [Hj|Hj].
      + rewrite lookup_app_l by (rewrite length_take, length_hysteresis; lia).
        rewrite lookup_take_lt by exact Hlt. rewrite Hout. symmetry.
        apply (foldl_local_other (pixelIndex w) (hysteresisStep w) Hother).
        intros q Hq E. apply elem_of_cons in Hq as [->|Hq].
        * unfold pixelIndex in E. simpl in E. unfold k in Hlt. lia.
        * specialize (Hafter q Hq). unfold indexLt, pixelIndex in *. simpl in Hafter.
          unfold k in Hlt. lia.
      + rewrite (lookup_ge_None_2 S1) by (unfold S1; rewrite length_hysteresis_prefix; lia).
        symmetry. apply lookup_ge_None_2.
        rewrite length_app, length_take, length_drop, length_hysteresis. lia.
    - destruct (decide (k <= length thr)%nat) as [Hk|Hk].
      + rewrite lookup_app_r by (rewrite length_take, length_hysteresis; lia).
        rewrite length_take, length_hysteresis, lookup_drop.
        replace (k + (j - k `min` length thr))%nat with j by lia.
        apply (foldl_local_other (pixelIndex w) (hysteresisStep w) Hother).
        intros q Hq E. specialize (Hbefore q Hq). unfold indexLt, pixelIndex in *.
        simpl in Hbefore. unfold k in Hge. lia.
      + rewrite (lookup_ge_None_2 S1) by (unfold S1; rewrite length_hysteresis_prefix; lia).
        symmetry. apply lookup_ge_None_2.
        rewrite length_app, length_take, length_drop, length_hysteresis. lia. }
  exists S1. split; [exact HS1|].
  rewrite hysteresis_foldl, Hsplit.
  change k with (pixelIndex w (x, y)).
  rewrite (foldl_local_split (pixelIndex w) (hysteresisStep w) Hother).
  - fold S1. rewrite (hysteresisStep_at w (x, y) S1).
    change (pixelIndex w (x, y)) with k. rewrite HS1k. reflexivity.
  - intros q Hq E. specialize (Hafter q Hq). unfold indexLt in Hafter. lia.
Qed.

Lemma hasStrongNeighbor_spec (s : list Z) (w x y : nat) :
  (1 <= x)%nat -> (1 <= y)%nat ->
  hasStrongNeighbor s w x y = true
  <-> (s !! (y * w + x)%nat = Some 255%Z
       \/ exists j, j ∈ neighborIndices w x y /\ s !! j = Some 255%Z).
Proof.
  intros Hx Hy. unfold hasStrongNeighbor, neighborIndices. cbn [seq existsb].
  replace (y + 0 - 1)%nat with (y - 1)%nat by lia.
  replace (y + 1 - 1)%nat with y by lia.
  replace (y + 2 - 1)%nat with (y + 1)%nat by lia.
  replace (x + 0 - 1)%nat with (x - 1)%nat by lia.
  replace (x + 1 - 1)%nat with x by lia.
  replace (x + 2 - 1)%nat with (x + 1)%nat by lia.
  rewrite !orb_false_r, !orb_true_iff, !bool_decide_eq_true.
  split.
  - intros [[H|[H|H]]|[[H|[H|H]]|[H|[H|H]]]];
      try (left; exact H);
      match type of H with
      | _ !! ?j = _ => right; exists j; split; [rewrite !elem_of_cons; tauto|exact H]
      end.
  - intros [H|(j & Hj & H)]; [tauto|].
    rewrite !elem_of_cons in Hj. rewrite elem_of_nil in Hj.
    destruct Hj as [->|[->|[->|[->|[->|[->|[->|[->|[]]]]]]]]]; tauto.
Qed.

Lemma hysteresisStep_strong (w : nat) (p : nat * nat) (s : list Z) (j : nat) :
  s !! j = Some 255%Z -> hysteresisStep w p s !! j = Some 255%Z.
Proof.
  intros Hj. unfold hysteresisStep.
  destruct (bool_decide_reflect (s !! (p.2 * w + p.1)%nat = Some 128%Z)) as [E|E];
    [|exact Hj].
  rewrite list_lookup_insert_ne; [exact Hj|]. intros E'. subst j. congruence.
Qed.

Lemma hysteresis_strong (w h : nat) (thr : list Z) (j : nat) :
  thr !! j = Some 255%Z -> hysteresis w h thr !! j = Some 255%Z.
Proof.
  rewrite hysteresis_foldl. generalize (interiorPositions w h). intros ps. revert thr.
  induction ps as [|p ps IH]; intros thr Hj; [exact Hj|].
  simpl. apply IH. now apply hysteresisStep_strong.
Qed.

Lemma atVisit_lookup (out thr : list Z) (k j : nat) :
  length out = length thr ->
  atVisit out thr k !! j = if (j <? k)%nat then out !! j else thr !! j.
Proof.
  intros Hlen. unfold atVisit. destruct (j <? k)%nat eqn:E.
  - apply Nat.ltb_lt in E. destruct (decide (j < length out)%nat) as [Hj|Hj].
    + rewrite lookup_app_l by (rewrite length_take; lia). now apply lookup_take_lt.
    + rewrite (lookup_ge_None_2 out) by lia. apply lookup_ge_None_2.
      rewrite length_app, length_take, length_drop. lia.
  - apply Nat.ltb_ge in E. destruct (decide (k <= length out)%nat) as [Hk|Hk].
    + rewrite lookup_app_r by (rewrite length_take; lia).
      rewrite length_take, lookup_drop. f_equal. lia.
    + rewrite (lookup_ge_None_2 thr) by lia. apply lookup_ge_None_2.
      rewrite length_app, length_take, length_drop. lia.
Qed.

Lemma applyThresholds_values (edges : list Q) (hi lo : Q) :
  Forall maskValue (applyThresholds edges hi lo).
Proof.
  unfold applyThresholds. apply for_range_invariant.
  - apply Forall_replicate. now left.
  - intros i st Hst. destruct (Qleb hi _).
    + apply Forall_insert; [exact Hst|]. right. now right.
    + destruct (Qleb lo _); [|exact Hst].
      apply Forall_insert; [exact Hst|]. right. now left.
Qed.

Lemma hysteresis_values (w h : nat) (thr : list Z) :
  Forall maskValue thr -> Forall maskValue (hysteresis w h thr).
Proof.
  intros Hthr. unfold hysteresis. apply rasterScan_invariant; [exact Hthr|].
  intros x y st Hst. destruct (bool_decide _); [|exact Hst].
  apply Forall_insert; [exact Hst|].
  destruct (hasStrongNeighbor _ _ _ _); [right; now right|now left].
Qed.

(** ** The fallback rectangle *)

Lemma Qnat_pos (n : nat) : (1 <= n)%nat -> 1 <= Qnat n.
Proof.
  intros Hn. unfold Qnat. change 1 with (inject_Z 1). rewrite <- Zle_Qle. lia.
Qed.

Lemma Math_min_spec (a b : Q) : Math_min a b <= a /\ Math_min a b <= b
                                /\ (Math_min a b = a \/ Math_min a b = b).
Proof.
  unfold Math_min. destruct (Qltb b a) eqn:E.
  - apply Qltb_lt in E. repeat split; try lra. now right.
  - apply Qltb_nlt in E. repeat split; try lra. now left.
Qed.

Lemma orderCorners_fallbackQuad (w h : nat) :
  (1 <= w)%nat -> (1 <= h)%nat -> orderCorners (fallbackQuad w h) = fallbackQuad w h.
Proof.
  intros Hw Hh. apply Qnat_pos in Hw, Hh. unfold fallbackQuad.
  destruct (Math_min_spec (Qnat w) (Qnat h)) as (H1 & H2 & H3).
  assert (1 <= Math_min (Qnat w) (Qnat h)) as H4 by (destruct H3 as [-> | ->]; assumption).
  set (m := Math_min (Qnat w) (Qnat h) * 0.05) in *.
  assert (0 < m /\ 2 * m < Qnat w /\ 2 * m < Qnat h) as (Hm0 & Hmw & Hmh).
  { unfold m. repeat split; lra. }
  clearbody m. clear H1 H2 H3 H4.
  unfold orderCorners, sortBy. norm_sort. cbn [px py] in *.
  repeat (split_cmp; cbn [px py] in *; try (exfalso; lra)); reflexivity.
Qed.

(** C1 (as the code has it): when no contour yields a qualifying
    quadrilateral, as when there is no contour at all, the selector returns
    the rectangle inset by [0.05 * min(width, height)] on all four sides,
    in the order top-left, top-right, bottom-right, bottom-left, with
    confidence exactly 30, a confidence below the warning threshold. *)
Theorem fallback_selection (M : MathLib) (contours : list (list Point)) (w h : nat) :
  hypotNonneg M -> (1 <= w)%nat -> (1 <= h)%nat ->
  noneQualifies M contours w h ->
  let margin := Math_min (Qnat w) (Qnat h) * 0.05 in
  findBestQuadrilateral M contours w h
  = Some ([ mkPoint margin margin;
            mkPoint (Qnat w - margin) margin;
            mkPoint (Qnat w - margin) (Qnat h - margin);
            mkPoint margin (Qnat h - margin) ], 30)
  /\ Qltb 30 50 = true.
Proof.
  intros HM Hw Hh Hnone margin. split; [|reflexivity].
  destruct (findBestQuadrilateral_returns M contours w h HM) as (best & Hb & _ & _ & _ & Hfall).
  rewrite Hb, (Hfall Hnone), (orderCorners_fallbackQuad w h Hw Hh). reflexivity.
Qed.

Lemma noneQualifies_nil (M : MathLib) (w h : nat) : noneQualifies M [] w h.
Proof. intros contour polygon Hin. now apply elem_of_nil in Hin. Qed.

Lemma fallback_selection_witness :
  let margin := Math_min (Qnat 400) (Qnat 300) * 0.05 in
  (findBestQuadrilateral sampleMath [] 400 300
   = Some ([ mkPoint margin margin;
             mkPoint (Qnat 400 - margin) margin;
             mkPoint (Qnat 400 - margin) (Qnat 300 - margin);
             mkPoint margin (Qnat 300 - margin) ], 30)
   /\ Qltb 30 50 = true)
  /\ margin == 15 /\ Qnat 400 - margin == 385 /\ Qnat 300 - margin == 285.
Proof.
  split; [|repeat split; reflexivity].
  apply (fallback_selection sampleMath [] 400 300 sampleMath_hypotNonneg);
    [lia|lia|apply noneQualifies_nil].
Defined.

(** C1 (as stated) fails.  The edge mask of an all-black 8x8 raster is 255
    everywhere, not 0: with a maximum magnitude of 0 both thresholds are 0
    and every pixel passes [>=].  Its single contour gives the rectangle
    (0,0)-(7,7), which qualifies: the confidence is 76.5625, not 30, and
    there is no warning.  And the fallback of a 400x300 raster starts at
    (15, 15), not at (20, 15). *)
Lemma uniform_raster_counterexample :
  edgeMask sampleMath (uniformRaster 8 8 0 0 0 255) = replicate 64 255%Z
  /\ (Qred <$> (confidence <$> processDocument sampleMath (uniformRaster 8 8 0 0 0 255)))
     = Some (1225 # 16)
  /\ (warning <$> processDocument sampleMath (uniformRaster 8 8 0 0 0 255)) = Some None
  /\ (corners <$> processDocument sampleMath (uniformRaster 8 8 0 0 0 255))
     = Some [mkPoint 0 0; mkPoint 7 0; mkPoint 7 7; mkPoint 0 7]
  /\ Qred (px (getP (orderCorners (fallbackQuad 400 300)) 0)) = 15.
Proof.
  split; [vm_compute; reflexivity|]. split; [vm_compute; reflexivity|].
  split; [vm_compute; reflexivity|]. split; [vm_compute; reflexivity|].
  vm_compute; reflexivity.
Qed.

(** ** Sums of rationals *)

Lemma Qsum_ext (f g : nat -> Q) (l : list nat) :
  (forall j, j ∈ l -> f j == g j) -> Qsum f l == Qsum g l.
Proof.
  induction l as [|a l IH]; intros Hfg; [reflexivity|].
  simpl. rewrite (Hfg a) by left. rewrite IH; [reflexivity|].
  intros j Hj. apply Hfg. now right.
Qed.

Lemma Qsum_app (f : nat -> Q) (l1 l2 : list nat) :
  Qsum f (l1 ++ l2) == Qsum f l1 + Qsum f l2.
Proof.
  induction l1 as [|a l1 IH]; simpl; [ring|]. rewrite IH. ring.
Qed.

Lemma Qsum_zero (f : nat -> Q) (l : list nat) :
  (forall j, j ∈ l -> f j == 0) -> Qsum f l == 0.
Proof.
  induction l as [|a l IH]; intros Hf; [reflexivity|].
  simpl. rewrite (Hf a) by left. rewrite IH; [ring|].
  intros j Hj. apply Hf. now right.
Qed.

Lemma Qsum_add (f g : nat -> Q) (l : list nat) :
  Qsum (fun j => f j + g j) l == Qsum f l + Qsum g l.
Proof. induction l as [|a l IH]; simpl; [ring|]. rewrite IH. ring. Qed.

Lemma Qsum_scale (c : Q) (f : nat -> Q) (l : list nat) :
  Qsum (fun j => c * f j) l == c * Qsum f l.
Proof. induction l as [|a l IH]; simpl; [ring|]. rewrite IH. ring. Qed.

Lemma Qsum_swap (f : nat -> nat -> Q) (l1 l2 : list nat) :
  Qsum (fun i => Qsum (fun j => f i j) l2) l1
  == Qsum (fun j => Qsum (fun i => f i j) l1) l2.
Proof.
  induction l1 as [|a l1 IH]; simpl.
  - symmetry. apply Qsum_zero. reflexivity.
  - rewrite IH, <- Qsum_add. reflexivity.
Qed.

(** A sum over [0 .. n-1] all of whose terms vanish except the one at [i]. *)
Lemma Qsum_split (f : nat -> Q) (n i : nat) :
  (i < n)%nat ->
  Qsum f (seq 0 n) == Qsum f (seq 0 i) + f i + Qsum f (seq (S i) (n - S i)).
Proof.
  intros Hi. replace n with (i + S (n - S i))%nat at 1 by lia.
  rewrite seq_app, Qsum_app. simpl. ring.
Qed.

Lemma Qsum_nonneg (f : nat -> Q) (l : list nat) :
  (forall j, j ∈ l -> 0 <= f j) -> 0 <= Qsum f l.
Proof.
  induction l as [|a l IH]; intros Hf; simpl; [lra|].
  specialize (Hf a ltac:(left)) as Ha.
  assert (0 <= Qsum f l) by (apply IH; intros j Hj; apply Hf; now right). lra.
Qed.

Lemma Qsum_nonneg_zero (f : nat -> Q) (l : list nat) :
  (forall j, j ∈ l -> 0 <= f j) -> Qsum f l == 0 -> forall j, j ∈ l -> f j == 0.
Proof.
  induction l as [|a l IH]; intros Hf Hsum j Hj; [now apply elem_of_nil in Hj|].
  simpl in Hsum.
  specialize (Hf a ltac:(left)) as Ha.
  assert (0 <= Qsum f l) as Hl by (apply Qsum_nonneg; intros k Hk; apply Hf; now right).
  apply elem_of_cons in Hj as [->|Hj]; [lra|].
  apply IH; [intros k Hk; apply Hf; now right|lra|exact Hj].
Qed.

(** ** Reads and writes of the solver's arrays *)

Lemma getQ_setQ_eq (a : list Q) (i : nat) (v : Q) :
  (i < length a)%nat -> getQ (setQ a i v) i == v.
Proof.
  intros Hi. unfold getQ, setQ. rewrite list_lookup_insert_eq by exact Hi.
  simpl. apply Qred_correct.
Qed.

Lemma getQ_setQ_ne (a : list Q) (i j : nat) (v : Q) :
  i <> j -> getQ (setQ a i v) j = getQ a j.
Proof. intros Hij. unfold getQ, setQ. now rewrite list_lookup_insert_ne. Qed.

Lemma length_setQ (a : list Q) (i : nat) (v : Q) : length (setQ a i v) = length a.
Proof. apply length_insert. Qed.

Lemma getRow_lookup (m : list (list Q)) (i : nat) :
  (i < length m)%nat -> m !! i = Some (getRow m i).
Proof.
  intros Hi. unfold getRow. destruct (lookup_lt_is_Some_2 m i Hi) as [row ->]. reflexivity.
Qed.

Lemma getRow_setM_eq (m : list (list Q)) (i j : nat) (v : Q) :
  (i < length m)%nat -> getRow (setM m i j v) i = <[ j := Qred v ]> (getRow m i).
Proof.
  intros Hi. unfold getRow, setM. rewrite list_lookup_alter_eq.
  now rewrite (getRow_lookup m i Hi).
Qed.

Lemma getRow_setM_ne (m : list (list Q)) (i j r : nat) (v : Q) :
  i <> r -> getRow (setM m i j v) r = getRow m r.
Proof. intros Hir. unfold getRow, setM. now rewrite list_lookup_alter_ne. Qed.

Lemma length_setM (m : list (list Q)) (i j : nat) (v : Q) : length (setM m i j v) = length m.
Proof. apply length_alter. Qed.

Lemma length_getRow_setM (m : list (list Q)) (i j r : nat) (v : Q) :
  (i < length m)%nat -> length (getRow (setM m i j v) r) = length (getRow m r).
Proof.
  intros Hi. destruct (decide (i = r)) as [->|Hne].
  - rewrite getRow_setM_eq by exact Hi. apply length_insert.
  - now rewrite getRow_setM_ne.
Qed.

Lemma getM_setM_eq (m : list (list Q)) (i j : nat) (v : Q) :
  (i < length m)%nat -> (j < length (getRow m i))%nat -> getM (setM m i j v) i j == v.
Proof.
  intros Hi Hj. unfold getM. fold (getRow (setM m i j v) i).
  rewrite getRow_setM_eq by exact Hi. unfold getQ.
  rewrite list_lookup_insert_eq by exact Hj. simpl. apply Qred_correct.
Qed.

Lemma getM_setM_ne (m : list (list Q)) (i j i' j' : nat) (v : Q) :
  (i < length m)%nat -> (i <> i' \/ j <> j') -> getM (setM m i j v) i' j' = getM m i' j'.
Proof.
  intros Hi Hne. unfold getM. fold (getRow (setM m i j v) i') (getRow m i').
  destruct (decide (i = i')) as [->|Hii].
  - rewrite getRow_setM_eq by exact Hi. unfold getQ.
    rewrite list_lookup_insert_ne; [reflexivity|]. destruct Hne; congruence.
  - now rewrite getRow_setM_ne.
Qed.

Lemma getRow_swapRows (m : list (list Q)) (i r k : nat) :
  (i < length m)%nat -> (r < length m)%nat ->
  getRow (swapRows m i r) k = getRow m (swapIndex i r k).
Proof.
  intros Hi Hr. unfold swapRows, swapIndex.
  destruct (k =? r)%nat eqn:Ekr.
  - apply Nat.eqb_eq in Ekr. subst k. unfold getRow at 1.
    rewrite list_lookup_insert_eq by (rewrite length_insert; exact Hr). reflexivity.
  - apply Nat.eqb_neq in Ekr. unfold getRow at 1.
    rewrite list_lookup_insert_ne by congruence.
    destruct (k =? i)%nat eqn:Eki.
    + apply Nat.eqb_eq in Eki. subst k. rewrite list_lookup_insert_eq by exact Hi. reflexivity.
    + apply Nat.eqb_neq in Eki. rewrite list_lookup_insert_ne by congruence. reflexivity.
Qed.

Lemma getM_swapRows (m : list (list Q)) (i r k j : nat) :
  (i < length m)%nat -> (r < length m)%nat ->
  getM (swapRows m i r) k j = getM m (swapIndex i r k) j.
Proof.
  intros Hi Hr. unfold getM. fold (getRow (swapRows m i r) k) (getRow m (swapIndex i r k)).
  now rewrite getRow_swapRows.
Qed.

Lemma getQ_swapEntries (b : list Q) (i r k : nat) :
  (i < length b)%nat -> (r < length b)%nat ->
  getQ (swapEntries b i r) k = getQ b (swapIndex i r k).
Proof.
  intros Hi Hr. unfold swapEntries, swapIndex, getQ.
  destruct (k =? r)%nat eqn:Ekr.
  - apply Nat.eqb_eq in Ekr. subst k.
    rewrite list_lookup_insert_eq by (rewrite length_insert; exact Hr). reflexivity.
  - apply Nat.eqb_neq in Ekr. rewrite list_lookup_insert_ne by congruence.
    destruct (k =? i)%nat eqn:Eki.
    + apply Nat.eqb_eq in Eki. subst k. rewrite list_lookup_insert_eq by exact Hi. reflexivity.
    + apply Nat.eqb_neq in Eki. rewrite list_lookup_insert_ne by congruence. reflexivity.
Qed.

Lemma swapIndex_lt (n i r k : nat) :
  (i < n)%nat -> (r < n)%nat -> (k < n)%nat -> (swapIndex i r k < n)%nat.
Proof.
  intros Hi Hr Hk. unfold swapIndex.
  destruct (k =? r)%nat; [exact Hi|]. destruct (k =? i)%nat; assumption.
Qed.

Lemma swapIndex_involutive (i r k : nat) : swapIndex i r (swapIndex i r k) = k.
Proof.
  unfold swapIndex.
  destruct (k =? r)%nat eqn:E1; [apply Nat.eqb_eq in E1; subst k|apply Nat.eqb_neq in E1].
  - destruct (i =? r)%nat eqn:E2; [now apply Nat.eqb_eq in E2|]. now rewrite Nat.eqb_refl.
  - destruct (k =? i)%nat eqn:E3; [apply Nat.eqb_eq in E3; subst k|apply Nat.eqb_neq in E3].
    + now rewrite Nat.eqb_refl.
    + apply Nat.eqb_neq in E1, E3. now rewrite E1, E3.
Qed.

Lemma shaped_swap (n : nat) (m : list (list Q)) (b : list Q) (i r : nat) :
  (i < n)%nat -> (r < n)%nat -> shaped n m b ->
  shaped n (swapRows m i r) (swapEntries b i r).
Proof.
  intros Hi Hr (Hm & Hrows & Hb). split; [|split].
  - unfold swapRows. now rewrite !length_insert.
  - intros k Hk. rewrite getRow_swapRows by lia. apply Hrows.
    now apply swapIndex_lt.
  - unfold swapEntries. now rewrite !length_insert.
Qed.

(** Exchanging two equations does not change the solutions. *)
Lemma solves_swap (n : nat) (m : list (list Q)) (b : list Q) (i r : nat) (t : Q)
    (x : nat -> Q) :
  (i < n)%nat -> (r < n)%nat -> shaped n m b ->
  solves n (swapRows m i r) (swapEntries b i r) t x <-> solves n m b t x.
Proof.
  intros Hi Hr (Hm & Hrows & Hb).
  assert (Hrow : forall k, rowDot n (swapRows m i r) k x == rowDot n m (swapIndex i r k) x).
  { intros k. unfold rowDot. apply Qsum_ext. intros j _.
    rewrite getM_swapRows by lia. reflexivity. }
  split; intros Hs k Hk.
  - specialize (Hs (swapIndex i r k) (swapIndex_lt n i r k Hi Hr Hk)).
    rewrite Hrow, getQ_swapEntries, swapIndex_involutive in Hs by lia. exact Hs.
  - rewrite Hrow, getQ_swapEntries by lia. apply Hs. now apply swapIndex_lt.
Qed.

(** Subtracting a multiple of equation [i] from equation [k] does not
    change the solutions either. *)
Lemma solves_rowop (n : nat) (m m' : list (list Q)) (b b' : list Q) (i k : nat) (c t : Q)
    (x : nat -> Q) :
  (i < n)%nat -> (k < n)%nat -> i <> k ->
  (forall r j, (r < n)%nat -> (j < n)%nat -> r <> k -> getM m' r j == getM m r j) ->
  (forall j, (j < n)%nat -> getM m' k j == getM m k j - c * getM m i j) ->
  (forall r, (r < n)%nat -> r <> k -> getQ b' r == getQ b r) ->
  getQ b' k == getQ b k - c * getQ b i ->
  solves n m' b' t x <-> solves n m b t x.
Proof.
  intros Hi Hk Hik Hrows Hrowk Hbs Hbk.
  assert (Hsame : forall r, (r < n)%nat -> r <> k -> rowDot n m' r x == rowDot n m r x).
  { intros r Hr Hrk. unfold rowDot. apply Qsum_ext. intros j Hj.
    apply elem_of_seq in Hj. rewrite Hrows by lia. reflexivity. }
  assert (Hk' : rowDot n m' k x == rowDot n m k x - c * rowDot n m i x).
  { unfold rowDot.
    rewrite (Qsum_ext _ (fun j => getM m k j * x j + (- c) * (getM m i j * x j))).
    - rewrite Qsum_add, Qsum_scale. ring.
    - intros j Hj. apply elem_of_seq in Hj. rewrite Hrowk by lia. ring. }
  split; intros Hs r Hr.
  - destruct (decide (r = k)) as [->|Hrk].
    + pose proof (Hs k Hk) as H1. pose proof (Hs i Hi) as H2.
      rewrite Hk', Hbk in H1. rewrite Hsame, Hbs in H2 by congruence.
      rewrite H2 in H1. lra.
    + pose proof (Hs r Hr) as H1. rewrite Hsame, Hbs in H1 by assumption. exact H1.
  - destruct (decide (r = k)) as [->|Hrk].
    + rewrite Hk', Hbk, (Hs k Hk), (Hs i Hi). ring.
    + rewrite Hsame, Hbs by assumption. now apply Hs.
Qed.

(** ** The elimination *)

Lemma pivotRow_spec (n : nat) (m : list (list Q)) (i : nat) :
  (i < n)%nat ->
  (i <= pivotRow n m i < n)%nat
  /\ forall r, (i <= r < n)%nat ->
       Qabs (getM m r i) <= Qabs (getM m (pivotRow n m i) i).
Proof.
  intros Hi. unfold pivotRow.
  apply (for_range_ind (fun k0 maxRow =>
           (i <= maxRow < k0)%nat
           /\ forall r, (i <= r < k0)%nat -> Qabs (getM m r i) <= Qabs (getM m maxRow i))
         (i + 1) n); [lia| |].
  - split; [lia|]. intros r Hr. assert (r = i) as -> by lia. lra.
  - intros k maxRow Hk [Hrange Hmax]. unfold Math_abs.
    destruct (Qltb (Qabs (getM m maxRow i)) (Qabs (getM m k i))) eqn:E.
    + apply Qltb_lt in E. split; [lia|]. intros r Hr.
      destruct (decide (r = k)) as [->|Hne]; [lra|].
      specialize (Hmax r ltac:(lia)). lra.
    + apply Qltb_nlt in E. split; [lia|]. intros r Hr.
      destruct (decide (r = k)) as [->|Hne]; [exact E|]. apply Hmax. lia.
Qed.

(** The inner loop of the elimination: row [k] minus [c] times row [i], on
    the columns from [i] on. *)
Lemma rowUpdate_spec (n : nat) (m : list (list Q)) (i k : nat) (c : Q) :
  length m = n -> (forall r, (r < n)%nat -> length (getRow m r) = n) ->
  (i < n)%nat -> (k < n)%nat -> i <> k ->
  let m' := for_range i n (fun j a => setM a k j (getM a k j - c * getM a i j)) m in
  length m' = n
  /\ (forall r, (r < n)%nat -> length (getRow m' r) = n)
  /\ (forall r j, r <> k -> getM m' r j = getM m r j)
  /\ (forall j, (j < n)%nat ->
        getM m' k j == if (i <=? j)%nat then getM m k j - c * getM m i j else getM m k j).
Proof.
  intros Hlen Hrows Hi Hk Hik m'.
  assert (length m' = n
    /\ (forall r, (r < n)%nat -> length (getRow m' r) = n)
    /\ (forall r j, r <> k -> getM m' r j = getM m r j)
    /\ (forall j, (j < n)%nat ->
          getM m' k j == if (i <=? j)%nat && (j <? n)%nat
                         then getM m k j - c * getM m i j else getM m k j))
    as (H1 & H2 & H3 & H4).
  2: { split; [exact H1|]. split; [exact H2|]. split; [exact H3|].
       intros j Hj. rewrite (H4 j Hj).
       assert ((j <? n)%nat = true) as -> by (apply Nat.ltb_lt; exact Hj).
       now rewrite andb_true_r. }
  apply (for_range_ind (fun j0 (a : list (list Q)) =>
    length a = n
    /\ (forall r, (r < n)%nat -> length (getRow a r) = n)
    /\ (forall r j, r <> k -> getM a r j = getM m r j)
    /\ (forall j, (j < n)%nat ->
          getM a k j == if (i <=? j)%nat && (j <? j0)%nat
                        then getM m k j - c * getM m i j else getM m k j)) i n); [lia| |].
  - split; [exact Hlen|]. split; [exact Hrows|]. split; [reflexivity|].
    intros j Hj. destruct (i <=? j)%nat eqn:E1, (j <? i)%nat eqn:E2; simpl; try reflexivity.
    apply Nat.leb_le in E1. apply Nat.ltb_lt in E2. lia.
  - intros j0 a Hj0 (Hla & Hra & Hother & Hrowk).
    split; [now rewrite length_setM|]. split.
    { intros r Hr. rewrite length_getRow_setM by lia. now apply Hra. }
    split.
    { intros r j Hr. rewrite getM_setM_ne by (try lia; left; congruence). now apply Hother. }
    intros j Hj. destruct (decide (j = j0)) as [->|Hne].
    + rewrite getM_setM_eq by (rewrite ?Hra; lia).
      rewrite (Hother i j0) by exact Hik. rewrite (Hrowk j0 Hj).
      assert ((j0 <? j0)%nat = false) as -> by apply Nat.ltb_irrefl.
      assert ((j0 <? S j0)%nat = true) as -> by (apply Nat.ltb_lt; lia).
      assert ((i <=? j0)%nat = true) as -> by (apply Nat.leb_le; lia).
      simpl. reflexivity.
    + rewrite getM_setM_ne by (try lia; right; congruence). rewrite (Hrowk j Hj).
      assert ((j <? S j0)%nat = (j <? j0)%nat) as ->; [|reflexivity].
      destruct (j <? j0)%nat eqn:E1, (j <? S j0)%nat eqn:E2; try reflexivity;
        [apply Nat.ltb_lt in E1; apply Nat.ltb_ge in E2
        |apply Nat.ltb_ge in E1; apply Nat.ltb_lt in E2]; lia.
Qed.

Lemma Qeqb_false (a : Q) : ~ a == 0 -> negb (Qeqb a 0) = true.
Proof.
  intros Ha. unfold Qeqb. destruct (Qeq_bool a 0) eqn:E; [|reflexivity].
  apply Qeq_bool_iff in E. contradiction.
Qed.

Lemma Qeqb_true (a : Q) : negb (Qeqb a 0) = true -> ~ a == 0.
Proof.
  unfold Qeqb. intros E Ha. apply Qeq_bool_iff in Ha. rewrite Ha in E. discriminate E.
Qed.

(** The elimination of one column below a non-zero pivot. *)
Lemma eliminateColumn_spec (n : nat) (m : list (list Q)) (b : list Q) (i : nat) :
  shaped n m b -> (i < n)%nat -> ~ getM m i i == 0 ->
  (forall col r, (col < i)%nat -> (col < r < n)%nat -> getM m r col == 0) ->
  let st := eliminateColumn n i (m, b) in
  shaped n st.1 st.2
  /\ (forall t x, solves n st.1 st.2 t x <-> solves n m b t x)
  /\ (forall col r, (col <= i)%nat -> (col < r < n)%nat -> getM st.1 r col == 0)
  /\ (forall r j, (r <= i)%nat -> getM st.1 r j = getM m r j).
Proof.
  intros Hshape Hi Hpivot Hzero st.
  assert (shaped n st.1 st.2
    /\ (forall t x, solves n st.1 st.2 t x <-> solves n m b t x)
    /\ (forall col r, (col < i)%nat -> (col < r < n)%nat -> getM st.1 r col == 0)
    /\ (forall r, (i < r < n)%nat -> getM st.1 r i == 0)
    /\ (forall r j, (r <= i)%nat -> getM st.1 r j = getM m r j)
    /\ (forall r, (r <= i)%nat -> getQ st.2 r = getQ b r))
    as (H1 & H2 & H3 & H4 & H5 & _).
  2: { split; [exact H1|]. split; [exact H2|]. split; [|exact H5].
       intros col r Hcol Hr. destruct (decide (col = i)) as [->|Hne].
       - now apply H4.
       - apply H3; lia. }
  unfold st, eliminateColumn.
  apply (for_range_ind (fun k0 (st : list (list Q) * list Q) =>
    shaped n st.1 st.2
    /\ (forall t x, solves n st.1 st.2 t x <-> solves n m b t x)
    /\ (forall col r, (col < i)%nat -> (col < r < n)%nat -> getM st.1 r col == 0)
    /\ (forall r, (i < r < k0)%nat -> getM st.1 r i == 0)
    /\ (forall r j, (r <= i)%nat -> getM st.1 r j = getM m r j)
    /\ (forall r, (r <= i)%nat -> getQ st.2 r = getQ b r)) (i + 1) n); [lia| |].
  - simpl. split; [exact Hshape|]. split; [reflexivity|]. split; [exact Hzero|].
    split; [intros r Hr; lia|]. split; reflexivity.
  - intros k [m1 b1] Hk (Hsh & Heq & Hz & Hcol & Hrows & Hbs). cbn [fst snd] in *.
    assert (~ getM m1 i i == 0) as Hp1 by (rewrite Hrows by lia; exact Hpivot).
    rewrite (Qeqb_false _ Hp1).
    set (c := getM m1 k i / getM m1 i i).
    destruct Hsh as (Hlm & Hlr & Hlb).
    destruct (rowUpdate_spec n m1 i k c Hlm Hlr Hi ltac:(lia) ltac:(lia))
      as (Ul & Ur & Uother & Urow).
    set (m2 := for_range i n (fun j a => setM a k j (getM a k j - c * getM a i j)) m1) in *.
    cbn [fst snd].
    assert (Hrowk : forall j, (j < n)%nat -> getM m2 k j == getM m1 k j - c * getM m1 i j).
    { intros j Hj. rewrite (Urow j Hj). destruct (i <=? j)%nat eqn:E; [reflexivity|].
      apply Nat.leb_gt in E. rewrite (Hz j k), (Hz j i) by lia. ring. }
    split; [|split; [|split; [|split; [|split]]]].
    + split; [exact Ul|]. split; [exact Ur|]. now rewrite length_setQ.
    + intros t x. rewrite <- Heq.
      apply (solves_rowop n m1 m2 b1 (setQ b1 k (getQ b1 k - c * getQ b1 i)) i k c t x);
        [exact Hi|lia|lia| | | |].
      * intros r j Hr Hj Hrk. now rewrite Uother.
      * exact Hrowk.
      * intros r Hr Hrk. rewrite getQ_setQ_ne by congruence. reflexivity.
      * apply getQ_setQ_eq. lia.
    + intros col r Hcl Hr. destruct (decide (r = k)) as [->|Hrk].
      * rewrite (Hrowk col) by lia. rewrite (Hz col k), (Hz col i) by lia. ring.
      * rewrite Uother by exact Hrk. now apply Hz.
    + intros r Hr. destruct (decide (r = k)) as [->|Hrk].
      * rewrite (Hrowk i Hi). unfold c. field. exact Hp1.
      * rewrite Uother by exact Hrk. apply Hcol. lia.
    + intros r j Hr. rewrite Uother by lia. now apply Hrows.
    + intros r Hr. rewrite getQ_setQ_ne by lia. now apply Hbs.
Qed.

(** A matrix that is upper triangular with non-zero pivots on its first [i]
    columns sends some vector to zero on its first [i] rows, whatever the
    entries of the vector from [i] on. *)
Lemma triangular_kernel (n : nat) (m : list (list Q)) (i : nat) :
  (i <= n)%nat ->
  (forall col r, (col < i)%nat -> (col < r < n)%nat -> getM m r col == 0) ->
  (forall col, (col < i)%nat -> ~ getM m col col == 0) ->
  forall v0 : nat -> Q,
    exists v, (forall j, (i <= j)%nat -> v j = v0 j)
              /\ forall r, (r < i)%nat -> rowDot n m r v == 0.
Proof.
  induction i as [|i IH]; intros Hi Hzero Hdiag v0.
  - exists v0. split; [reflexivity|]. intros r Hr. lia.
  - set (vi := - Qsum (fun j => getM m i j * v0 j) (seq (S i) (n - S i)) / getM m i i).
    set (v0' := fun j => if (j =? i)%nat then vi else v0 j).
    destruct (IH ltac:(lia) ltac:(intros; apply Hzero; lia) ltac:(intros; apply Hdiag; lia) v0')
      as (v & Hv & Hrowsv).
    exists v. split.
    + intros j Hj. rewrite Hv by lia. unfold v0'.
      assert ((j =? i)%nat = false) as -> by (apply Nat.eqb_neq; lia). reflexivity.
    + intros r Hr. destruct (decide (r = i)) as [->|Hne]; [|apply Hrowsv; lia].
      unfold rowDot. rewrite (Qsum_split _ n i) by lia.
      rewrite (Qsum_zero _ (seq 0 i)).
      2: { intros j Hj. apply elem_of_seq in Hj. rewrite (Hzero j i) by lia. ring. }
      rewrite (Qsum_ext _ (fun j => getM m i j * v0 j) (seq (S i) (n - S i))).
      2: { intros j Hj. apply elem_of_seq in Hj. rewrite Hv by lia. unfold v0'.
           assert ((j =? i)%nat = false) as -> by (apply Nat.eqb_neq; lia). reflexivity. }
      rewrite (Hv i) by lia. unfold v0'. rewrite Nat.eqb_refl. unfold vi.
      field. apply Hdiag. lia.
Qed.

Lemma Qabs_zero_le (a b : Q) : Qabs a <= Qabs b -> b == 0 -> a == 0.
Proof.
  intros Hle Hb. rewrite Hb in Hle. change (Qabs 0) with 0 in Hle.
  apply Qabs_Qle_condition in Hle. lra.
Qed.

(** The whole elimination, on a system whose matrix is nonsingular. *)
Lemma gaussianElimination_spec (n : nat) (m : list (list Q)) (b : list Q) :
  shaped n m b -> nonsingular n m ->
  let st := gaussianElimination n (m, b) in
  shaped n st.1 st.2
  /\ (forall t x, solves n st.1 st.2 t x <-> solves n m b t x)
  /\ (forall col r, (col < r < n)%nat -> getM st.1 r col == 0)
  /\ (forall col, (col < n)%nat -> ~ getM st.1 col col == 0).
Proof.
  intros Hshape Hns st.
  assert (shaped n st.1 st.2
    /\ (forall t x, solves n st.1 st.2 t x <-> solves n m b t x)
    /\ (forall col r, (col < n)%nat -> (col < r < n)%nat -> getM st.1 r col == 0)
    /\ (forall col, (col < n)%nat -> ~ getM st.1 col col == 0))
    as (H1 & H2 & H3 & H4).
  2: { split; [exact H1|]. split; [exact H2|]. split; [|exact H4].
       intros col r Hr. apply H3; lia. }
  unfold st, gaussianElimination.
  apply (for_range_ind (fun i0 (st : list (list Q) * list Q) =>
    shaped n st.1 st.2
    /\ (forall t x, solves n st.1 st.2 t x <-> solves n m b t x)
    /\ (forall col r, (col < i0)%nat -> (col < r < n)%nat -> getM st.1 r col == 0)
    /\ (forall col, (col < i0)%nat -> ~ getM st.1 col col == 0)) 0 n); [lia| |].
  - simpl. split; [exact Hshape|]. split; [reflexivity|]. split; intros; lia.
  - intros i [m1 b1] Hi (Hsh & Heq & Hz & Hd). cbn [fst snd] in *.
    destruct (pivotRow_spec n m1 i ltac:(lia)) as [Hp Hmax].
    set (p := pivotRow n m1 i) in *.
    pose proof Hsh as (Hlm & Hlr & Hlb).
    (* the pivot is not zero *)
    assert (~ getM m1 p i == 0) as Hpivot.
    { intros Hp0.
      assert (forall r, (i <= r < n)%nat -> getM m1 r i == 0) as Hcol0.
      { intros r Hr. apply (Qabs_zero_le _ _ (Hmax r Hr) Hp0). }
      destruct (triangular_kernel n m1 i ltac:(lia) Hz Hd
                  (fun j => if (j =? i)%nat then 1 else 0)) as (v & Hv & Hrowsv).
      assert (solves n m1 b1 0 v) as Hsol.
      { intros r Hr. destruct (decide (r < i)%nat) as [Hlt|Hge].
        - rewrite Hrowsv by exact Hlt. ring.
        - unfold rowDot. rewrite Qsum_zero; [ring|].
          intros j Hj. apply elem_of_seq in Hj.
          destruct (Nat.lt_trichotomy j i) as [Hji|[->|Hji]].
          + rewrite (Hz j r) by lia. ring.
          + rewrite (Hcol0 r) by lia. ring.
          + rewrite Hv by lia.
            assert ((j =? i)%nat = false) as -> by (apply Nat.eqb_neq; lia). ring. }
      apply Heq in Hsol.
      assert (v i == 0) as Hvi.
      { apply (Hns v); [|lia]. intros r Hr. rewrite (Hsol r Hr). ring. }
      rewrite Hv in Hvi by lia. rewrite Nat.eqb_refl in Hvi. lra. }
    (* the exchange of rows *)
    pose proof (shaped_swap n m1 b1 i p ltac:(lia) ltac:(lia) Hsh) as Hsh'.
    assert (Hz' : forall col r, (col < i)%nat -> (col < r < n)%nat ->
              getM (swapRows m1 i p) r col == 0).
    { intros col r Hcol Hr. rewrite getM_swapRows by lia. apply Hz; [exact Hcol|].
      unfold swapIndex. destruct (r =? p)%nat; [lia|]. destruct (r =? i)%nat; lia. }
    assert (Hpiv' : ~ getM (swapRows m1 i p) i i == 0).
    { rewrite getM_swapRows by lia. unfold swapIndex.
      destruct (i =? p)%nat eqn:E; [apply Nat.eqb_eq in E; rewrite E at 1; exact Hpivot|].
      now rewrite Nat.eqb_refl. }
    destruct (eliminateColumn_spec n (swapRows m1 i p) (swapEntries b1 i p) i
                Hsh' ltac:(lia) Hpiv' Hz') as (E1 & E2 & E3 & E4).
    split; [exact E1|]. split; [|split].
    + intros t x. rewrite E2, solves_swap by (try lia; exact Hsh). apply Heq.
    + intros col r Hcol Hr. apply E3; lia.
    + intros col Hcol. rewrite E4 by lia. destruct (decide (col = i)) as [->|Hne].
      * exact Hpiv'.
      * rewrite getM_swapRows by lia.
        assert (swapIndex i p col = col) as ->.
        { unfold swapIndex.
          assert ((col =? p)%nat = false) as -> by (apply Nat.eqb_neq; lia).
          assert ((col =? i)%nat = false) as -> by (apply Nat.eqb_neq; lia). reflexivity. }
        apply Hd. lia.
Qed.

(** ** Back substitution *)

Lemma for_down_ind {St : Type} (P : nat -> St -> Prop) (n : nat)
    (body : nat -> St -> St) (s : St) :
  P n s ->
  (forall i st, (i < n)%nat -> P (S i) st -> P i (body i st)) ->
  P 0%nat (for_down n body s).
Proof.
  intros Hn Hstep. unfold for_down.
  assert (forall k, (k <= n)%nat ->
            P (n - k)%nat (foldl (fun st i => body i st) s (rev (seq (n - k) k)))) as Hall.
  { induction k as [|k IH]; intros Hk.
    - simpl. now rewrite Nat.sub_0_r.
    - replace (seq (n - S k) (S k)) with ((n - S k)%nat :: seq (n - k) k).
      2: { simpl. f_equal. f_equal. lia. }
      simpl. rewrite foldl_app. simpl. apply Hstep; [lia|].
      replace (S (n - S k)) with (n - k)%nat by lia. apply IH. lia. }
  specialize (Hall n (Nat.le_refl n)). now rewrite Nat.sub_diag in Hall.
Qed.

Lemma backSubstitution_spec (n : nat) (m : list (list Q)) (b : list Q) :
  (forall col r, (col < r < n)%nat -> getM m r col == 0) ->
  (forall col, (col < n)%nat -> ~ getM m col col == 0) ->
  let x := backSubstitution n m b in
  length x = n
  /\ forall r, (r < n)%nat -> rowDot n m r (getQ x) == getQ b r.
Proof.
  intros Hz Hd x.
  assert (length x = n
          /\ forall r, (0 <= r < n)%nat ->
               Qsum (fun j => getM m r j * getQ x j) (seq r (n - r)) == getQ b r)
    as [Hlen Hrows].
  2: { clearbody x. split; [exact Hlen|]. intros r Hr. unfold rowDot.
       replace n with (r + (n - r))%nat at 1 by lia.
       rewrite seq_app, Qsum_app. simpl.
       rewrite (Qsum_zero _ (seq 0 r)).
       - rewrite Hrows by lia. ring.
       - intros j Hj. apply elem_of_seq in Hj. rewrite (Hz j r) by lia. ring. }
  unfold x, backSubstitution.
  apply (for_down_ind (fun i0 (x : list Q) =>
    length x = n
    /\ forall r, (i0 <= r < n)%nat ->
         Qsum (fun j => getM m r j * getQ x j) (seq r (n - r)) == getQ b r) n).
  - split; [apply length_replicate|]. intros r Hr. lia.
  - intros i x0 Hi [Hl0 Hr0].
    set (x1 := setQ x0 i (getQ b i)).
    set (x2 := for_range (i + 1) n (fun j x => setQ x i (getQ x i - getM m i j * getQ x j)) x1).
    assert (length x2 = n
            /\ (forall j, j <> i -> getQ x2 j = getQ x0 j)
            /\ getQ x2 i == getQ b i
                 - Qsum (fun j => getM m i j * getQ x0 j) (seq (S i) (n - S i)))
      as (Hl2 & Hother2 & Hi2).
    { unfold x2.
      apply (for_range_ind (fun j0 (x : list Q) =>
        length x = n
        /\ (forall j, j <> i -> getQ x j = getQ x0 j)
        /\ getQ x i == getQ b i
             - Qsum (fun j => getM m i j * getQ x0 j) (seq (S i) (j0 - S i))) (i + 1) n);
        [lia| |].
      - unfold x1. split; [now rewrite length_setQ|]. split.
        + intros j Hj. now rewrite getQ_setQ_ne by congruence.
        + rewrite getQ_setQ_eq by lia. replace (i + 1 - S i)%nat with 0%nat by lia.
          simpl. ring.
      - intros j0 x' Hj0 (Hl' & Ho' & Hi'). split; [now rewrite length_setQ|]. split.
        + intros j Hj. rewrite getQ_setQ_ne by congruence. now apply Ho'.
        + rewrite getQ_setQ_eq by lia. rewrite Hi', (Ho' j0) by lia.
          replace (S j0 - S i)%nat with (S (j0 - S i)) by lia.
          rewrite seq_S, Qsum_app. simpl.
          replace (S (i + (j0 - S i)))%nat with j0 by lia. ring. }
    fold x1. fold x2.
    rewrite (Qeqb_false _ (Hd i Hi)).
    split; [now rewrite length_setQ|].
    intros r Hr. destruct (decide (r = i)) as [->|Hne].
    + replace (n - i)%nat with (S (n - S i)) by lia. simpl.
      rewrite getQ_setQ_eq by lia.
      rewrite (Qsum_ext _ (fun j => getM m i j * getQ x0 j) (seq (S i) (n - S i))).
      * rewrite Hi2. field. now apply Hd.
      * intros j Hj. apply elem_of_seq in Hj.
        rewrite getQ_setQ_ne by lia. rewrite Hother2 by lia. reflexivity.
    + rewrite <- (Hr0 r) by lia. apply Qsum_ext.
      intros j Hj. apply elem_of_seq in Hj.
      rewrite getQ_setQ_ne by lia. rewrite Hother2 by lia. reflexivity.
Qed.

(** Elimination followed by back substitution solves a nonsingular system. *)
Lemma solve_spec (n : nat) (m : list (list Q)) (b : list Q) :
  shaped n m b -> nonsingular n m ->
  let st := gaussianElimination n (m, b) in
  let x := backSubstitution n st.1 st.2 in
  length x = n /\ solves n m b 1 (getQ x).
Proof.
  intros Hshape Hns st x.
  destruct (gaussianElimination_spec n m b Hshape Hns) as (_ & Heq & Hz & Hd).
  fold st in Heq, Hz, Hd.
  destruct (backSubstitution_spec n st.1 st.2 Hz Hd) as [Hlen Hrows].
  split; [exact Hlen|]. apply Heq. intros r Hr. unfold x.
  pose proof (Hrows r Hr) as Hrow. lra.
Qed.

(** ** The normal equations *)

Lemma shaped_setM (n : nat) (m : list (list Q)) (b : list Q) (i j : nat) (v : Q) :
  (i < n)%nat -> shaped n m b -> shaped n (setM m i j v) b.
Proof.
  intros Hi (Hm & Hrows & Hb). split; [now rewrite length_setM|]. split; [|exact Hb].
  intros r Hr. rewrite length_getRow_setM by lia. now apply Hrows.
Qed.

Lemma shaped_setQ (n : nat) (m : list (list Q)) (b : list Q) (i : nat) (v : Q) :
  shaped n m b -> shaped n m (setQ b i v).
Proof.
  intros (Hm & Hrows & Hb). split; [exact Hm|]. split; [exact Hrows|].
  now rewrite length_setQ.
Qed.

(** One pass of the middle loop: row [i] of [A] is accumulated into every
    entry of [AtA] and [Atb]. *)
Lemma accumulateRow_spec (A : list (list Q)) (i : nat) (m0 : list (list Q)) (b0 : list Q) :
  shaped 8 m0 b0 ->
  let st := for_range 0 8 (fun j st =>
      let st :=
        for_range 0 8 (fun k st =>
          (setM st.1 j k (getM st.1 j k + getM A i j * getM A i k), st.2)) st in
      (st.1, setQ st.2 j (getQ st.2 j + getM A i j * (- getM A i 8)))) (m0, b0) in
  shaped 8 st.1 st.2
  /\ (forall j k, (j < 8)%nat -> (k < 8)%nat ->
        getM st.1 j k == getM m0 j k + getM A i j * getM A i k)
  /\ (forall j, (j < 8)%nat -> getQ st.2 j == getQ b0 j + getM A i j * (- getM A i 8)).
Proof.
  intros Hshape st.
  assert (shaped 8 st.1 st.2
    /\ (forall j k, (j < 8)%nat -> (k < 8)%nat ->
          getM st.1 j k == if (j <? 8)%nat then getM m0 j k + getM A i j * getM A i k
                           else getM m0 j k)
    /\ (forall j, (j < 8)%nat ->
          getQ st.2 j == if (j <? 8)%nat then getQ b0 j + getM A i j * (- getM A i 8)
                         else getQ b0 j)) as (H1 & H2 & H3).
  2: { split; [exact H1|]. split.
       - intros j k Hj Hk. rewrite (H2 j k Hj Hk).
         assert ((j <? 8)%nat = true) as -> by (apply Nat.ltb_lt; exact Hj). reflexivity.
       - intros j Hj. rewrite (H3 j Hj).
         assert ((j <? 8)%nat = true) as -> by (apply Nat.ltb_lt; exact Hj). reflexivity. }
  unfold st.
  apply (for_range_ind (fun j0 (st : list (list Q) * list Q) =>
    shaped 8 st.1 st.2
    /\ (forall j k, (j < 8)%nat -> (k < 8)%nat ->
          getM st.1 j k == if (j <? j0)%nat then getM m0 j k + getM A i j * getM A i k
                           else getM m0 j k)
    /\ (forall j, (j < 8)%nat ->
          getQ st.2 j == if (j <? j0)%nat then getQ b0 j + getM A i j * (- getM A i 8)
                         else getQ b0 j)) 0 8); [lia| |].
  - simpl. split; [exact Hshape|]. split; intros; reflexivity.
  - intros j0 [m1 b1] Hj0 (Hsh & Hm & Hb). cbn [fst snd] in *.
    set (inner := for_range 0 8 (fun k st =>
          (setM st.1 j0 k (getM st.1 j0 k + getM A i j0 * getM A i k), st.2)) (m1, b1)).
    assert (shaped 8 inner.1 inner.2
      /\ inner.2 = b1
      /\ (forall j k, j <> j0 -> getM inner.1 j k = getM m1 j k)
      /\ (forall k, (k < 8)%nat ->
            getM inner.1 j0 k == if (k <? 8)%nat
                                 then getM m1 j0 k + getM A i j0 * getM A i k
                                 else getM m1 j0 k)) as (I1 & I2 & I3 & I4).
    { unfold inner.
      apply (for_range_ind (fun k0 (st : list (list Q) * list Q) =>
        shaped 8 st.1 st.2
        /\ st.2 = b1
        /\ (forall j k, j <> j0 -> getM st.1 j k = getM m1 j k)
        /\ (forall k, (k < 8)%nat ->
              getM st.1 j0 k == if (k <? k0)%nat
                                then getM m1 j0 k + getM A i j0 * getM A i k
                                else getM m1 j0 k)) 0 8); [lia| |].
      - simpl. split; [exact Hsh|]. split; [reflexivity|]. split; intros; reflexivity.
      - intros k0 [m2 b2] Hk0 (S1 & S2 & S3 & S4). cbn [fst snd] in *.
        pose proof S1 as (Sl & Sr & Sb).
        split; [apply shaped_setM; [lia|exact S1]|]. split; [exact S2|]. split.
        + intros j k Hj. rewrite getM_setM_ne by (try lia; left; congruence). now apply S3.
        + intros k Hk. destruct (decide (k = k0)) as [->|Hne].
          * rewrite getM_setM_eq by (rewrite ?Sr; lia). rewrite (S4 k0 Hk).
            rewrite Nat.ltb_irrefl.
            assert ((k0 <? S k0)%nat = true) as -> by (apply Nat.ltb_lt; lia). reflexivity.
          * rewrite getM_setM_ne by (try lia; right; congruence). rewrite (S4 k Hk).
            assert ((k <? S k0)%nat = (k <? k0)%nat) as ->; [|reflexivity].
            destruct (k <? k0)%nat eqn:E1, (k <? S k0)%nat eqn:E2; try reflexivity;
              [apply Nat.ltb_lt in E1; apply Nat.ltb_ge in E2
              |apply Nat.ltb_ge in E1; apply Nat.ltb_lt in E2]; lia. }
    pose proof I1 as (Il & Ir & Ib).
    split; [now apply shaped_setQ|]. split.
    + intros j k Hj Hk. destruct (decide (j = j0)) as [->|Hne].
      * rewrite (I4 k Hk).
        assert ((k <? 8)%nat = true) as -> by (apply Nat.ltb_lt; exact Hk).
        assert ((j0 <? S j0)%nat = true) as -> by (apply Nat.ltb_lt; lia).
        rewrite (Hm j0 k Hj Hk), Nat.ltb_irrefl. reflexivity.
      * rewrite I3 by exact Hne. rewrite (Hm j k Hj Hk).
        assert ((j <? S j0)%nat = (j <? j0)%nat) as ->; [|reflexivity].
        destruct (j <? j0)%nat eqn:E1, (j <? S j0)%nat eqn:E2; try reflexivity;
          [apply Nat.ltb_lt in E1; apply Nat.ltb_ge in E2
          |apply Nat.ltb_ge in E1; apply Nat.ltb_lt in E2]; lia.
    + intros j Hj. rewrite I2. destruct (decide (j = j0)) as [->|Hne].
      * rewrite getQ_setQ_eq by (destruct Hsh as (_ & _ & Hlb); lia).
        assert ((j0 <? S j0)%nat = true) as -> by (apply Nat.ltb_lt; lia).
        rewrite (Hb j0 Hj), Nat.ltb_irrefl. reflexivity.
      * rewrite getQ_setQ_ne by congruence. rewrite (Hb j Hj).
        assert ((j <? S j0)%nat = (j <? j0)%nat) as ->; [|reflexivity].
        destruct (j <? j0)%nat eqn:E1, (j <? S j0)%nat eqn:E2; try reflexivity;
          [apply Nat.ltb_lt in E1; apply Nat.ltb_ge in E2
          |apply Nat.ltb_ge in E1; apply Nat.ltb_lt in E2]; lia.
Qed.

Lemma getM_replicate (n i j : nat) : getM (replicate n (replicate n 0)) i j == 0.
Proof.
  unfold getM, getQ. destruct (replicate n (replicate n 0) !! i) as [row|] eqn:E.
  - apply lookup_replicate in E as [-> _]. simpl.
    destruct (replicate n 0 !! j) as [v|] eqn:E2; [|reflexivity].
    apply lookup_replicate in E2 as [-> _]. reflexivity.
  - reflexivity.
Qed.

Lemma shaped_replicate (n : nat) : shaped n (replicate n (replicate n 0)) (replicate n 0).
Proof.
  split; [apply length_replicate|]. split; [|apply length_replicate].
  intros r Hr. unfold getRow. rewrite lookup_replicate_2 by exact Hr. apply length_replicate.
Qed.

Lemma normalEquations_spec (A : list (list Q)) :
  let st := normalEquations 8 A in
  shaped 8 st.1 st.2
  /\ (forall j k, (j < 8)%nat -> (k < 8)%nat ->
        getM st.1 j k == Qsum (fun i => getM A i j * getM A i k) (seq 0 8))
  /\ (forall j, (j < 8)%nat ->
        getQ st.2 j == Qsum (fun i => getM A i j * (- getM A i 8)) (seq 0 8)).
Proof.
  intros st. unfold st, normalEquations.
  apply (for_range_ind (fun i0 (st : list (list Q) * list Q) =>
    shaped 8 st.1 st.2
    /\ (forall j k, (j < 8)%nat -> (k < 8)%nat ->
          getM st.1 j k == Qsum (fun i => getM A i j * getM A i k) (seq 0 i0))
    /\ (forall j, (j < 8)%nat ->
          getQ st.2 j == Qsum (fun i => getM A i j * (- getM A i 8)) (seq 0 i0))) 0 8);
    [lia| |].
  - cbn [fst snd]. split; [apply shaped_replicate|]. split.
    + intros j k _ _. apply getM_replicate.
    + intros j Hj. unfold getQ. rewrite lookup_replicate_2 by exact Hj. reflexivity.
  - intros i [m0 b0] Hi (Hsh & Hm & Hb). cbn [fst snd] in *.
    destruct (accumulateRow_spec A i m0 b0 Hsh) as (R1 & R2 & R3).
    split; [exact R1|]. split.
    + intros j k Hj Hk. rewrite (R2 j k Hj Hk), (Hm j k Hj Hk).
      rewrite seq_S, Qsum_app. simpl. ring.
    + intros j Hj. rewrite (R3 j Hj), (Hb j Hj).
      rewrite seq_S, Qsum_app. simpl. ring.
Qed.

(** ** The matrix of the four correspondences *)

Lemma getM_cons_0 (row : list Q) (m : list (list Q)) (j : nat) :
  getM (row :: m) 0 j = getQ row j.
Proof. reflexivity. Qed.

Lemma getM_cons_S (row : list Q) (m : list (list Q)) (i j : nat) :
  getM (row :: m) (S i) j = getM m i j.
Proof. reflexivity. Qed.

Lemma getQ_cons_0 (v : Q) (l : list Q) : getQ (v :: l) 0 = v.
Proof. reflexivity. Qed.

Lemma getQ_cons_S (v : Q) (l : list Q) (j : nat) : getQ (v :: l) (S j) = getQ l j.
Proof. reflexivity. Qed.

Lemma buildMatrix_rect (ow oh : nat) (p0 p1 p2 p3 : Point) :
  buildMatrix (destinationCorners ow oh) [p0; p1; p2; p3]
  = rectMatrix (Qnat ow) (Qnat oh) p0 p1 p2 p3.
Proof. reflexivity. Qed.

(** Writes out the entries of [rectMatrix] in the hypotheses and the goal. *)
Ltac matrix_entries :=
  unfold rowDot, columnDot, Qsum, rectMatrix, correspondenceRows in *;
  cbn [app px py seq foldr] in *;
  repeat (rewrite getM_cons_0 in * || rewrite getM_cons_S in *
          || rewrite getQ_cons_0 in * || rewrite getQ_cons_S in * ).

Lemma Qmult_nonzero (a b : Q) : ~ a == 0 -> a * b == 0 -> b == 0.
Proof. intros Ha Hab. destruct (Qmult_integral _ _ Hab) as [H|H]; [contradiction|exact H]. Qed.

(** The 8 x 8 part of the matrix is nonsingular, and so is its transpose,
    as soon as the corners [p1 p2 p3] are not on a line. *)
Lemma rectMatrix_kernel (W H : Q) (p0 p1 p2 p3 : Point) (x : nat -> Q) :
  ~ W == 0 -> ~ H == 0 -> ~ collinear p1 p2 p3 ->
  (forall r, (r < 8)%nat -> rowDot 8 (rectMatrix W H p0 p1 p2 p3) r x == 0) ->
  forall j, (j < 8)%nat -> x j == 0.
Proof.
  intros HW HH Hcol Hrows. unfold collinear, cross in Hcol.
  pose proof (Hrows 0%nat ltac:(lia)) as R0. pose proof (Hrows 1%nat ltac:(lia)) as R1.
  pose proof (Hrows 2%nat ltac:(lia)) as R2. pose proof (Hrows 3%nat ltac:(lia)) as R3.
  pose proof (Hrows 4%nat ltac:(lia)) as R4. pose proof (Hrows 5%nat ltac:(lia)) as R5.
  pose proof (Hrows 6%nat ltac:(lia)) as R6. pose proof (Hrows 7%nat ltac:(lia)) as R7.
  clear Hrows.
  assert (x 0%nat == 0 /\ x 1%nat == 0 /\ x 2%nat == 0 /\ x 3%nat == 0
          /\ x 4%nat == 0 /\ x 5%nat == 0 /\ x 6%nat == 0 /\ x 7%nat == 0)
    as (? & ? & ? & ? & ? & ? & ? & ?);
    [|intros j Hj; destruct j as [|[|[|[|[|[|[|[|j]]]]]]]]; try assumption; lia].
  matrix_entries.
  set (x0 := x 0%nat) in *. set (x1 := x 1%nat) in *. set (x2 := x 2%nat) in *.
  set (x3 := x 3%nat) in *. set (x4 := x 4%nat) in *. set (x5 := x 5%nat) in *.
  set (x6 := x 6%nat) in *. set (x7 := x 7%nat) in *.
  set (a1 := px p1) in *. set (b1 := py p1) in *. set (a2 := px p2) in *.
  set (b2 := py p2) in *. set (a3 := px p3) in *. set (b3 := py p3) in *.
  set (a0 := px p0) in *. set (b0 := py p0) in *.
  clearbody x0 x1 x2 x3 x4 x5 x6 x7 a0 b0 a1 b1 a2 b2 a3 b3.
  assert (x2 == 0) as E2 by lra. assert (x5 == 0) as E5 by lra.
  assert (W * ((a2 - a1) * x6) + H * ((a2 - a3) * x7) == 0) as A1 by lra.
  assert (W * ((b2 - b1) * x6) + H * ((b2 - b3) * x7) == 0) as A2 by lra.
  assert (W * (((a2 - a1) * (b3 - b1) - (b2 - b1) * (a3 - a1)) * x6) == 0) as E6
    by (clear - A1 A2; nsatz).
  assert (H * (((a2 - a1) * (b3 - b1) - (b2 - b1) * (a3 - a1)) * x7) == 0) as E7
    by (clear - A1 A2; nsatz).
  apply (Qmult_nonzero _ _ HW), (Qmult_nonzero _ _ Hcol) in E6.
  apply (Qmult_nonzero _ _ HH), (Qmult_nonzero _ _ Hcol) in E7.
  assert (W * x0 == 0) as E0 by (clear - R2 E2 E6 E7; nsatz).
  assert (W * x3 == 0) as E3 by (clear - R3 E5 E6 E7; nsatz).
  assert (H * x1 == 0) as E1 by (clear - R6 E2 E6 E7; nsatz).
  assert (H * x4 == 0) as E4 by (clear - R7 E5 E6 E7; nsatz).
  apply (Qmult_nonzero _ _ HW) in E0, E3. apply (Qmult_nonzero _ _ HH) in E1, E4.
  repeat split; assumption.
Qed.

Lemma rectMatrix_cokernel (W H : Q) (p0 p1 p2 p3 : Point) (u : nat -> Q) :
  ~ W == 0 -> ~ H == 0 -> ~ collinear p1 p2 p3 ->
  (forall j, (j < 8)%nat -> columnDot 8 (rectMatrix W H p0 p1 p2 p3) j u == 0) ->
  forall i, (i < 8)%nat -> u i == 0.
Proof.
  intros HW HH Hcol Hcols. unfold collinear, cross in Hcol.
  pose proof (Hcols 0%nat ltac:(lia)) as K0. pose proof (Hcols 1%nat ltac:(lia)) as K1.
  pose proof (Hcols 2%nat ltac:(lia)) as K2. pose proof (Hcols 3%nat ltac:(lia)) as K3.
  pose proof (Hcols 4%nat ltac:(lia)) as K4. pose proof (Hcols 5%nat ltac:(lia)) as K5.
  pose proof (Hcols 6%nat ltac:(lia)) as K6. pose proof (Hcols 7%nat ltac:(lia)) as K7.
  clear Hcols.
  assert (u 0%nat == 0 /\ u 1%nat == 0 /\ u 2%nat == 0 /\ u 3%nat == 0
          /\ u 4%nat == 0 /\ u 5%nat == 0 /\ u 6%nat == 0 /\ u 7%nat == 0)
    as (? & ? & ? & ? & ? & ? & ? & ?);
    [|intros i Hi; destruct i as [|[|[|[|[|[|[|[|i]]]]]]]]; try assumption; lia].
  matrix_entries.
  set (u0 := u 0%nat) in *. set (u1 := u 1%nat) in *. set (u2 := u 2%nat) in *.
  set (u3 := u 3%nat) in *. set (u4 := u 4%nat) in *. set (u5 := u 5%nat) in *.
  set (u6 := u 6%nat) in *. set (u7 := u 7%nat) in *.
  set (a1 := px p1) in *. set (b1 := py p1) in *. set (a2 := px p2) in *.
  set (b2 := py p2) in *. set (a3 := px p3) in *. set (b3 := py p3) in *.
  set (a0 := px p0) in *. set (b0 := py p0) in *.
  clearbody u0 u1 u2 u3 u4 u5 u6 u7 a0 b0 a1 b1 a2 b2 a3 b3.
  assert (W * (u2 + u4) == 0) as S24 by lra. assert (H * (u4 + u6) == 0) as S46 by lra.
  assert (W * (u3 + u5) == 0) as S35 by lra. assert (H * (u5 + u7) == 0) as S57 by lra.
  apply (Qmult_nonzero _ _ HW) in S24, S35. apply (Qmult_nonzero _ _ HH) in S46, S57.
  assert (u0 + u2 + u4 + u6 == 0) as T0 by lra.
  assert (u1 + u3 + u5 + u7 == 0) as T1 by lra.
  assert (W * ((a1 - a2) * u2 + (b1 - b2) * u3) == 0) as A1
    by (clear - K6 S24 S35; nsatz).
  assert (H * ((a3 - a2) * u2 + (b3 - b2) * u3) == 0) as A2
    by (clear - K7 S24 S35 S46 S57; nsatz).
  apply (Qmult_nonzero _ _ HW) in A1. apply (Qmult_nonzero _ _ HH) in A2.
  assert (((a2 - a1) * (b3 - b1) - (b2 - b1) * (a3 - a1)) * u2 == 0) as E2
    by (clear - A1 A2; nsatz).
  assert (((a2 - a1) * (b3 - b1) - (b2 - b1) * (a3 - a1)) * u3 == 0) as E3
    by (clear - A1 A2; nsatz).
  apply (Qmult_nonzero _ _ Hcol) in E2, E3.
  repeat split; lra.
Qed.

(** ** The normal equations of a nonsingular matrix *)

Lemma Qsum_square (a : nat -> nat -> Q) (x : nat -> Q) (rows cols : list nat) :
  Qsum (fun r => x r * Qsum (fun k => Qsum (fun i => a i r * a i k) rows * x k) cols) cols
  == Qsum (fun i => Qsum (fun r => a i r * x r) cols * Qsum (fun r => a i r * x r) cols) rows.
Proof.
  transitivity (Qsum (fun r => Qsum (fun i => Qsum (fun k => a i r * x r * (a i k * x k)) cols)
                               rows) cols).
  - apply Qsum_ext. intros r _.
    rewrite <- Qsum_scale. rewrite Qsum_swap. apply Qsum_ext. intros k _.
    transitivity ((x r * x k) * Qsum (fun i => a i r * a i k) rows); [ring|].
    rewrite <- Qsum_scale. apply Qsum_ext. intros i _. ring.
  - rewrite Qsum_swap. apply Qsum_ext. intros i _.
    transitivity (Qsum (fun r => Qsum (fun r => a i r * x r) cols * (a i r * x r)) cols).
    + apply Qsum_ext. intros r _.
      rewrite (Qsum_scale (a i r * x r) (fun k => a i k * x k)). ring.
    + apply Qsum_scale.
Qed.

Lemma normalEquations_nonsingular (A : list (list Q)) :
  nonsingular 8 A -> nonsingular 8 (normalEquations 8 A).1.
Proof.
  intros HA x Hx. destruct (normalEquations_spec A) as (_ & HM & _). cbv zeta in HM.
  apply HA. intros i Hi.
  assert (Qsum (fun i => rowDot 8 A i x * rowDot 8 A i x) (seq 0 8) == 0) as Hsq.
  { unfold rowDot. rewrite <- (Qsum_square (getM A) x (seq 0 8) (seq 0 8)).
    apply Qsum_zero. intros r Hr. apply elem_of_seq in Hr.
    specialize (Hx r ltac:(lia)). unfold rowDot in Hx.
    rewrite (Qsum_ext _ (fun k => getM (normalEquations 8 A).1 r k * x k)).
    - rewrite Hx. ring.
    - intros k Hk. apply elem_of_seq in Hk. rewrite HM by lia. reflexivity. }
  assert (rowDot 8 A i x * rowDot 8 A i x == 0) as Hi0.
  { apply (Qsum_nonneg_zero (fun i => rowDot 8 A i x * rowDot 8 A i x) (seq 0 8)).
    - intros j _. nra.
    - exact Hsq.
    - apply elem_of_seq. lia. }
  nra.
Qed.

(** A solution of the normal equations of [A h = - a8] solves the
    equations themselves when the rows of [A] are independent. *)
Lemma normalEquations_residual (A : list (list Q)) (x : nat -> Q) :
  (forall u, (forall j, (j < 8)%nat -> columnDot 8 A j u == 0) ->
             forall i, (i < 8)%nat -> u i == 0) ->
  solves 8 (normalEquations 8 A).1 (normalEquations 8 A).2 1 x ->
  forall i, (i < 8)%nat -> rowDot 8 A i x + getM A i 8 == 0.
Proof.
  intros Hco Hsol. destruct (normalEquations_spec A) as (_ & HM & Hb). cbv zeta in HM, Hb.
  apply (Hco (fun i => rowDot 8 A i x + getM A i 8)).
  intros j Hj. unfold columnDot.
  specialize (Hsol j Hj). rewrite (Hb j Hj) in Hsol. unfold rowDot in Hsol.
  rewrite (Qsum_ext _ (fun k => Qsum (fun i => getM A i j * getM A i k) (seq 0 8) * x k)) in Hsol
    by (intros k Hk; apply elem_of_seq in Hk; rewrite HM by lia; reflexivity).
  rewrite (Qsum_ext _ (fun i => getM A i j * rowDot 8 A i x + getM A i j * getM A i 8))
    by (intros; ring).
  rewrite Qsum_add.
  rewrite (Qsum_ext (fun i => getM A i j * - getM A i 8)
                    (fun i => (-1) * (getM A i j * getM A i 8))) in Hsol by (intros; ring).
  rewrite Qsum_scale in Hsol.
  assert (Qsum (fun i => getM A i j * rowDot 8 A i x) (seq 0 8)
          == Qsum (fun k => Qsum (fun i => getM A i j * getM A i k) (seq 0 8) * x k) (seq 0 8))
    as Hswap.
  { unfold rowDot.
    transitivity (Qsum (fun i => Qsum (fun k => getM A i j * getM A i k * x k) (seq 0 8))
                       (seq 0 8)).
    - apply Qsum_ext. intros i _. rewrite <- Qsum_scale. apply Qsum_ext. intros k _. ring.
    - rewrite Qsum_swap. apply Qsum_ext. intros k _.
      transitivity (x k * Qsum (fun i => getM A i j * getM A i k) (seq 0 8)); [|ring].
      rewrite <- Qsum_scale. apply Qsum_ext. intros i _. ring. }
  rewrite Hswap, Hsol. ring.
Qed.

(** ** The homography of four correspondences *)

(** The equations of the four correspondences determine the images of the
    corners of the rectangle, and the projective divisor does not vanish
    there when no three corners of the quadrilateral are on a line. *)
Lemma homography_corners (W H : Q) (p0 p1 p2 p3 : Point) (h : nat -> Q) :
  generalPosition [p0; p1; p2; p3] -> h 8%nat == 1 ->
  (forall i, (i < 8)%nat ->
     rowDot 8 (rectMatrix W H p0 p1 p2 p3) i h + getM (rectMatrix W H p0 p1 p2 p3) i 8 == 0) ->
  (h 2%nat == px p0 /\ h 5%nat == py p0)
  /\ (~ h 6%nat * W + h 8%nat == 0
      /\ h 0%nat * W + h 2%nat == px p1 * (h 6%nat * W + h 8%nat)
      /\ h 3%nat * W + h 5%nat == py p1 * (h 6%nat * W + h 8%nat))
  /\ (~ h 6%nat * W + h 7%nat * H + h 8%nat == 0
      /\ h 0%nat * W + h 1%nat * H + h 2%nat == px p2 * (h 6%nat * W + h 7%nat * H + h 8%nat)
      /\ h 3%nat * W + h 4%nat * H + h 5%nat == py p2 * (h 6%nat * W + h 7%nat * H + h 8%nat))
  /\ (~ h 7%nat * H + h 8%nat == 0
      /\ h 1%nat * H + h 2%nat == px p3 * (h 7%nat * H + h 8%nat)
      /\ h 4%nat * H + h 5%nat == py p3 * (h 7%nat * H + h 8%nat)).
Proof.
  intros (G012 & G013 & G023 & _) H8 Heq.
  unfold collinear, cross, getP in G012, G013, G023. cbn in G012, G013, G023.
  pose proof (Heq 0%nat ltac:(lia)) as E0. pose proof (Heq 1%nat ltac:(lia)) as E1.
  pose proof (Heq 2%nat ltac:(lia)) as E2. pose proof (Heq 3%nat ltac:(lia)) as E3.
  pose proof (Heq 4%nat ltac:(lia)) as E4. pose proof (Heq 5%nat ltac:(lia)) as E5.
  pose proof (Heq 6%nat ltac:(lia)) as E6. pose proof (Heq 7%nat ltac:(lia)) as E7.
  clear Heq. matrix_entries.
  set (h0 := h 0%nat) in *. set (h1 := h 1%nat) in *. set (h2 := h 2%nat) in *.
  set (h3 := h 3%nat) in *. set (h4 := h 4%nat) in *. set (h5 := h 5%nat) in *.
  set (h6 := h 6%nat) in *. set (h7 := h 7%nat) in *. set (h8 := h 8%nat) in *.
  set (a1 := px p1) in *. set (b1 := py p1) in *. set (a2 := px p2) in *.
  set (b2 := py p2) in *. set (a3 := px p3) in *. set (b3 := py p3) in *.
  set (a0 := px p0) in *. set (b0 := py p0) in *.
  clearbody h0 h1 h2 h3 h4 h5 h6 h7 h8 a0 b0 a1 b1 a2 b2 a3 b3.
  assert (h2 == a0) as F0 by lra. assert (h5 == b0) as F1 by lra.
  assert (h0 * W + h2 == a1 * (h6 * W + h8)) as F2 by (rewrite H8; lra).
  assert (h3 * W + h5 == b1 * (h6 * W + h8)) as F3 by (rewrite H8; lra).
  assert (h0 * W + h1 * H + h2 == a2 * (h6 * W + h7 * H + h8)) as F4 by (rewrite H8; lra).
  assert (h3 * W + h4 * H + h5 == b2 * (h6 * W + h7 * H + h8)) as F5 by (rewrite H8; lra).
  assert (h1 * H + h2 == a3 * (h7 * H + h8)) as F6 by (rewrite H8; lra).
  assert (h4 * H + h5 == b3 * (h7 * H + h8)) as F7 by (rewrite H8; lra).
  clear E0 E1 E2 E3 E4 E5 E6 E7.
  split; [split; assumption|].
  split; [split; [|split; assumption]|split; [split; [|split; assumption]|split; [|split; assumption]]].
  all: intros Hw;
    set (w1 := h6 * W + h8) in *; set (w2 := h6 * W + h7 * H + h8) in *;
    set (w3 := h7 * H + h8) in *;
    assert (w1 + w3 == h8 + w2) as K by (unfold w1, w2, w3; ring);
    clearbody w1 w2 w3;
    assert (a1 * w1 + a3 * w3 == a0 + a2 * w2) as X by lra;
    assert (b1 * w1 + b3 * w3 == b0 + b2 * w2) as Y by lra.
  - apply G023. clear - X Y K H8 Hw. nsatz.
  - apply G013. clear - X Y K H8 Hw. nsatz.
  - apply G012. clear - X Y K H8 Hw. nsatz.
Qed.

(** The matrix [computeHomography] returns for the rectangle of an output
    canvas satisfies the eight equations of the four correspondences. *)
Lemma computeHomography_equations (ow oh : nat) (p0 p1 p2 p3 : Point) :
  ~ Qnat ow == 0 -> ~ Qnat oh == 0 -> ~ collinear p1 p2 p3 ->
  let A := rectMatrix (Qnat ow) (Qnat oh) p0 p1 p2 p3 in
  let Hm := computeHomography (destinationCorners ow oh) [p0; p1; p2; p3] in
  length Hm = 9%nat /\ getQ Hm 8 = 1
  /\ forall i, (i < 8)%nat -> rowDot 8 A i (getQ Hm) + getM A i 8 == 0.
Proof.
  intros HW HH Hcol A Hm. unfold Hm, computeHomography. rewrite buildMatrix_rect. fold A.
  unfold solveHomography.
  destruct (normalEquations_spec A) as (Hs & _). cbv zeta in Hs.
  assert (nonsingular 8 (normalEquations 8 A).1) as Hns.
  { apply normalEquations_nonsingular. intros x. now apply rectMatrix_kernel. }
  pose proof (normalEquations_residual A) as Hres.
  destruct (normalEquations 8 A) as [AtA Atb]. cbn [fst snd] in *.
  destruct (solve_spec 8 AtA Atb Hs Hns) as [Hlen Hsol]. cbv zeta in Hlen, Hsol.
  set (x := backSubstitution 8 _ _) in *. clearbody x.
  split; [rewrite length_app, Hlen; reflexivity|].
  split; [unfold getQ; rewrite lookup_app_r, Hlen by lia; reflexivity|].
  intros i Hi.
  assert (rowDot 8 A i (getQ (x ++ [1])) == rowDot 8 A i (getQ x)) as ->.
  { apply Qsum_ext. intros j Hj. apply elem_of_seq in Hj.
    unfold getQ. rewrite lookup_app_l by lia. reflexivity. }
  apply Hres; [|exact Hsol|exact Hi].
  intros u. now apply rectMatrix_cokernel.
Qed.

Lemma sourceCoordinates_reproduces (Hm : list Q) (x y : nat) (p : Point) :
  ~ projectiveDivisor Hm x y == 0 ->
  getQ Hm 0 * Qnat x + getQ Hm 1 * Qnat y + getQ Hm 2 == px p * projectiveDivisor Hm x y ->
  getQ Hm 3 * Qnat x + getQ Hm 4 * Qnat y + getQ Hm 5 == py p * projectiveDivisor Hm x y ->
  reproduces (sourceCoordinates Hm x y) p.
Proof.
  unfold sourceCoordinates, projectiveDivisor, xdiv. intros Hw Hx Hy.
  set (w := getQ Hm 6 * Qnat x + getQ Hm 7 * Qnat y + getQ Hm 8) in *.
  apply Qeqb_false in Hw. apply negb_true_iff in Hw. rewrite Hw. cbn [reproduces].
  apply negb_true_iff, Qeqb_true in Hw.
  split; [rewrite Hx|rewrite Hy]; field; exact Hw.
Qed.

Lemma Qnat_nonzero (n : nat) : (0 < n)%nat -> ~ Qnat n == 0.
Proof.
  intros Hn Hq. unfold Qnat, Qeq, inject_Z in Hq. cbn [Qnum Qden] in Hq. lia.
Qed.

(** C7: under exact rational arithmetic the matrix solved from
    the four correspondences of the rectangle [(0,0), (W,0), (W,H), (0,H)]
    to a quadrilateral no three corners of which are on a line sends each
    corner of the rectangle to the corresponding corner of the
    quadrilateral: the projective division is defined there and gives the
    corner's coordinates. *)
Theorem computeHomography_round_trip (ow oh : nat) (p0 p1 p2 p3 : Point) :
  (0 < ow)%nat -> (0 < oh)%nat -> generalPosition [p0; p1; p2; p3] ->
  let Hm := computeHomography (destinationCorners ow oh) [p0; p1; p2; p3] in
  reproduces (sourceCoordinates Hm 0 0) p0
  /\ reproduces (sourceCoordinates Hm ow 0) p1
  /\ reproduces (sourceCoordinates Hm ow oh) p2
  /\ reproduces (sourceCoordinates Hm 0 oh) p3.
Proof.
  intros Hw Hh Hgp Hm.
  pose proof (Qnat_nonzero ow Hw) as HW. pose proof (Qnat_nonzero oh Hh) as HH.
  assert (~ collinear p1 p2 p3) as Hcol by (destruct Hgp as (_ & _ & _ & G); exact G).
  destruct (computeHomography_equations ow oh p0 p1 p2 p3 HW HH Hcol) as (_ & H8 & Heq).
  cbv zeta in H8, Heq. fold Hm in H8, Heq.
  assert (getQ Hm 8 == 1) as H8' by (rewrite H8; reflexivity).
  destruct (homography_corners (Qnat ow) (Qnat oh) p0 p1 p2 p3 (getQ Hm) Hgp H8' Heq)
    as ((F0 & F1) & (W1 & X1 & Y1) & (W2 & X2 & Y2) & (W3 & X3 & Y3)).
  clear Heq. clearbody Hm.
  repeat split; apply sourceCoordinates_reproduces; unfold projectiveDivisor;
    change (Qnat 0) with 0; try (intros Hc; first [apply W1|apply W2|apply W3]; lra); try lra.
  all: rewrite H8; lra.
Qed.

Lemma computeHomography_round_trip_witness :
  let Hm := computeHomography (destinationCorners 6 5)
              [mkPoint 1 1; mkPoint 9 2; mkPoint 8 7; mkPoint 0 6] in
  reproduces (sourceCoordinates Hm 0 0) (mkPoint 1 1)
  /\ reproduces (sourceCoordinates Hm 6 0) (mkPoint 9 2)
  /\ reproduces (sourceCoordinates Hm 6 5) (mkPoint 8 7)
  /\ reproduces (sourceCoordinates Hm 0 5) (mkPoint 0 6).
Proof.
  apply (computeHomography_round_trip 6 5 (mkPoint 1 1) (mkPoint 9 2) (mkPoint 8 7) (mkPoint 0 6));
    [lia|lia|].
  repeat split; intros Hc; vm_compute in Hc; discriminate Hc.
Defined.

(** ** Resampling through the full image rectangle *)

Lemma toUint8Clamp_byte (b : Z) : (0 <= b <= 255)%Z -> toUint8Clamp (inject_Z b) = b.
Proof.
  intros Hb. unfold toUint8Clamp.
  destruct (Qleb (inject_Z b) 0) eqn:E0.
  { apply Qleb_le in E0. change 0 with (inject_Z 0) in E0. rewrite <- Zle_Qle in E0. lia. }
  destruct (Qleb 255 (inject_Z b)) eqn:E1.
  { apply Qleb_le in E1. change 255 with (inject_Z 255) in E1. rewrite <- Zle_Qle in E1. lia. }
  unfold roundHalfEven. rewrite Qfloor_Z.
  assert (Qltb (inject_Z b - inject_Z b) (1 # 2) = true) as ->; [|reflexivity].
  apply Qltb_lt. lra.
Qed.

(** In exact arithmetic the matrix solved for the full rectangle of the
    canvas is the identity. *)
Lemma computeHomography_identity (ow oh : nat) :
  (0 < ow)%nat -> (0 < oh)%nat ->
  forall k, (k < 9)%nat ->
    getQ (computeHomography (destinationCorners ow oh) (destinationCorners ow oh)) k
    == identityEntry k.
Proof.
  intros Hw Hh.
  pose proof (Qnat_nonzero ow Hw) as HW. pose proof (Qnat_nonzero oh Hh) as HH.
  set (W := Qnat ow) in *. set (H := Qnat oh) in *.
  assert (~ collinear (mkPoint W 0) (mkPoint W H) (mkPoint 0 H)) as Hcol.
  { unfold collinear, cross. cbn [px py]. intros Hc.
    assert (W * H == 0) as Hc' by lra.
    apply (Qmult_nonzero _ _ HW) in Hc'. contradiction. }
  destruct (computeHomography_equations ow oh (mkPoint 0 0) (mkPoint W 0) (mkPoint W H)
              (mkPoint 0 H) HW HH Hcol) as (_ & H8 & Heq).
  cbv zeta in H8, Heq. fold W H in Heq.
  change [mkPoint 0 0; mkPoint W 0; mkPoint W H; mkPoint 0 H]
    with (destinationCorners ow oh) in H8, Heq.
  set (Hm := computeHomography (destinationCorners ow oh) (destinationCorners ow oh)) in *.
  clearbody Hm.
  pose proof (rectMatrix_kernel W H (mkPoint 0 0) (mkPoint W 0) (mkPoint W H) (mkPoint 0 H)
                (fun j => getQ Hm j - identityEntry j) HW HH Hcol) as Hker.
  assert (forall j, (j < 8)%nat -> getQ Hm j - identityEntry j == 0) as Hz.
  { apply Hker. intros r Hr. specialize (Heq r Hr). clear Hker.
    destruct r as [|[|[|[|[|[|[|[|r]]]]]]]]; try lia;
      unfold identityEntry in *; matrix_entries; lra. }
  intros k Hk. destruct (decide (k = 8%nat)) as [-> | Hne].
  - rewrite H8. reflexivity.
  - specialize (Hz k ltac:(lia)). lra.
Qed.

(** A source position that is the pixel [(x, y)] itself has its whole
    neighbourhood inside the raster unless the pixel is in the last column
    or in the last row. *)
Lemma neighborhood_exact (src : ImageData) (sx sy : Q) (x y : nat) :
  sx == Qnat x -> sy == Qnat y ->
  neighborhood src (Fin sx, Fin sy)
  = if ((x + 1 <? width src) && (y + 1 <? height src))%nat
    then Some (Z.of_nat x, Z.of_nat y) else None.
Proof.
  intros Hx Hy. unfold neighborhood, Math_floor.
  rewrite (Qfloor_comp _ _ Hx), (Qfloor_comp _ _ Hy). unfold Qnat. rewrite !Qfloor_Z.
  destruct (Nat.ltb_spec (x + 1) (width src)) as [H1|H1];
    destruct (Nat.ltb_spec (y + 1) (height src)) as [H2|H2]; cbn [andb].
  - assert (((0 <=? Z.of_nat x) && (Z.of_nat x + 1 <? Z.of_nat (width src))
             && (0 <=? Z.of_nat y) && (Z.of_nat y + 1 <? Z.of_nat (height src)))%Z = true)
      as ->; [|reflexivity].
    rewrite !andb_true_iff, !Z.leb_le, !Z.ltb_lt. lia.
  - assert ((Z.of_nat y + 1 <? Z.of_nat (height src))%Z = false) as ->
      by (apply Z.ltb_ge; lia).
    rewrite andb_false_r. reflexivity.
  - assert ((Z.of_nat x + 1 <? Z.of_nat (width src))%Z = false) as ->
      by (apply Z.ltb_ge; lia).
    rewrite andb_false_r. reflexivity.
  - assert ((Z.of_nat x + 1 <? Z.of_nat (width src))%Z = false) as ->
      by (apply Z.ltb_ge; lia).
    rewrite andb_false_r. reflexivity.
Qed.

(** With both weights zero the interpolation returns the pixel it starts from. *)
Lemma bilinear_exact (src : ImageData) (sx sy : Q) (x y c : nat) :
  wellFormed src -> (x + 1 < width src)%nat -> (y + 1 < height src)%nat -> (c < 4)%nat ->
  sx == Qnat x -> sy == Qnat y ->
  exists v, bilinear src sx sy (Z.of_nat x) (Z.of_nat y) c = Some v
            /\ v == inject_Z (getZ (data src) ((y * width src + x) * 4 + c)).
Proof.
  intros Hwf Hx1 Hy1 Hc Hx Hy.
  pose proof (sampleIndices_inside src (Z.of_nat x) (Z.of_nat y) c Hwf ltac:(lia) Hc) as Hall.
  unfold sampleIndices in Hall.
  apply Forall_cons in Hall as [H00 Hall]. apply Forall_cons in Hall as [H01 Hall].
  apply Forall_cons in Hall as [H10 Hall]. apply Forall_cons in Hall as [H11 _].
  unfold bilinear.
  rewrite (readChannel_inside src _ H00), (readChannel_inside src _ H01),
          (readChannel_inside src _ H10), (readChannel_inside src _ H11).
  cbn [mbind option_bind]. eexists. split; [reflexivity|].
  replace (Z.to_nat ((Z.of_nat y * Z.of_nat (width src) + Z.of_nat x) * 4 + Z.of_nat c))
    with ((y * width src + x) * 4 + c)%nat by lia.
  rewrite Hx, Hy. unfold Qnat. ring.
Qed.

Lemma resampledByte_exact (src : ImageData) (sx sy : Q) (x y c : nat) :
  wellFormed src -> byteBuffer (data src) -> (c < 4)%nat ->
  sx == Qnat x -> sy == Qnat y ->
  resampledByte src (Fin sx, Fin sy) c
  = if ((x + 1 <? width src) && (y + 1 <? height src))%nat
    then getZ (data src) ((y * width src + x) * 4 + c) else 0%Z.
Proof.
  intros Hwf Hbytes Hc Hx Hy. unfold resampledByte.
  rewrite (neighborhood_exact src sx sy x y Hx Hy).
  destruct (Nat.ltb_spec (x + 1) (width src)) as [H1|H1]; [|reflexivity].
  destruct (Nat.ltb_spec (y + 1) (height src)) as [H2|H2]; [|reflexivity].
  cbn [andb].
  destruct (bilinear_exact src sx sy x y c Hwf H1 H2 Hc Hx Hy) as (v & -> & Hv).
  cbn [storeByte]. rewrite (toUint8Clamp_comp _ _ Hv). apply toUint8Clamp_byte.
  unfold getZ, byteBuffer in *.
  destruct (data src !! ((y * width src + x) * 4 + c)%nat) as [b|] eqn:E; cbn [default]; [|lia].
  exact (proj1 (Forall_lookup _ _) Hbytes _ _ E).
Qed.

(** ** toGrayscale *)

Lemma for_range_fill {A : Type} (n : nat) (f : nat -> A) (init : list A) (p : nat) :
  (p < n)%nat -> (p < length init)%nat ->
  for_range 0 n (fun p st => <[ p := f p ]> st) init !! p = Some (f p).
Proof.
  intros Hp Hlen.
  assert (length (for_range 0 n (fun p st => <[ p := f p ]> st) init) = length init
          /\ forall q, (q < n)%nat -> (q < length init)%nat ->
               for_range 0 n (fun p st => <[ p := f p ]> st) init !! q = Some (f q)) as [_ H];
    [|now apply H].
  apply (for_range_ind (fun i st => length st = length init
          /\ forall q, (q < i)%nat -> (q < length init)%nat -> st !! q = Some (f q)));
    [lia|split; [reflexivity|intros; lia]|].
  intros i st Hi [Hl IH]. split; [now rewrite length_insert|].
  intros q Hq Hq'. destruct (decide (q = i)) as [-> | Hne].
  - apply list_lookup_insert_eq. lia.
  - rewrite list_lookup_insert_ne by congruence. apply IH; lia.
Qed.

Lemma Math_round_Z (q : Q) (v : Z) : q == inject_Z v -> Math_round q = v.
Proof.
  intros Hq. unfold Math_round.
  pose proof (Qfloor_le (q + (1 # 2))) as Hlo. pose proof (Qlt_floor (q + (1 # 2))) as Hhi.
  set (f := Qfloor (q + (1 # 2))) in *. rewrite Hq in Hlo, Hhi.
  assert (inject_Z f < inject_Z (v + 1)) as H1 by (rewrite inject_Z_plus; change (inject_Z 1) with 1; lra).
  assert (inject_Z v < inject_Z (f + 1)) as H2
    by (rewrite inject_Z_plus in Hhi |- *; change (inject_Z 1) with 1 in *; lra).
  rewrite <- Zlt_Qlt in H1, H2. lia.
Qed.

(** On a raster whose buffer has the declared length, a pixel whose red,
    green and blue bytes are equal keeps that value: the three weights add
    up to 1 and the alpha byte is not read. *)
Theorem toGrayscale_gray_pixel (img : ImageData) (p : nat) (v : Z) :
  wellFormed img -> (p < width img * height img)%nat -> (0 <= v <= 255)%Z ->
  data img !! (4 * p)%nat = Some v ->
  data img !! (4 * p + 1)%nat = Some v ->
  data img !! (4 * p + 2)%nat = Some v ->
  toGrayscale img !! p = Some v.
Proof.
  intros Hwf Hp Hv Hr Hg Hb. unfold toGrayscale, wellFormed in *.
  rewrite (for_range_fill _ (fun p => luminance (data img !! (4 * p)%nat)
             (data img !! (4 * p + 1)%nat) (data img !! (4 * p + 2)%nat))).
  - rewrite Hr, Hg, Hb. cbn [luminance]. f_equal.
    rewrite (Math_round_Z _ v) by ring. now apply toUint8Clamp_byte.
  - rewrite Hwf. apply (Nat.div_le_lower_bound _ 4 (S p)); lia.
  - now rewrite length_replicate.
Qed.

Lemma toGrayscale_gray_pixel_witness :
  toGrayscale (mkImageData 2 1 [7; 7; 7; 255; 200; 200; 200; 0]%Z) !! 1%nat = Some 200%Z.
Proof.
  apply (toGrayscale_gray_pixel (mkImageData 2 1 [7; 7; 7; 255; 200; 200; 200; 0]%Z) 1 200);
    try reflexivity; cbn; lia.
Defined.

(** ** Flat regions *)

Ltac flat_reads H :=
  rewrite ?(H 0%nat 0%nat), ?(H 1%nat 0%nat), ?(H 2%nat 0%nat),
          ?(H 0%nat 1%nat), ?(H 1%nat 1%nat), ?(H 2%nat 1%nat),
          ?(H 0%nat 2%nat), ?(H 1%nat 2%nat), ?(H 2%nat 2%nat) by lia.

Lemma blurSum_flat (d : list Z) (w x y : nat) (v : Z) :
  flatAround d w x y v -> blurSum d w x y / kernelSum == inject_Z v.
Proof.
  intros Hflat. unfold blurSum, for_range. change (3 - 0)%nat with 3%nat.
  cbn [seq foldl]. flat_reads Hflat.
  change (kernelAt kernel 0 0) with 1. change (kernelAt kernel 0 1) with 2.
  change (kernelAt kernel 0 2) with 1. change (kernelAt kernel 1 0) with 2.
  change (kernelAt kernel 1 1) with 4. change (kernelAt kernel 1 2) with 2.
  change (kernelAt kernel 2 0) with 1. change (kernelAt kernel 2 1) with 2.
  change (kernelAt kernel 2 2) with 1. unfold kernelSum. field.
Qed.

(** Where the 3x3 neighbourhood of an interior pixel holds one byte, the
    blur returns that byte: the kernel weights add up to the divisor 16. *)
Theorem gaussianBlur_flat (d : list Z) (w h x y : nat) (v : Z) :
  length d = (w * h)%nat -> interior w h x y -> (0 <= v <= 255)%Z ->
  flatAround d w x y v ->
  gaussianBlur d w h !! (y * w + x)%nat = Some v.
Proof.
  intros Hlen Hint Hv Hflat. unfold gaussianBlur.
  rewrite (rasterScan_fill w h (fun x y => toUint8Clamp (blurSum d w x y / kernelSum)))
    by (rewrite ?length_replicate; unfold interior in Hint; (assumption || lia)).
  apply interiorb_spec in Hint as ->. f_equal.
  rewrite (toUint8Clamp_comp _ _ (blurSum_flat d w x y v Hflat)).
  now apply toUint8Clamp_byte.
Qed.

Lemma gaussianBlur_flat_witness :
  gaussianBlur (replicate 12 77%Z) 4 3 !! (1 * 4 + 2)%nat = Some 77%Z.
Proof.
  apply (gaussianBlur_flat (replicate 12 77%Z) 4 3 2 1 77);
    [reflexivity | unfold interior; lia | lia |].
  intros dx dy Hdx Hdy.
  destruct dx as [|[|[|dx]]]; try lia; destruct dy as [|[|[|dy]]]; try lia; reflexivity.
Defined.

(** Where the 3x3 neighbourhood of a pixel holds one value, both Sobel
    sums vanish: the weights of each kernel add up to 0. *)
Theorem gradient_flat (d : list Z) (w x y : nat) (v : Z) :
  flatAround d w x y v ->
  (gradient d w x y).1 == 0 /\ (gradient d w x y).2 == 0.
Proof.
  intros Hflat. unfold gradient, for_range. change (3 - 0)%nat with 3%nat.
  cbn [seq foldl fst snd]. flat_reads Hflat.
  change (kernelAt sobelX 0 0) with (-1). change (kernelAt sobelX 0 1) with 0.
  change (kernelAt sobelX 0 2) with 1. change (kernelAt sobelX 1 0) with (-2).
  change (kernelAt sobelX 1 1) with 0. change (kernelAt sobelX 1 2) with 2.
  change (kernelAt sobelX 2 0) with (-1). change (kernelAt sobelX 2 1) with 0.
  change (kernelAt sobelX 2 2) with 1.
  change (kernelAt sobelY 0 0) with (-1). change (kernelAt sobelY 0 1) with (-2).
  change (kernelAt sobelY 0 2) with (-1). change (kernelAt sobelY 1 0) with 0.
  change (kernelAt sobelY 1 1) with 0. change (kernelAt sobelY 1 2) with 0.
  change (kernelAt sobelY 2 0) with 1. change (kernelAt sobelY 2 1) with 2.
  change (kernelAt sobelY 2 2) with 1.
  split; lra.
Qed.

Lemma gradient_flat_witness :
  (gradient (replicate 12 77%Z) 4 2 1).1 == 0 /\ (gradient (replicate 12 77%Z) 4 2 1).2 == 0.
Proof.
  apply (gradient_flat (replicate 12 77%Z) 4 2 1 77).
  intros dx dy Hdx Hdy.
  destruct dx as [|[|[|dx]]]; try lia; destruct dy as [|[|[|dy]]]; try lia; reflexivity.
Defined.

(** ** sobelEdgeDetection *)

Lemma sobel_foldl (M : MathLib) (d : list Z) (w : nat) (ps : list (nat * nat)) (st : Gradients) :
  let body := fun (st : Gradients) (p : nat * nat) =>
    let g := gradient d w p.1 p.2 in
    let idx := (p.2 * w + p.1)%nat in
    {| magnitude :=
         <[ idx := Math_fround M (Math_sqrt M (g.1 * g.1 + g.2 * g.2)) ]> (magnitude st);
       direction := <[ idx := Math_fround M (Math_atan2 M g.2 g.1) ]> (direction st) |} in
  magnitude (foldl body st ps)
  = foldl (fun m p => <[ (p.2 * w + p.1)%nat :=
             Math_fround M
               (Math_sqrt M ((gradient d w p.1 p.2).1 * (gradient d w p.1 p.2).1
                             + (gradient d w p.1 p.2).2 * (gradient d w p.1 p.2).2)) ]> m)
          (magnitude st) ps
  /\ direction (foldl body st ps)
  = foldl (fun m p => <[ (p.2 * w + p.1)%nat :=
             Math_fround M
               (Math_atan2 M (gradient d w p.1 p.2).2 (gradient d w p.1 p.2).1) ]> m)
          (direction st) ps.
Proof.
  cbv zeta. revert st. induction ps as [|p ps IH]; intros st; [split; reflexivity|].
  cbn [foldl]. apply IH.
Qed.

(** Every interior pixel receives the square root of the sum of the
    squares of the two Sobel sums and the angle [atan2(gy, gx)], each
    rounded to single precision by the store into the [Float32Array]; the
    border keeps the 0 of the fresh arrays in both. *)
Theorem sobelEdgeDetection_pixels (M : MathLib) (d : list Z) (w h x y : nat) :
  length d = (w * h)%nat -> (x < w)%nat -> (y < h)%nat ->
  let g := gradient d w x y in
  let r := sobelEdgeDetection M d w h in
  magnitude r !! (y * w + x)%nat
  = Some (if interiorb w h x y
          then Math_fround M (Math_sqrt M (g.1 * g.1 + g.2 * g.2)) else 0)
  /\ direction r !! (y * w + x)%nat
  = Some (if interiorb w h x y then Math_fround M (Math_atan2 M g.2 g.1) else 0).
Proof.
  intros Hlen Hx Hy g r. unfold r, sobelEdgeDetection. rewrite rasterScan_foldl.
  destruct (sobel_foldl M d w (interiorPositions w h)
              {| magnitude := replicate (length d) 0; direction := replicate (length d) 0 |})
    as [Hm Hd].
  cbv zeta in Hm, Hd. rewrite Hm, Hd. cbn [magnitude direction].
  pose proof (rasterScan_fill w h
    (fun x y => Math_fround M
                  (Math_sqrt M ((gradient d w x y).1 * (gradient d w x y).1
                                + (gradient d w x y).2 * (gradient d w x y).2)))
    (replicate (length d) 0) x y ltac:(now rewrite length_replicate) Hx Hy) as Fm.
  pose proof (rasterScan_fill w h
    (fun x y => Math_fround M (Math_atan2 M (gradient d w x y).2 (gradient d w x y).1))
    (replicate (length d) 0) x y ltac:(now rewrite length_replicate) Hx Hy) as Fd.
  rewrite rasterScan_foldl in Fm, Fd. cbn [fst snd] in Fm, Fd.
  assert (replicate (length d) (0 : Q) !! (y * w + x)%nat = Some 0) as Hz.
  { apply lookup_replicate_2. rewrite Hlen. apply (pixelIndex_bound w h x y Hx Hy). }
  rewrite Hz in Fm, Fd. split.
  - etransitivity; [exact Fm|]. now destruct (interiorb w h x y).
  - etransitivity; [exact Fd|]. now destruct (interiorb w h x y).
Qed.

Lemma sobelEdgeDetection_pixels_witness :
  let d := [10; 20; 30; 40; 50; 60; 70; 80; 90; 1; 2; 3]%Z in
  let g := gradient d 4 1 1 in
  let r := sobelEdgeDetection sampleMath d 4 3 in
  magnitude r !! (1 * 4 + 1)%nat
  = Some (if interiorb 4 3 1 1
          then Math_fround sampleMath (Math_sqrt sampleMath (g.1 * g.1 + g.2 * g.2)) else 0)
  /\ direction r !! (1 * 4 + 1)%nat
  = Some (if interiorb 4 3 1 1
          then Math_fround sampleMath (Math_atan2 sampleMath g.2 g.1) else 0).
Proof.
  apply (sobelEdgeDetection_pixels sampleMath
           [10; 20; 30; 40; 50; 60; 70; 80; 90; 1; 2; 3]%Z 4 3 1 1); [reflexivity|lia|lia].
Defined.

(** ** nonMaxSuppression *)

(** Thinning never invents a magnitude: every cell of the result holds 0
    or the magnitude the input has there. *)
Theorem nonMaxSuppression_keeps_or_clears (mag dir : list Q) (w h i : nat) :
  (i < length mag)%nat ->
  nonMaxSuppression mag dir w h !! i = Some 0
  \/ nonMaxSuppression mag dir w h !! i = Some (getQ mag i).
Proof.
  intros Hi. unfold nonMaxSuppression.
  apply (rasterScan_invariant (fun st : list Q =>
           st !! i = Some 0 \/ st !! i = Some (getQ mag i))).
  - left. now apply lookup_replicate_2.
  - intros x y st IH. cbv zeta.
    destruct (_ && _); [|exact IH].
    destruct (decide (i = (y * w + x)%nat)) as [-> | Hne].
    + destruct IH as [IH|IH]; right; apply list_lookup_insert_eq;
        apply lookup_lt_Some in IH; exact IH.
    + rewrite list_lookup_insert_ne by congruence. exact IH.
Qed.

Lemma nonMaxSuppression_keeps_or_clears_witness :
  nonMaxSuppression [1; 2; 3; 4; 9; 6; 7; 8; 5] [0; 0; 0; 0; 0; 0; 0; 0; 0] 3 3 !! 4%nat = Some 0
  \/ nonMaxSuppression [1; 2; 3; 4; 9; 6; 7; 8; 5] [0; 0; 0; 0; 0; 0; 0; 0; 0] 3 3 !! 4%nat
     = Some (getQ [1; 2; 3; 4; 9; 6; 7; 8; 5] 4).
Proof.
  apply (nonMaxSuppression_keeps_or_clears [1; 2; 3; 4; 9; 6; 7; 8; 5]
           [0; 0; 0; 0; 0; 0; 0; 0; 0] 3 3 4). cbn. lia.
Defined.

(** ** doubleThreshold on a mask without edges *)

Lemma getQ_zero (edges : list Q) (i : nat) :
  Forall (fun q => q == 0) edges -> getQ edges i == 0.
Proof.
  intros Hall. unfold getQ. destruct (edges !! i) as [q|] eqn:E; [|reflexivity].
  exact (proj1 (Forall_lookup _ _) Hall _ _ E).
Qed.

Lemma maxMagnitude_zero (edges : list Q) :
  Forall (fun q => q == 0) edges -> maxMagnitude edges == 0.
Proof.
  intros Hall. unfold maxMagnitude.
  apply (for_range_invariant (fun m : Q => m == 0)); [reflexivity|].
  intros i m Hm. destruct (Qltb m (getQ edges i)); [now apply getQ_zero|exact Hm].
Qed.

(** When every magnitude is 0 the maximum is 0, both thresholds are 0 and
    every pixel passes [>= highThreshold]: the mask is 255 everywhere. *)
Theorem doubleThreshold_all_zero (edges : list Q) (w h : nat) :
  Forall (fun q => q == 0) edges ->
  doubleThreshold edges w h = replicate (length edges) 255%Z.
Proof.
  intros Hall. unfold doubleThreshold.
  pose proof (maxMagnitude_zero edges Hall) as Hmax.
  set (hi := maxMagnitude edges * 0.15). set (lo := hi * 0.4).
  assert (hi == 0) as Hhi by (unfold hi; rewrite Hmax; reflexivity).
  assert (applyThresholds edges hi lo = replicate (length edges) 255%Z) as ->.
  { unfold applyThresholds. apply list_eq. intros j.
    assert (length (for_range 0 (length edges) (fun i result =>
              if Qleb hi (getQ edges i) then <[ i := 255%Z ]> result
              else if Qleb lo (getQ edges i) then <[ i := 128%Z ]> result else result)
              (replicate (length edges) 0%Z)) = length edges
            /\ forall q, (q < length edges)%nat ->
                 for_range 0 (length edges) (fun i result =>
                   if Qleb hi (getQ edges i) then <[ i := 255%Z ]> result
                   else if Qleb lo (getQ edges i) then <[ i := 128%Z ]> result else result)
                   (replicate (length edges) 0%Z) !! q = Some 255%Z) as [Hlen Hval].
    { apply (for_range_ind (fun i (st : list Z) => length st = length edges
               /\ forall q, (q < i)%nat -> st !! q = Some 255%Z));
        [lia|split; [apply length_replicate|intros; lia]|].
      intros i st Hi [Hl IH].
      assert (Qleb hi (getQ edges i) = true) as ->.
      { apply Qleb_le. rewrite Hhi, (getQ_zero edges i Hall). lra. }
      split; [now rewrite length_insert|].
      intros q Hq. destruct (decide (q = i)) as [-> | Hne].
      - apply list_lookup_insert_eq. lia.
      - rewrite list_lookup_insert_ne by congruence. apply IH. lia. }
    destruct (decide (j < length edges)%nat) as [Hj|Hj].
    - rewrite (Hval j Hj). symmetry. now apply lookup_replicate_2.
    - rewrite !lookup_ge_None_2; [reflexivity|rewrite length_replicate; lia|lia]. }
  unfold hysteresis.
  apply (rasterScan_invariant (fun st : list Z => st = replicate (length edges) 255%Z));
    [reflexivity|].
  intros x y st ->. rewrite bool_decide_eq_false_2; [reflexivity|].
  intros Hl. apply lookup_replicate in Hl as [Hl _]. discriminate Hl.
Qed.

Lemma doubleThreshold_all_zero_witness :
  doubleThreshold (replicate 9 0) 3 3 = replicate (length (replicate 9 (0 : Q))) 255%Z.
Proof.
  apply (doubleThreshold_all_zero (replicate 9 0) 3 3).
  apply Forall_replicate. reflexivity.
Defined.

(** ** The thresholds of doubleThreshold *)

Lemma maxMagnitude_spec (edges : list Q) :
  0 <= maxMagnitude edges
  /\ (forall j, (j < length edges)%nat -> getQ edges j <= maxMagnitude edges)
  /\ (maxMagnitude edges = 0
      \/ exists j, (j < length edges)%nat /\ maxMagnitude edges = getQ edges j).
Proof.
  unfold maxMagnitude.
  apply (for_range_ind (fun i (m : Q) =>
    0 <= m /\ (forall j, (j < i)%nat -> getQ edges j <= m)
    /\ (m = 0 \/ exists j, (j < i)%nat /\ m = getQ edges j))); [lia| |].
  - split; [lra|]. split; [intros; lia|now left].
  - intros i m Hi (Hpos & Hub & Hatt). destruct (Qltb m (getQ edges i)) eqn:E.
    + apply Qltb_lt in E. split; [lra|]. split.
      * intros j Hj. destruct (decide (j = i)) as [-> | Hne]; [lra|].
        specialize (Hub j ltac:(lia)). lra.
      * right. exists i. split; [lia|reflexivity].
    + apply Qltb_nlt in E. split; [exact Hpos|]. split.
      * intros j Hj. destruct (decide (j = i)) as [-> | Hne]; [exact E|]. apply Hub. lia.
      * destruct Hatt as [?|(j & Hj & ?)]; [now left|right; exists j; split; [lia|assumption]].
Qed.

Lemma applyThresholds_lookup (edges : list Q) (hi lo : Q) (i : nat) :
  (i < length edges)%nat ->
  applyThresholds edges hi lo !! i
  = Some (if Qleb hi (getQ edges i) then 255%Z
          else if Qleb lo (getQ edges i) then 128%Z else 0%Z).
Proof.
  intros Hi. unfold applyThresholds.
  set (classify := fun i => if Qleb hi (getQ edges i) then 255%Z
                            else if Qleb lo (getQ edges i) then 128%Z else 0%Z).
  assert (forall q, (q < length edges)%nat ->
            for_range 0 (length edges) (fun i result =>
              if Qleb hi (getQ edges i) then <[ i := 255%Z ]> result
              else if Qleb lo (getQ edges i) then <[ i := 128%Z ]> result else result)
              (replicate (length edges) 0%Z) !! q
            = Some (if (q <? length edges)%nat then classify q else 0%Z)) as H.
  { apply (for_range_ind (fun i0 (st : list Z) =>
      forall q, (q < length edges)%nat ->
        st !! q = Some (if (q <? i0)%nat then classify q else 0%Z))); [lia| |].
    - intros q Hq. now apply lookup_replicate_2.
    - intros i0 st Hi0 IH q Hq.
      assert (forall v, v = classify i0 ->
                <[ i0 := v ]> st !! q = Some (if (q <? S i0)%nat then classify q else 0%Z)) as Hins.
      { intros v ->. destruct (decide (q = i0)) as [-> | Hne].
        - rewrite list_lookup_insert_eq by (apply (lookup_lt_Some _ _ _ (IH i0 Hq))).
          destruct (Nat.ltb_spec i0 (S i0)); [reflexivity|lia].
        - rewrite list_lookup_insert_ne by congruence. rewrite (IH q Hq).
          destruct (Nat.ltb_spec q i0), (Nat.ltb_spec q (S i0)); try reflexivity; lia. }
      unfold classify in Hins. unfold classify at 1.
      destruct (Qleb hi (getQ edges i0)); [now apply Hins|].
      destruct (Qleb lo (getQ edges i0)); [now apply Hins|].
      rewrite <- (Hins 0%Z eq_refl). rewrite list_insert_id; [reflexivity|].
      rewrite (IH i0 ltac:(lia)). destruct (Nat.ltb_spec i0 i0); [lia|reflexivity]. }
  rewrite (H i Hi). destruct (Nat.ltb_spec i (length edges)); [reflexivity|lia].
Qed.

(** Before the hysteresis pass a pixel is 255 when its magnitude reaches
    15% of the largest magnitude, 128 when it reaches 40% of that threshold
    and 0 otherwise; the largest magnitude is taken from 0 upwards, so it
    bounds every magnitude and is 0 or one of them. *)
Theorem thresholded_pixels (edges : list Q) (i : nat) :
  (i < length edges)%nat ->
  let maxMag := maxMagnitude edges in
  getQ edges i <= maxMag
  /\ (maxMag = 0 \/ exists j, (j < length edges)%nat /\ maxMag = getQ edges j)
  /\ thresholded edges !! i
     = Some (if Qleb (maxMag * 0.15) (getQ edges i) then 255%Z
             else if Qleb (maxMag * 0.15 * 0.4) (getQ edges i) then 128%Z else 0%Z).
Proof.
  intros Hi maxMag. destruct (maxMagnitude_spec edges) as (_ & Hub & Hatt).
  split; [now apply Hub|]. split; [exact Hatt|].
  unfold thresholded. now apply applyThresholds_lookup.
Qed.

Lemma thresholded_pixels_witness :
  let edges := [0; 10; 1; 100; 40] in
  let maxMag := maxMagnitude edges in
  getQ edges 1 <= maxMag
  /\ (maxMag = 0 \/ exists j, (j < length edges)%nat /\ maxMag = getQ edges j)
  /\ thresholded edges !! 1%nat
     = Some (if Qleb (maxMag * 0.15) (getQ edges 1) then 255%Z
             else if Qleb (maxMag * 0.15 * 0.4) (getQ edges 1) then 128%Z else 0%Z).
Proof. apply (thresholded_pixels [0; 10; 1; 100; 40] 1). simpl. lia. Defined.

(** A pixel whose magnitude is the largest of all, and not negative, is
    255 in the mask: the mask of a raster is never empty for lack of
    contrast. *)
Theorem doubleThreshold_largest_is_edge (edges : list Q) (w h i : nat) :
  (i < length edges)%nat -> 0 <= getQ edges i ->
  (forall j, (j < length edges)%nat -> getQ edges j <= getQ edges i) ->
  doubleThreshold edges w h !! i = Some 255%Z.
Proof.
  intros Hi Hpos Hmax. unfold doubleThreshold. apply hysteresis_strong.
  rewrite (applyThresholds_lookup edges _ _ i Hi).
  destruct (maxMagnitude_spec edges) as (Hm0 & _ & Hatt).
  assert (maxMagnitude edges <= getQ edges i) as Hle.
  { destruct Hatt as [-> | (j & Hj & ->)]; [exact Hpos|now apply Hmax]. }
  assert (Qleb (maxMagnitude edges * 0.15) (getQ edges i) = true) as ->; [|reflexivity].
  apply Qleb_le. lra.
Qed.

Lemma doubleThreshold_largest_is_edge_witness :
  doubleThreshold [3; 3; 3; 3; 3; 3; 3; 3; 3] 3 3 !! 4%nat = Some 255%Z.
Proof.
  apply (doubleThreshold_largest_is_edge [3; 3; 3; 3; 3; 3; 3; 3; 3] 3 3 4).
  - simpl. lia.
  - vm_compute. discriminate.
  - intros j Hj. do 9 (destruct j as [|j]; [vm_compute; discriminate|]). simpl in Hj. lia.
Defined.

(** ** findContours *)

Lemma traceLoop_pixels (edges : list Z) (w h : nat) (fuel : nat) :
  forall visited stack contour visited' contour',
    traceLoop fuel edges w h visited stack contour = Some (visited', contour') ->
    Forall (contourPixel edges w h) contour ->
    Forall (contourPixel edges w h) contour'.
Proof.
  induction fuel as [|fuel IH]; intros visited stack contour visited' contour' Hrun Hall.
  - destruct stack as [|[x y] stack]; simpl in Hrun; [|discriminate].
    now injection Hrun as <- <-.
  - destruct stack as [|[x y] stack]; simpl in Hrun; [now injection Hrun as <- <-|].
    destruct ((x <? 0) || (x >=? Z.of_nat w) || (y <? 0) || (y >=? Z.of_nat h))%Z eqn:Hout;
      [exact (IH _ _ _ _ _ Hrun Hall)|].
    destruct (truthy (visited !! Z.to_nat (y * Z.of_nat w + x))
              || bool_decide (edges !! Z.to_nat (y * Z.of_nat w + x) = Some 0%Z)) eqn:Hskip;
      [exact (IH _ _ _ _ _ Hrun Hall)|].
    apply (IH _ _ _ _ _ Hrun). apply Forall_app. split; [exact Hall|].
    apply Forall_singleton.
    rewrite !orb_false_iff in Hout. destruct Hout as [[[Hx0 Hx1] Hy0] Hy1].
    apply Z.ltb_ge in Hx0, Hy0. rewrite Z.geb_leb in Hx1, Hy1. apply Z.leb_gt in Hx1, Hy1.
    apply orb_false_iff in Hskip as [_ Hedge]. apply bool_decide_eq_false in Hedge.
    exists (Z.to_nat x), (Z.to_nat y). unfold Qnat. rewrite !Z2Nat.id by lia.
    split; [reflexivity|]. split; [lia|]. split; [lia|].
    replace (Z.to_nat y * w + Z.to_nat x)%nat with (Z.to_nat (y * Z.of_nat w + x)); [exact Hedge|].
    rewrite Z2Nat.inj_add, Z2Nat.inj_mul, Nat2Z.id by lia. reflexivity.
Qed.

(** On a mask of [w * h] cells the search returns, and every contour it
    returns has more than 50 points, each of them a pixel of the raster
    whose mask value is not 0. *)
Theorem findContours_contours (edges : list Z) (w h : nat) :
  length edges = (w * h)%nat ->
  exists contours,
    findContours edges w h = Some contours
    /\ Forall (fun contour => (50 < length contour)%nat
                              /\ Forall (contourPixel edges w h) contour) contours.
Proof.
  intros Hlen. destruct (findContours_returns edges w h Hlen) as [contours Hc].
  exists contours. split; [exact Hc|].
  unfold findContours in Hc.
  set (good := fun contour : list Point =>
         (50 < length contour)%nat /\ Forall (contourPixel edges w h) contour).
  set (P := fun st : option (list Z * list (list Point)) =>
         forall v cs, st = Some (v, cs) -> Forall good cs).
  match type of Hc with snd <$> ?t = _ => assert (P t) as HP end.
  { apply for_range_invariant; [intros v cs [= <- <-]; constructor|].
    intros y st Hst. apply for_range_invariant; [exact Hst|].
    clear st Hst. intros x st Hst v cs Hbody.
    destruct st as [[visited contours0]|]; [|discriminate Hbody].
    specialize (Hst _ _ eq_refl). cbn [mbind option_bind] in Hbody.
    destruct (bool_decide _ && negb _).
    - destruct (traceContour edges w h visited x y) as [[visited1 contour]|] eqn:Ht;
        [|discriminate Hbody].
      cbn [mbind option_bind] in Hbody. injection Hbody as <- <-.
      destruct (Nat.ltb_spec 50 (length contour)) as [Hlong|_]; [|exact Hst].
      apply Forall_app. split; [exact Hst|]. apply Forall_singleton. split; [exact Hlong|].
      unfold traceContour in Ht. exact (traceLoop_pixels _ _ _ _ _ _ _ _ _ Ht (Forall_nil_2 _)).
    - injection Hbody as <- <-. exact Hst. }
  destruct (for_range 0 h _ _) as [[v cs]|]; [|discriminate Hc].
  cbn in Hc. injection Hc as <-. exact (HP v cs eq_refl).
Qed.

Lemma findContours_contours_witness :
  exists contours,
    findContours (replicate 64 255%Z) 8 8 = Some contours
    /\ Forall (fun contour => (50 < length contour)%nat
                              /\ Forall (contourPixel (replicate 64 255%Z) 8 8) contour) contours.
Proof. apply (findContours_contours (replicate 64 255%Z) 8 8). reflexivity. Defined.

(** ** Array.prototype.sort *)

Lemma insertSorted_Permutation {A : Type} (compare : A -> A -> Q) (a : A) (l : list A) :
  insertSorted compare a l ≡ₚ a :: l.
Proof.
  induction l as [|b l IH]; [reflexivity|]. simpl.
  destruct (Qleb (compare a b) 0); [reflexivity|].
  rewrite IH. apply Permutation_swap.
Qed.

Lemma sortBy_Permutation {A : Type} (compare : A -> A -> Q) (l : list A) :
  sortBy compare l ≡ₚ l.
Proof.
  induction l as [|a l IH]; [reflexivity|].
  unfold sortBy in *. simpl. rewrite insertSorted_Permutation. now rewrite IH.
Qed.

(** ** convexHull *)

Lemma popNonLeft_spec (point : Point) (hull : list Point) :
  hull <> [] ->
  popNonLeft point hull <> []
  /\ last (popNonLeft point hull) = last hull
  /\ forall p, p ∈ popNonLeft point hull -> p ∈ hull.
Proof.
  induction hull as [|top rest IH]; [congruence|]. intros _.
  destruct rest as [|second rest]; [simpl; repeat split; [congruence|tauto]|].
  cbn [popNonLeft]. destruct (Qleb (cross second top point) 0).
  - destruct (IH ltac:(congruence)) as (Hne & Hlast & Hsub).
    split; [exact Hne|]. split; [exact Hlast|].
    intros p Hp. right. now apply Hsub.
  - repeat split; [congruence|tauto].
Qed.

Lemma hull_fold (pivot : Point) (sorted : list Point) :
  forall hull, last hull = Some pivot ->
    let r := foldl (fun hull point => point :: popNonLeft point hull) hull sorted in
    last r = Some pivot
    /\ (forall p, p ∈ r -> p ∈ hull \/ p ∈ sorted)
    /\ (sorted <> [] -> (2 <= length r)%nat).
Proof.
  induction sorted as [|point sorted IH]; intros hull Hlast; cbn [foldl].
  - split; [exact Hlast|]. split; [tauto|congruence].
  - assert (hull <> []) as Hne by (intros ->; discriminate Hlast).
    destruct (popNonLeft_spec point hull Hne) as (Hne' & Hlast' & Hsub).
    assert (last (point :: popNonLeft point hull) = Some pivot) as Hl.
    { destruct (popNonLeft point hull) as [|q l] eqn:E; [congruence|].
      rewrite last_cons_cons. now rewrite Hlast'. }
    destruct (IH _ Hl) as (H1 & H2 & H3). split; [exact H1|]. split.
    + intros p Hp. destruct (H2 p Hp) as [Hin|Hin].
      * apply elem_of_cons in Hin as [-> | Hin]; [right; left|left; now apply Hsub].
      * right. now right.
    + intros _. destruct sorted as [|q sorted]; [|apply H3; congruence].
      cbn [foldl]. destruct (popNonLeft point hull); [congruence|simpl; lia].
Qed.

(** With 3 points or more the returned hull starts with the lowest point
    (the lowest [y], the lowest [x] among those), which no input point lies
    below; it has at least two vertices and all of them are input points. *)
Theorem convexHull_vertices (M : MathLib) (points : list Point) :
  (3 <= length points)%nat ->
  let hull := (convexHull M points).2 in
  let pivot := getP points (lowestIndex points) in
  head hull = Some pivot
  /\ (forall p, p ∈ points -> lowestFirst pivot p)
  /\ (2 <= length hull)%nat
  /\ (forall p, p ∈ hull -> p ∈ points).
Proof.
  intros Hlen hull pivot.
  destruct (lowestIndex_spec points ltac:(lia)) as [Hlow Hmin].
  pose proof (swapFirst_Permutation points _ Hlow) as Hperm.
  pose proof (swapFirst_head points _ Hlow) as Hhead. fold pivot in Hhead.
  unfold hull, convexHull. assert ((length points <? 3)%nat = false) as ->
    by (apply Nat.ltb_ge; lia).
  cbv zeta. cbn [snd]. rewrite Hhead.
  set (swapped := swapFirst points (lowestIndex points)) in *.
  set (sorted := sortBy (polarCompare M pivot) (drop 1 swapped)).
  assert (sorted ≡ₚ drop 1 swapped) as Hsorted by apply sortBy_Permutation.
  assert (length swapped = length points) as Hlen' by (now rewrite Hperm).
  destruct (hull_fold pivot sorted [pivot] eq_refl) as (Hlast & Hsub & Hsize).
  cbv zeta in Hlast, Hsub, Hsize.
  set (r := foldl _ [pivot] sorted) in *.
  split; [|split; [|split]].
  - apply last_Some in Hlast as [l' ->]. rewrite rev_app_distr. reflexivity.
  - intros p Hp. destruct (elem_of_getP points p Hp) as (j & Hj & <-). now apply Hmin.
  - rewrite length_rev. apply Hsize. intros Hnil.
    apply (f_equal length) in Hnil. rewrite Hsorted, length_drop in Hnil. simpl in Hnil. lia.
  - intros p Hp. apply list_elem_of_In, in_rev, list_elem_of_In in Hp.
    assert (pivot ∈ points) as Hpivot.
    { unfold pivot, getP. destruct (lookup_lt_is_Some_2 points _ Hlow) as [q Hq].
      rewrite Hq. simpl. eapply list_elem_of_lookup_2, Hq. }
    destruct (Hsub p Hp) as [Hin|Hin].
    + apply list_elem_of_singleton in Hin as ->. exact Hpivot.
    + rewrite Hsorted in Hin. rewrite <- Hperm.
      apply list_elem_of_lookup in Hin as [i Hi]. rewrite lookup_drop in Hi.
      eapply list_elem_of_lookup_2, Hi.
Qed.

Lemma convexHull_vertices_witness :
  let points := [mkPoint 2 2; mkPoint 0 0; mkPoint 4 0; mkPoint 2 1] in
  let hull := (convexHull sampleMath points).2 in
  let pivot := getP points (lowestIndex points) in
  head hull = Some pivot
  /\ (forall p, p ∈ points -> lowestFirst pivot p)
  /\ (2 <= length hull)%nat
  /\ (forall p, p ∈ hull -> p ∈ points).
Proof.
  apply (convexHull_vertices sampleMath [mkPoint 2 2; mkPoint 0 0; mkPoint 4 0; mkPoint 2 1]).
  simpl. lia.
Defined.

(** ** approximatePolygon *)

Lemma douglasPeucker_indices (M : MathLib) (hull : list Point) (threshold : Q) :
  0 <= threshold ->
  forall fuel start end_ result r,
    (start < end_)%nat ->
    douglasPeucker fuel M hull threshold start end_ result = Some r ->
    (forall i, i ∈ r -> i ∈ result \/ (start <= i < end_)%nat)
    /\ head r = head (result ++ [start])
    /\ (NoDup result -> NoDup r).
Proof.
  intros Hthr. induction fuel as [|fuel IH]; intros start end_ result r Hlt Hrun;
    [discriminate Hrun|].
  cbn [douglasPeucker] in Hrun.
  assert (forall r, Some (if bool_decide (start ∈ result) then result else result ++ [start])
                    = Some r ->
            (forall i, i ∈ r -> i ∈ result \/ (start <= i < end_)%nat)
            /\ head r = head (result ++ [start])
            /\ (NoDup result -> NoDup r)) as Hleaf.
  { intros r0 [= <-]. destruct (bool_decide_reflect (start ∈ result)) as [Hin|Hnin].
    - split; [tauto|]. split; [|tauto].
      destruct result; [now apply elem_of_nil in Hin|reflexivity].
    - split; [|split; [reflexivity|]].
      + intros i Hi. apply elem_of_app in Hi as [Hi|Hi]; [tauto|].
        apply list_elem_of_singleton in Hi as ->. right. lia.
      + intros Hnd. apply NoDup_app. split; [exact Hnd|]. split.
        * intros x Hx Hx'. apply list_elem_of_singleton in Hx' as ->. contradiction.
        * apply NoDup_singleton. }
  destruct (farthest_spec M hull start end_) as [Hm|Hm].
  - rewrite Hm in Hrun. cbn [fst snd] in Hrun.
    assert (Qltb threshold 0 = false) as E by (apply Qltb_nlt; exact Hthr).
    rewrite E in Hrun. now apply Hleaf.
  - destruct (Qltb threshold (farthest M hull start end_).1); [|now apply Hleaf].
    set (mid := (farthest M hull start end_).2) in *.
    destruct (douglasPeucker fuel M hull threshold start mid result) as [r1|] eqn:E1;
      [|discriminate Hrun].
    cbn [mbind option_bind] in Hrun.
    destruct (IH start mid result r1 ltac:(lia) E1) as (A1 & B1 & C1).
    destruct (IH mid end_ r1 r ltac:(lia) Hrun) as (A2 & B2 & C2).
    split; [|split].
    + intros i Hi. destruct (A2 i Hi) as [Hi'|Hi']; [|right; lia].
      destruct (A1 i Hi') as [?|?]; [tauto|right; lia].
    + rewrite B2, <- B1. destruct r1 as [|a r1]; [|reflexivity].
      destruct result; discriminate B1.
    + intros Hnd. apply C2, C1, Hnd.
Qed.

(** The simplified polygon is returned (with [Math.hypot] non-negative), it
    starts with the first vertex of the hull, its vertices are vertices of
    the hull and there are no more of them than the hull has. *)
Theorem approximatePolygon_vertices (M : MathLib) (hull : list Point) (epsilon : Q) :
  hypotNonneg M -> 0 <= epsilon ->
  exists polygon,
    approximatePolygon M hull epsilon = Some polygon
    /\ head polygon = head hull
    /\ (forall p, p ∈ polygon -> p ∈ hull)
    /\ (length polygon <= length hull)%nat.
Proof.
  intros HM Heps. destruct (approximatePolygon_returns M hull epsilon HM Heps) as [polygon Hp].
  exists polygon. split; [exact Hp|]. unfold approximatePolygon in Hp.
  destruct (Nat.ltb_spec (length hull) 4) as [Hshort|Hlong].
  { injection Hp as <-. repeat split; [tauto|lia]. }
  destruct (douglasPeucker _ M hull _ 0 (length hull) []) as [r|] eqn:Hr; [|discriminate Hp].
  cbn [mbind option_bind] in Hp. injection Hp as <-.
  assert (0 <= epsilon * totalLength M hull) as Hthr
    by (pose proof (totalLength_nonneg M hull HM); nra).
  destruct (douglasPeucker_indices M hull _ Hthr _ 0%nat (length hull) [] r ltac:(lia) Hr)
    as (Hidx & Hhead & Hnd).
  specialize (Hnd (NoDup_nil_2)).
  assert (forall i, i ∈ r -> (i < length hull)%nat) as Hlt.
  { intros i Hi. destruct (Hidx i Hi) as [Hn|?]; [now apply elem_of_nil in Hn|lia]. }
  split; [|split].
  - destruct r as [|i r]; [discriminate Hhead|]. injection Hhead as ->.
    destruct hull as [|p hull]; [simpl in Hlong; lia|reflexivity].
  - intros p Hp. apply list_elem_of_fmap in Hp as (i & -> & Hi).
    specialize (Hlt i Hi). unfold getP.
    destruct (lookup_lt_is_Some_2 hull i Hlt) as [q Hq]. rewrite Hq. simpl.
    eapply list_elem_of_lookup_2, Hq.
  - rewrite length_map. rewrite <- (length_seq (length hull) 0).
    apply NoDup_incl_length.
    + apply NoDup_ListNoDup, Hnd.
    + intros i Hi. apply in_seq. apply list_elem_of_In in Hi. specialize (Hlt i Hi). lia.
Qed.

Lemma approximatePolygon_vertices_witness :
  let hull := [mkPoint 0 0; mkPoint 4 0; mkPoint 5 1; mkPoint 4 4; mkPoint 0 4] in
  exists polygon,
    approximatePolygon sampleMath hull 0.02 = Some polygon
    /\ head polygon = head hull
    /\ (forall p, p ∈ polygon -> p ∈ hull)
    /\ (length polygon <= length hull)%nat.
Proof.
  apply (approximatePolygon_vertices sampleMath
           [mkPoint 0 0; mkPoint 4 0; mkPoint 5 1; mkPoint 4 4; mkPoint 0 4] 0.02).
  - apply sampleMath_hypotNonneg.
  - lra.
Defined.

(** ** pointToLineDistance *)

(** The projection of the point on the line is clamped to the segment:
    when the segment is a single point or the projection falls before its
    start the distance is taken to the start, and when the projection falls
    beyond its end the distance is taken to the end. *)
Theorem pointToLineDistance_clamped (M : MathLib) (point lineStart lineEnd : Point) :
  let dot := (px point - px lineStart) * (px lineEnd - px lineStart)
             + (py point - py lineStart) * (py lineEnd - py lineStart) in
  let lenSq := (px lineEnd - px lineStart) * (px lineEnd - px lineStart)
               + (py lineEnd - py lineStart) * (py lineEnd - py lineStart) in
  (lenSq == 0 \/ dot < 0 ->
     pointToLineDistance M point lineStart lineEnd
     = Math_hypot M (px point - px lineStart) (py point - py lineStart))
  /\ (0 < lenSq /\ lenSq < dot ->
     pointToLineDistance M point lineStart lineEnd
     = Math_hypot M (px point - px lineEnd) (py point - py lineEnd)).
Proof.
  intros dot lenSq. unfold pointToLineDistance. fold dot. fold lenSq.
  assert (forall a : Q, 0 <= a * a) as Hsq.
  { intros a. destruct (Qlt_le_dec a 0) as [Ha|Ha].
    - assert (a * a == (- a) * (- a)) as -> by ring. apply Qmult_le_0_compat; lra.
    - apply Qmult_le_0_compat; lra. }
  assert (0 <= lenSq) as Hpos.
  { unfold lenSq. pose proof (Hsq (px lineEnd - px lineStart)).
    pose proof (Hsq (py lineEnd - py lineStart)). lra. }
  split.
  - intros Hcase. destruct (Qeq_bool lenSq 0) eqn:E.
    + unfold Qeqb. rewrite E. cbn [negb]. reflexivity.
    + unfold Qeqb. rewrite E. cbn [negb].
      apply Qeq_bool_neq in E. destruct Hcase as [Hz|Hneg]; [contradiction|].
      assert (Qltb (dot / lenSq) 0 = true) as ->; [|reflexivity].
      apply Qltb_lt. apply Qlt_shift_div_r; lra.
  - intros [Hlen Hdot]. unfold Qeqb.
    assert (Qeq_bool lenSq 0 = false) as ->.
    { destruct (Qeq_bool lenSq 0) eqn:E; [|reflexivity]. apply Qeq_bool_iff in E. lra. }
    cbn [negb].
    assert (1 < dot / lenSq) as Hpar by (apply Qlt_shift_div_l; lra).
    assert (Qltb (dot / lenSq) 0 = false) as -> by (apply Qltb_nlt; lra).
    assert (Qltb 1 (dot / lenSq) = true) as -> by (now apply Qltb_lt).
    reflexivity.
Qed.

Lemma pointToLineDistance_clamped_witness :
  pointToLineDistance sampleMath (mkPoint (-1) 1) (mkPoint 0 0) (mkPoint 2 0)
  = Math_hypot sampleMath (px (mkPoint (-1) 1) - px (mkPoint 0 0))
                          (py (mkPoint (-1) 1) - py (mkPoint 0 0))
  /\ pointToLineDistance sampleMath (mkPoint 3 1) (mkPoint 0 0) (mkPoint 2 0)
  = Math_hypot sampleMath (px (mkPoint 3 1) - px (mkPoint 2 0))
                          (py (mkPoint 3 1) - py (mkPoint 2 0)).
Proof.
  split.
  - apply (proj1 (pointToLineDistance_clamped sampleMath (mkPoint (-1) 1) (mkPoint 0 0)
                    (mkPoint 2 0))).
    right. reflexivity.
  - apply (proj2 (pointToLineDistance_clamped sampleMath (mkPoint 3 1) (mkPoint 0 0)
                    (mkPoint 2 0))).
    split; reflexivity.
Defined.

(** ** findBestQuadrilateral *)

(** The selector returns four corners and a confidence strictly between
    10 and 95: the score of a candidate is its area ratio times 100, with
    the ratio strictly between 0.1 and 0.95, and the fallback scores 30. *)
Theorem findBestQuadrilateral_bounds (M : MathLib) (contours : list (list Point)) (w h : nat) :
  hypotNonneg M ->
  exists quad conf,
    findBestQuadrilateral M contours w h = Some (quad, conf)
    /\ length quad = 4%nat /\ 10 < conf /\ conf < 95.
Proof.
  intros HM. unfold findBestQuadrilateral.
  destruct (bestOfContours_returns M contours w h ([], 0) HM) as (best & Heq & Hinv & _);
    [now left|].
  unfold bestOfContours in Heq. rewrite Heq. cbn [mbind option_bind].
  exists (selectBest w h best).1, (selectBest w h best).2.
  split; [now destruct (selectBest w h best)|]. split; [reflexivity|].
  destruct Hinv as [-> | (Hlen & Hlo & Hhi)].
  - rewrite selectBest_fallback. cbn [snd]. lra.
  - unfold selectBest. rewrite Hlen. cbn [Nat.eqb negb snd]. unfold Math_min.
    assert (Qltb 95 best.2 = false) as -> by (apply Qltb_nlt; lra). lra.
Qed.

Lemma findBestQuadrilateral_bounds_witness :
  exists quad conf,
    findBestQuadrilateral sampleMath [] 400 300 = Some (quad, conf)
    /\ length quad = 4%nat /\ 10 < conf /\ conf < 95.
Proof. apply (findBestQuadrilateral_bounds sampleMath [] 400 300), sampleMath_hypotNonneg. Defined.

(** ** The area test of findBestQuadrilateral *)

(** The shoelace sum gives an axis-parallel rectangle its area, whichever
    way round its corners are listed. *)
Theorem shoelace_rectangle (a b c d : Q) :
  shoelace [mkPoint a b; mkPoint c b; mkPoint c d; mkPoint a d] == Qabs ((c - a) * (d - b)).
Proof.
  unfold shoelace, Math_abs.
  change (getP [mkPoint a b; mkPoint c b; mkPoint c d; mkPoint a d] 0) with (mkPoint a b).
  change (getP [mkPoint a b; mkPoint c b; mkPoint c d; mkPoint a d] 1) with (mkPoint c b).
  change (getP [mkPoint a b; mkPoint c b; mkPoint c d; mkPoint a d] 2) with (mkPoint c d).
  change (getP [mkPoint a b; mkPoint c b; mkPoint c d; mkPoint a d] 3) with (mkPoint a d).
  cbn [px py].
  transitivity (Qabs (2 * ((c - a) * (d - b))) / 2).
  - unfold Qdiv. apply Qmult_comp; [apply Qabs_wd; ring|reflexivity].
  - rewrite Qabs_Qmult. change (Qabs 2) with 2. field.
Qed.

(** A raster of width 0 or height 0 has area 0: the area ratio is not
    finite, no polygon qualifies and the selector returns the fallback
    with confidence 30. *)
Theorem findBestQuadrilateral_empty_raster (M : MathLib) (contours : list (list Point))
    (w h : nat) :
  hypotNonneg M -> w = 0%nat \/ h = 0%nat ->
  findBestQuadrilateral M contours w h = Some (orderCorners (fallbackQuad w h), 30).
Proof.
  intros HM Hzero.
  destruct (findBestQuadrilateral_returns M contours w h HM) as (best & Hb & _ & _ & _ & Hnone).
  rewrite Hb. f_equal. apply Hnone. intros contour polygon _ _.
  unfold qualifying. destruct (length polygon =? 4)%nat; [|reflexivity]. cbn [andb].
  assert (Qnat w * Qnat h == 0) as Harea.
  { destruct Hzero as [-> | ->]; change (Qnat 0) with 0; ring. }
  pose proof (xdiv_zero (shoelace polygon) _ Harea) as Hx.
  destruct (xdiv (shoelace polygon) (Qnat w * Qnat h)) as [r| | |]; try reflexivity.
  now destruct (Hx r).
Qed.

Lemma findBestQuadrilateral_empty_raster_witness :
  findBestQuadrilateral sampleMath
    [[mkPoint 0 0; mkPoint 1 0; mkPoint 1 1; mkPoint 0 1]] 0 5
  = Some (orderCorners (fallbackQuad 0 5), 30).
Proof.
  apply (findBestQuadrilateral_empty_raster sampleMath
           [[mkPoint 0 0; mkPoint 1 0; mkPoint 1 1; mkPoint 0 1]] 0 5).
  - apply sampleMath_hypotNonneg.
  - now left.
Defined.

(** ** orderCorners *)

Lemma insertSorted_sorted {A : Type} (key : A -> Q) (compare : A -> A -> Q) (a : A)
    (l : list A) :
  (forall a b, Qleb (compare a b) 0 = true <-> key a <= key b) ->
  StronglySorted (fun a b => key a <= key b) l ->
  StronglySorted (fun a b => key a <= key b) (insertSorted compare a l).
Proof.
  intros Hcmp. induction l as [|b l IH]; intros Hs.
  - repeat constructor.
  - apply StronglySorted_inv in Hs as [Hs Hall]. cbn [insertSorted].
    destruct (Qleb (compare a b) 0) eqn:E.
    + apply Hcmp in E. constructor; [constructor; assumption|].
      constructor; [exact E|]. eapply Forall_impl; [exact Hall|]. intros c Hc. simpl in Hc. lra.
    + constructor; [now apply IH|].
      rewrite insertSorted_Permutation. constructor; [|exact Hall].
      destruct (Qlt_le_dec (key b) (key a)) as [Hlt|Hle]; [lra|].
      apply Hcmp in Hle. congruence.
Qed.

Lemma sortBy_sorted {A : Type} (key : A -> Q) (compare : A -> A -> Q) (l : list A) :
  (forall a b, Qleb (compare a b) 0 = true <-> key a <= key b) ->
  StronglySorted (fun a b => key a <= key b) (sortBy compare l).
Proof.
  intros Hcmp. induction l as [|a l IH]; [constructor|].
  unfold sortBy in *. cbn [foldr]. now apply insertSorted_sorted.
Qed.

(** The corners come back as the same four points, the first with the
    least [x + y], the third with the greatest, and the second with an
    [x - y] at least that of the fourth. *)
Theorem orderCorners_ordered (q : list Point) :
  length q = 4%nat ->
  let o := orderCorners q in
  o ≡ₚ q
  /\ (forall p, p ∈ q -> cornerSum (getP o 0) <= cornerSum p)
  /\ (forall p, p ∈ q -> cornerSum p <= cornerSum (getP o 2))
  /\ px (getP o 3) - py (getP o 3) <= px (getP o 1) - py (getP o 1).
Proof.
  intros Hlen o. unfold o, orderCorners.
  pose proof (sortBy_Permutation (fun a b => (px a + py a) - (px b + py b)) q) as Hperm.
  pose proof (sortBy_sorted cornerSum (fun a b => (px a + py a) - (px b + py b)) q) as Hsorted.
  set (sorted := sortBy _ q) in *.
  assert (length sorted = 4%nat) as Hl by (now rewrite Hperm).
  destruct sorted as [|s0 [|s1 [|s2 [|s3 [|? ?]]]]]; try discriminate Hl. clear Hl.
  assert (StronglySorted (fun a b => cornerSum a <= cornerSum b) [s0; s1; s2; s3]) as Hs.
  { apply Hsorted. intros a b. rewrite Qleb_le. unfold cornerSum. split; intros; lra. }
  clear Hsorted.
  apply StronglySorted_inv in Hs as [Hs H0]. apply StronglySorted_inv in Hs as [Hs H1].
  apply StronglySorted_inv in Hs as [_ H2].
  apply Forall_cons in H0 as [H01 H0]. apply Forall_cons in H0 as [H02 H0].
  apply Forall_cons in H0 as [H03 _]. apply Forall_cons in H1 as [H12 H1].
  apply Forall_cons in H1 as [H13 _]. apply Forall_cons in H2 as [H23 _].
  change (getP [s0; s1; s2; s3] 0) with s0. change (getP [s0; s1; s2; s3] 1) with s1.
  change (getP [s0; s1; s2; s3] 2) with s2. change (getP [s0; s1; s2; s3] 3) with s3.
  unfold sortBy. cbn [foldr insertSorted].
  assert (forall p, p ∈ q -> p = s0 \/ p = s1 \/ p = s2 \/ p = s3) as Hin.
  { intros p Hp. rewrite <- Hperm in Hp. rewrite !elem_of_cons in Hp.
    destruct Hp as [?|[?|[?|[?|Hp]]]]; [tauto..|now apply elem_of_nil in Hp]. }
  destruct (Qleb (px s2 - py s2 - (px s1 - py s1)) 0) eqn:E.
  - apply Qleb_le in E.
    change (getP [s0; getP [s1; s2] 0; s3; getP [s1; s2] 1] 0) with s0.
    change (getP [s0; getP [s1; s2] 0; s3; getP [s1; s2] 1] 1) with s1.
    change (getP [s0; getP [s1; s2] 0; s3; getP [s1; s2] 1] 2) with s3.
    change (getP [s0; getP [s1; s2] 0; s3; getP [s1; s2] 1] 3) with s2.
    change (getP [s1; s2] 0) with s1. change (getP [s1; s2] 1) with s2.
    split; [|split; [|split]].
    + rewrite <- Hperm. apply Permutation_skip, Permutation_skip, Permutation_swap.
    + intros p Hp. destruct (Hin p Hp) as [-> | [-> | [-> | ->]]]; lra.
    + intros p Hp. destruct (Hin p Hp) as [-> | [-> | [-> | ->]]]; lra.
    + lra.
  - apply Qleb_nle in E.
    change (getP [s0; getP [s2; s1] 0; s3; getP [s2; s1] 1] 0) with s0.
    change (getP [s0; getP [s2; s1] 0; s3; getP [s2; s1] 1] 1) with s2.
    change (getP [s0; getP [s2; s1] 0; s3; getP [s2; s1] 1] 2) with s3.
    change (getP [s0; getP [s2; s1] 0; s3; getP [s2; s1] 1] 3) with s1.
    change (getP [s2; s1] 0) with s2. change (getP [s2; s1] 1) with s1.
    split; [|split; [|split]].
    + rewrite <- Hperm. apply Permutation_skip.
      transitivity [s2; s1; s3]; [apply Permutation_skip, Permutation_swap|apply Permutation_swap].
    + intros p Hp. destruct (Hin p Hp) as [-> | [-> | [-> | ->]]]; lra.
    + intros p Hp. destruct (Hin p Hp) as [-> | [-> | [-> | ->]]]; lra.
    + lra.
Qed.

Lemma orderCorners_ordered_witness :
  let q := [mkPoint 9 8; mkPoint 1 7; mkPoint 8 1; mkPoint 0 0] in
  let o := orderCorners q in
  o ≡ₚ q
  /\ (forall p, p ∈ q -> cornerSum (getP o 0) <= cornerSum p)
  /\ (forall p, p ∈ q -> cornerSum p <= cornerSum (getP o 2))
  /\ px (getP o 3) - py (getP o 3) <= px (getP o 1) - py (getP o 1).
Proof.
  apply (orderCorners_ordered [mkPoint 9 8; mkPoint 1 7; mkPoint 8 1; mkPoint 0 0]). reflexivity.
Defined.

(** ** solveHomography *)

(** Elimination with partial pivoting followed by back substitution solves
    the system: for [n] equations [m x = b] whose matrix sends only the zero
    vector to zero, the vector computed has [n] entries and satisfies every
    equation. *)
Theorem elimination_solves (n : nat) (m : list (list Q)) (b : list Q) :
  shaped n m b -> nonsingular n m ->
  let st := gaussianElimination n (m, b) in
  let x := backSubstitution n st.1 st.2 in
  length x = n /\ forall r, (r < n)%nat -> rowDot n m r (getQ x) == getQ b r.
Proof.
  intros Hshape Hns st x.
  destruct (solve_spec n m b Hshape Hns) as [Hlen Hsol]. fold st x in Hlen, Hsol.
  split; [exact Hlen|]. intros r Hr. rewrite (Hsol r Hr). ring.
Qed.

Lemma elimination_solves_witness :
  let m := [[0; 2]; [3; 1]] in
  let b := [4; 5] in
  let st := gaussianElimination 2 (m, b) in
  let x := backSubstitution 2 st.1 st.2 in
  length x = 2%nat /\ forall r, (r < 2)%nat -> rowDot 2 m r (getQ x) == getQ b r.
Proof.
  apply (elimination_solves 2 [[0; 2]; [3; 1]] [4; 5]).
  - split; [reflexivity|]. split; [|reflexivity].
    intros r Hr. destruct r as [|[|r]]; [reflexivity|reflexivity|lia].
  - intros x Hx. pose proof (Hx 0%nat ltac:(lia)) as H0. pose proof (Hx 1%nat ltac:(lia)) as H1.
    unfold rowDot, Qsum in H0, H1. cbn [seq foldr] in H0, H1.
    change (getM [[0; 2]; [3; 1]] 0 0) with 0 in H0. change (getM [[0; 2]; [3; 1]] 0 1) with 2 in H0.
    change (getM [[0; 2]; [3; 1]] 1 0) with 3 in H1. change (getM [[0; 2]; [3; 1]] 1 1) with 1 in H1.
    intros j Hj. destruct j as [|[|j]]; [lra|lra|lia].
Defined.

(** The first loop nest builds the normal equations: [AtA] is the product
    of the transpose of the 8 x 8 part of [A] with that part, a symmetric
    matrix, and [Atb] the product of the transpose with minus the ninth
    column. *)
Theorem normalEquations_entries (A : list (list Q)) (j k : nat) :
  (j < 8)%nat -> (k < 8)%nat ->
  let st := normalEquations 8 A in
  getM st.1 j k == Qsum (fun i => getM A i j * getM A i k) (seq 0 8)
  /\ getM st.1 j k == getM st.1 k j
  /\ getQ st.2 j == Qsum (fun i => getM A i j * (- getM A i 8)) (seq 0 8).
Proof.
  intros Hj Hk st. destruct (normalEquations_spec A) as (_ & HM & Hb). fold st in HM, Hb.
  split; [now apply HM|]. split; [|now apply Hb].
  rewrite (HM j k Hj Hk), (HM k j Hk Hj). apply Qsum_ext. intros i _. ring.
Qed.

Lemma normalEquations_entries_witness :
  let A := buildMatrix (destinationCorners 6 5)
             [mkPoint 1 1; mkPoint 9 2; mkPoint 8 7; mkPoint 0 6] in
  let st := normalEquations 8 A in
  getM st.1 2 6 == Qsum (fun i => getM A i 2 * getM A i 6) (seq 0 8)
  /\ getM st.1 2 6 == getM st.1 6 2
  /\ getQ st.2 2 == Qsum (fun i => getM A i 2 * (- getM A i 8)) (seq 0 8).
Proof.
  apply (normalEquations_entries (buildMatrix (destinationCorners 6 5)
           [mkPoint 1 1; mkPoint 9 2; mkPoint 8 7; mkPoint 0 6]) 2 6); lia.
Defined.

(** [solveHomography] returns nine entries, the last of which is 1, and
    the first eight solve the normal equations [(At A) h = At (- a8)] when
    the 8 x 8 part of [A] sends only the zero vector to zero. *)
Theorem solveHomography_normal_equations (A : list (list Q)) :
  nonsingular 8 A ->
  let h := solveHomography A in
  length h = 9%nat /\ getQ h 8 = 1
  /\ forall j, (j < 8)%nat ->
       Qsum (fun k => Qsum (fun i => getM A i j * getM A i k) (seq 0 8) * getQ h k) (seq 0 8)
       == Qsum (fun i => getM A i j * (- getM A i 8)) (seq 0 8).
Proof.
  intros HA h. unfold h, solveHomography.
  destruct (normalEquations_spec A) as (Hs & HM & Hb). cbv zeta in Hs, HM, Hb.
  pose proof (normalEquations_nonsingular A HA) as Hns.
  destruct (normalEquations 8 A) as [AtA Atb]. cbn [fst snd] in *.
  destruct (solve_spec 8 AtA Atb Hs Hns) as [Hlen Hsol]. cbv zeta in Hlen, Hsol.
  set (x := backSubstitution 8 _ _) in *. clearbody x.
  split; [rewrite length_app, Hlen; reflexivity|].
  split; [unfold getQ; rewrite lookup_app_r, Hlen by lia; reflexivity|].
  intros j Hj. rewrite <- (Hb j Hj). specialize (Hsol j Hj). unfold rowDot in Hsol.
  rewrite <- (Qmult_1_l (getQ Atb j)), <- Hsol. apply Qsum_ext. intros k Hk.
  apply elem_of_seq in Hk. rewrite (HM j k Hj ltac:(lia)).
  unfold getQ. rewrite lookup_app_l by lia. reflexivity.
Qed.

Lemma solveHomography_normal_equations_witness :
  let A := rectMatrix 6 5 (mkPoint 1 1) (mkPoint 9 2) (mkPoint 8 7) (mkPoint 0 6) in
  let h := solveHomography A in
  length h = 9%nat /\ getQ h 8 = 1
  /\ forall j, (j < 8)%nat ->
       Qsum (fun k => Qsum (fun i => getM A i j * getM A i k) (seq 0 8) * getQ h k) (seq 0 8)
       == Qsum (fun i => getM A i j * (- getM A i 8)) (seq 0 8).
Proof.
  apply (solveHomography_normal_equations
           (rectMatrix 6 5 (mkPoint 1 1) (mkPoint 9 2) (mkPoint 8 7) (mkPoint 0 6))).
  intros x. apply rectMatrix_kernel; intros Hc; vm_compute in Hc; discriminate Hc.
Defined.

(** ** processDocument *)

Lemma length_perspectiveTransform (src : ImageData) (quad : list Point) (ow oh : nat) :
  length (data (perspectiveTransform src quad ow oh)) = (ow * oh * 4)%nat.
Proof.
  unfold perspectiveTransform. cbn [data].
  apply (for_range_invariant (fun o : list Z => length o = (ow * oh * 4)%nat));
    [apply length_replicate|].
  intros y o Ho. apply (for_range_invariant (fun o : list Z => length o = (ow * oh * 4)%nat));
    [exact Ho|].
  intros x o' Ho'. now rewrite length_resamplePixel.
Qed.

(** The result of [processDocument] holds four corners and a canvas whose
    buffer has four bytes for each pixel of its declared size, the size
    being the rounded longer opposite sides of the quadrilateral. *)
Theorem processDocument_canvas (M : MathLib) (img : ImageData) :
  hypotNonneg M ->
  exists r,
    processDocument M img = Some r
    /\ length (corners r) = 4%nat
    /\ wellFormed (processedImage r)
    /\ let c := getP (corners r) in
       width (processedImage r)
       = Z.to_nat (Math_round (Math_max
           (Math_hypot M (px (c 1%nat) - px (c 0%nat)) (py (c 1%nat) - py (c 0%nat)))
           (Math_hypot M (px (c 2%nat) - px (c 3%nat)) (py (c 2%nat) - py (c 3%nat)))))
       /\ height (processedImage r)
       = Z.to_nat (Math_round (Math_max
           (Math_hypot M (px (c 3%nat) - px (c 0%nat)) (py (c 3%nat) - py (c 0%nat)))
           (Math_hypot M (px (c 2%nat) - px (c 1%nat)) (py (c 2%nat) - py (c 1%nat))))).
Proof.
  intros HM.
  destruct (findContours_returns (edgeMask M img) (width img) (height img)
              (length_edgeMask M img)) as [contours Hc].
  destruct (findBestQuadrilateral_returns M contours (width img) (height img) HM)
    as ([quad conf] & Hb & _ & _ & Hlen & _).
  unfold processDocument. fold (edgeMask M img).
  rewrite Hc. cbn [mbind option_bind]. rewrite Hb. cbn [mbind option_bind fst snd].
  eexists. split; [reflexivity|]. cbn [corners processedImage].
  split; [exact Hlen|]. split; [|split; reflexivity].
  unfold wellFormed. rewrite length_perspectiveTransform. reflexivity.
Qed.

Lemma processDocument_canvas_witness :
  let img := mkImageData 2 2 (replicate 16 0%Z) in
  exists r,
    processDocument sampleMath img = Some r
    /\ length (corners r) = 4%nat
    /\ wellFormed (processedImage r)
    /\ let c := getP (corners r) in
       width (processedImage r)
       = Z.to_nat (Math_round (Math_max
           (Math_hypot sampleMath (px (c 1%nat) - px (c 0%nat)) (py (c 1%nat) - py (c 0%nat)))
           (Math_hypot sampleMath (px (c 2%nat) - px (c 3%nat)) (py (c 2%nat) - py (c 3%nat)))))
       /\ height (processedImage r)
       = Z.to_nat (Math_round (Math_max
           (Math_hypot sampleMath (px (c 3%nat) - px (c 0%nat)) (py (c 3%nat) - py (c 0%nat)))
           (Math_hypot sampleMath (px (c 2%nat) - px (c 1%nat)) (py (c 2%nat) - py (c 1%nat))))).
Proof.
  apply (processDocument_canvas sampleMath (mkImageData 2 2 (replicate 16 0%Z))),
    sampleMath_hypotNonneg.
Defined.

(** ** The loops of the resampler *)

Section PixelLoops.

Variable write : nat -> nat -> option (nat -> Z).
Variables ow oh : nat.

Lemma pixelStep_lookup (x y : nat) (out : list Z) (j : nat) :
  (j < length out)%nat ->
  (((y * ow + x) * 4 <= j < (y * ow + x) * 4 + 4)%nat -> out !! j = Some 0%Z) ->
  pixelStep write ow x y out !! j
  = if bool_decide ((y * ow + x) * 4 <= j < (y * ow + x) * 4 + 4)%nat
    then Some (writtenByte write x y (j - (y * ow + x) * 4))
    else out !! j.
Proof using Type.
  intros Hj Hzero. unfold pixelStep, writtenByte.
  set (base := ((y * ow + x) * 4)%nat) in *.
  destruct (bool_decide_reflect (base <= j < base + 4)%nat) as [Hin|Hno].
  - specialize (Hzero Hin). destruct (write x y) as [value|]; [|exact Hzero].
    unfold for_range. cbn [seq foldl Nat.sub].
    assert (j = base + 0 \/ j = base + 1 \/ j = base + 2 \/ j = base + 3)%nat
      as [-> | [-> | [-> | ->]]] by lia.
    + rewrite !list_lookup_insert_ne by lia. replace (base + 0 - base)%nat with 0%nat by lia.
      apply list_lookup_insert_eq. exact Hj.
    + rewrite !list_lookup_insert_ne by lia. replace (base + 1 - base)%nat with 1%nat by lia.
      apply list_lookup_insert_eq. now rewrite !length_insert.
    + rewrite !list_lookup_insert_ne by lia. replace (base + 2 - base)%nat with 2%nat by lia.
      apply list_lookup_insert_eq. now rewrite !length_insert.
    + replace (base + 3 - base)%nat with 3%nat by lia.
      apply list_lookup_insert_eq. now rewrite !length_insert.
  - destruct (write x y) as [value|]; [|reflexivity].
    unfold for_range. cbn [seq foldl Nat.sub].
    rewrite !list_lookup_insert_ne by lia. reflexivity.
Qed.

Lemma length_pixelStep (x y : nat) (out : list Z) :
  length (pixelStep write ow x y out) = length out.
Proof using Type.
  unfold pixelStep. destruct (write x y) as [value|]; [|reflexivity].
  apply for_range_invariant; [reflexivity|]. intros c o Ho. now rewrite length_insert.
Qed.

(** After the two loops every channel of every pixel holds the byte written
    for it, or the initial 0 if the pixel was skipped. *)
Lemma pixelLoops_lookup (x y c : nat) :
  (x < ow)%nat -> (y < oh)%nat -> (c < 4)%nat ->
  for_range 0 oh (fun y o => for_range 0 ow (fun x o => pixelStep write ow x y o) o)
    (replicate (ow * oh * 4) 0%Z) !! ((y * ow + x) * 4 + c)%nat
  = Some (writtenByte write x y c).
Proof using Type.
  set (before := fun (y0 x0 x y : nat) => ((y <? y0) || ((y =? y0) && (x <? x0)))%nat).
  set (Inv := fun (y0 x0 : nat) (o : list Z) =>
    length o = (ow * oh * 4)%nat
    /\ forall x y c, (x < ow)%nat -> (y < oh)%nat -> (c < 4)%nat ->
         o !! ((y * ow + x) * 4 + c)%nat
         = Some (if before y0 x0 x y then writtenByte write x y c else 0%Z)).
  assert (Hrow : forall y0 o, (y0 < oh)%nat -> Inv y0 0%nat o ->
            Inv (S y0) 0%nat (for_range 0 ow (fun x o => pixelStep write ow x y0 o) o)).
  { intros y0 o Hy0 Ho.
    assert (Inv y0 ow (for_range 0 ow (fun x o => pixelStep write ow x y0 o) o)) as Hend.
    { apply (for_range_ind (fun x0 o => Inv y0 x0 o)); [lia|exact Ho|].
      intros x0 o' Hx0 [Hlen Hcells]. split; [now rewrite length_pixelStep|].
      intros x1 y1 c1 Hx Hy Hc.
      rewrite pixelStep_lookup.
      - destruct (bool_decide_reflect
                    ((y0 * ow + x0) * 4 <= (y1 * ow + x1) * 4 + c1 < (y0 * ow + x0) * 4 + 4)%nat)
          as [Hin|Hno].
        + assert (y1 * ow + x1 = y0 * ow + x0)%nat as Hp by lia.
          destruct (pixelIndex_inj ow x1 y1 x0 y0 Hx ltac:(lia) Hp) as [-> ->].
          replace ((y0 * ow + x0) * 4 + c1 - (y0 * ow + x0) * 4)%nat with c1 by lia.
          unfold before. rewrite Nat.eqb_refl.
          assert ((x0 <? S x0)%nat = true) as -> by (apply Nat.ltb_lt; lia).
          now rewrite orb_true_r.
        + rewrite (Hcells x1 y1 c1 Hx Hy Hc). f_equal. unfold before.
          destruct (y1 <? y0)%nat; [reflexivity|]. simpl.
          destruct (y1 =? y0)%nat eqn:Ey; [|reflexivity]. simpl.
          apply Nat.eqb_eq in Ey. subst y1.
          assert (x1 <> x0) by (intros ->; apply Hno; lia).
          destruct (x1 <? x0)%nat eqn:E1, (x1 <? S x0)%nat eqn:E2; try reflexivity;
            [apply Nat.ltb_lt in E1; apply Nat.ltb_ge in E2
            |apply Nat.ltb_ge in E1; apply Nat.ltb_lt in E2]; lia.
      - rewrite Hlen. now apply channelIndex_bound.
      - intros Hin.
        assert (y1 * ow + x1 = y0 * ow + x0)%nat as Hp by lia.
        destruct (pixelIndex_inj ow x1 y1 x0 y0 Hx ltac:(lia) Hp) as [-> ->].
        rewrite (Hcells x0 y0 c1 Hx Hy Hc). f_equal. unfold before.
        rewrite !Nat.ltb_irrefl, Nat.eqb_refl. reflexivity. }
    destruct Hend as [Hlen Hcells]. split; [exact Hlen|].
    intros x1 y1 c1 Hx Hy Hc. rewrite (Hcells x1 y1 c1 Hx Hy Hc). f_equal. unfold before.
    assert ((x1 <? ow)%nat = true) as -> by (apply Nat.ltb_lt; exact Hx).
    assert ((x1 <? 0)%nat = false) as -> by reflexivity.
    rewrite andb_true_r, andb_false_r, orb_false_r.
    destruct (y1 <? y0)%nat eqn:E1, (y1 =? y0)%nat eqn:E2, (y1 <? S y0)%nat eqn:E3;
      try reflexivity; exfalso;
      rewrite ?Nat.ltb_lt, ?Nat.ltb_ge, ?Nat.eqb_eq, ?Nat.eqb_neq in *; lia. }
  intros Hx Hy Hc.
  assert (Inv oh 0%nat
            (for_range 0 oh (fun y o => for_range 0 ow (fun x o => pixelStep write ow x y o) o)
               (replicate (ow * oh * 4) 0%Z))) as [_ Hcells].
  { apply (for_range_ind (fun y0 o => Inv y0 0%nat o)); [lia| |].
    - split; [apply length_replicate|].
      intros x' y' c' Hx' Hy' Hc'. unfold before.
      change (x' <? 0)%nat with false. change (y' <? 0)%nat with false.
      rewrite andb_false_r. cbn [orb].
      apply lookup_replicate_2. now apply channelIndex_bound.
    - intros y0 o Hy0 Ho. apply Hrow; [lia|exact Ho]. }
  rewrite (Hcells x y c Hx Hy Hc). f_equal. unfold before.
  assert ((y <? oh)%nat = true) as -> by (apply Nat.ltb_lt; exact Hy). reflexivity.
Qed.

End PixelLoops.

(** ** The resampler in binary64 *)

Lemma for_range_ext {St : Type} (lo hi : nat) (f g : nat -> St -> St) (s : St) :
  (forall i st, f i st = g i st) -> for_range lo hi f s = for_range lo hi g s.
Proof.
  intros Hfg. unfold for_range. revert s.
  induction (seq lo (hi - lo)) as [|i l IH]; intros s; [reflexivity|].
  cbn [foldl]. rewrite Hfg. apply IH.
Qed.

(** A division by zero does not give a finite number. *)
Lemma floorZ_div_zero (a w : float) :
  (w =? 0)%float = true -> Binary64.floorZ (a / w) = None.
Proof.
  intros Hw. rewrite FloatAxioms.eqb_spec in Hw. unfold Binary64.floorZ.
  rewrite div_spec. change (Prim2SF 0) with (S754_zero false) in Hw.
  destruct (Prim2SF w) as [s|s| |s m e]; try discriminate Hw;
    try (destruct s; discriminate Hw).
  destruct (Prim2SF a) as [sa|sa| |sa ma ea]; reflexivity.
Qed.

Lemma readChannel64_inside (src : ImageData) (idx : Z) :
  (0 <= idx < Z.of_nat (length (data src)))%Z ->
  Binary64.readChannel src idx
  = Some (Binary64.ofZ (getZ (data src) (Z.to_nat idx))).
Proof.
  intros [H0 H1]. unfold Binary64.readChannel.
  assert ((idx <? 0)%Z = false) as -> by (apply Z.ltb_ge; exact H0).
  destruct (lookup_lt_is_Some_2 (data src) (Z.to_nat idx) ltac:(lia)) as [v Hv].
  unfold getZ. rewrite Hv. reflexivity.
Qed.

Lemma insideRaster_spec (src : ImageData) (x0 y0 : Z) :
  insideRaster src x0 y0 = true ->
  (0 <= x0 /\ x0 + 1 < Z.of_nat (width src)
   /\ 0 <= y0 /\ y0 + 1 < Z.of_nat (height src))%Z.
Proof.
  unfold insideRaster. rewrite !andb_true_iff, !Z.leb_le, !Z.ltb_lt. tauto.
Qed.

(** Inside a well-formed source the four reads find their bytes and the
    value computed is the interpolation written out. *)
Lemma bilinear64_inside (src : ImageData) (srcX srcY : float) (x0 y0 : Z) (c : nat) :
  wellFormed src -> insideRaster src x0 y0 = true -> (c < 4)%nat ->
  Binary64.bilinear src srcX srcY x0 y0 c = Some (interpolated src srcX srcY x0 y0 c).
Proof.
  intros Hwf Hin Hc. apply insideRaster_spec in Hin.
  pose proof (sampleIndices_inside src x0 y0 c Hwf Hin Hc) as Hall.
  unfold sampleIndices in Hall.
  apply Forall_cons in Hall as [H00 Hall]. apply Forall_cons in Hall as [H01 Hall].
  apply Forall_cons in Hall as [H10 Hall]. apply Forall_cons in Hall as [H11 _].
  unfold Binary64.bilinear.
  rewrite (readChannel64_inside src _ H00), (readChannel64_inside src _ H01),
          (readChannel64_inside src _ H10), (readChannel64_inside src _ H11).
  reflexivity.
Qed.

(** C9: in the arithmetic of the runtime, every channel of every
    destination pixel holds [expectedByte]: the bilinear interpolation
    between the four source pixels around [(floor(srcX), floor(srcY))],
    stored as a clamped byte, when that 2x2 neighbourhood lies inside the
    source, and the initial 0 otherwise.  When the neighbourhood lies inside
    a well-formed source the four reads stay inside its buffer, and when the
    divisor [w] is zero neither coordinate is finite and the pixel stays 0. *)
Theorem perspectiveTransform_pixel (src : ImageData) (corners : list Binary64.Point)
    (ow oh x y c : nat) :
  wellFormed src -> (x < ow)%nat -> (y < oh)%nat -> (c < 4)%nat ->
  let H := Binary64.computeHomography (Binary64.destinationCorners ow oh) corners in
  let h := Binary64.getF H in
  let w := (h 6%nat * Binary64.ofNat x + h 7%nat * Binary64.ofNat y + h 8%nat)%float in
  let srcX := ((h 0%nat * Binary64.ofNat x + h 1%nat * Binary64.ofNat y + h 2%nat) / w)%float in
  let srcY := ((h 3%nat * Binary64.ofNat x + h 4%nat * Binary64.ofNat y + h 5%nat) / w)%float in
  data (Binary64.perspectiveTransform src corners ow oh) !! ((y * ow + x) * 4 + c)%nat
    = Some (expectedByte src srcX srcY c)
  /\ (forall x0 y0, Binary64.floorZ srcX = Some x0 -> Binary64.floorZ srcY = Some y0 ->
        insideRaster src x0 y0 = true ->
        Forall (fun idx => (0 <= idx < Z.of_nat (length (data src)))%Z)
          [channelIndex src x0 y0 c; channelIndex src (x0 + 1) y0 c;
           channelIndex src x0 (y0 + 1) c; channelIndex src (x0 + 1) (y0 + 1) c])
  /\ ((w =? 0)%float = true ->
        Binary64.floorZ srcX = None /\ Binary64.floorZ srcY = None
        /\ expectedByte src srcX srcY c = 0%Z).
Proof.
  intros Hwf Hx Hy Hc H h w srcX srcY. split; [|split].
  - unfold Binary64.perspectiveTransform. cbn [data]. fold H.
    set (write := fun x y =>
      let s := Binary64.sourceCoordinates H x y in
      match Binary64.neighborhood src s with
      | Some (x0, y0) =>
          Some (fun c => match Binary64.bilinear src s.1 s.2 x0 y0 c with
                         | Some v => Binary64.storeByte v
                         | None => 0%Z
                         end)
      | None => None
      end).
    assert (forall x y o, Binary64.resamplePixel src H ow x y o = pixelStep write ow x y o)
      as Hstep.
    { intros x' y' o. unfold Binary64.resamplePixel, pixelStep, write. cbv zeta.
      destruct (Binary64.neighborhood src _) as [[x0 y0]|]; reflexivity. }
    transitivity (Some (writtenByte write x y c)).
    + rewrite <- (pixelLoops_lookup write ow oh x y c Hx Hy Hc).
      f_equal. apply for_range_ext. intros y' o. apply for_range_ext. intros x' o'.
      apply Hstep.
    + f_equal. unfold writtenByte, write, expectedByte, Binary64.neighborhood.
      change (Binary64.sourceCoordinates H x y) with (srcX, srcY). cbn [fst snd].
      destruct (Binary64.floorZ srcX) as [x0|]; [|reflexivity].
      destruct (Binary64.floorZ srcY) as [y0|]; [|reflexivity].
      fold (insideRaster src x0 y0).
      destruct (insideRaster src x0 y0) eqn:Hin; [|reflexivity].
      now rewrite (bilinear64_inside src srcX srcY x0 y0 c Hwf Hin Hc).
  - intros x0 y0 _ _ Hin. apply insideRaster_spec in Hin.
    exact (sampleIndices_inside src x0 y0 c Hwf Hin Hc).
  - intros Hw.
    pose proof (floorZ_div_zero
                  (h 0%nat * Binary64.ofNat x + h 1%nat * Binary64.ofNat y + h 2%nat) w Hw)
      as HX.
    pose proof (floorZ_div_zero
                  (h 3%nat * Binary64.ofNat x + h 4%nat * Binary64.ofNat y + h 5%nat) w Hw)
      as HY.
    fold srcX in HX. fold srcY in HY.
    split; [exact HX|]. split; [exact HY|]. unfold expectedByte. now rewrite HX.
Qed.

Lemma perspectiveTransform_pixel_witness :
  let src := mkImageData 3 3 (Z.of_nat <$> seq 10 36) in
  let corners := [Binary64.mkPoint 0.5 0.25; Binary64.mkPoint 1.5 0.5;
                  Binary64.mkPoint 1.75 1.5; Binary64.mkPoint 0.25 1.75] in
  let H := Binary64.computeHomography (Binary64.destinationCorners 2 2) corners in
  let h := Binary64.getF H in
  let w := (h 6%nat * Binary64.ofNat 1 + h 7%nat * Binary64.ofNat 1 + h 8%nat)%float in
  let srcX := ((h 0%nat * Binary64.ofNat 1 + h 1%nat * Binary64.ofNat 1 + h 2%nat) / w)%float in
  let srcY := ((h 3%nat * Binary64.ofNat 1 + h 4%nat * Binary64.ofNat 1 + h 5%nat) / w)%float in
  data (Binary64.perspectiveTransform src corners 2 2) !! ((1 * 2 + 1) * 4 + 0)%nat
    = Some (expectedByte src srcX srcY 0)
  /\ (forall x0 y0, Binary64.floorZ srcX = Some x0 -> Binary64.floorZ srcY = Some y0 ->
        insideRaster src x0 y0 = true ->
        Forall (fun idx => (0 <= idx < Z.of_nat (length (data src)))%Z)
          [channelIndex src x0 y0 0; channelIndex src (x0 + 1) y0 0;
           channelIndex src x0 (y0 + 1) 0; channelIndex src (x0 + 1) (y0 + 1) 0])
  /\ ((w =? 0)%float = true ->
        Binary64.floorZ srcX = None /\ Binary64.floorZ srcY = None
        /\ expectedByte src srcX srcY 0 = 0%Z).
Proof.
  apply (perspectiveTransform_pixel (mkImageData 3 3 (Z.of_nat <$> seq 10 36))
           [Binary64.mkPoint 0.5 0.25; Binary64.mkPoint 1.5 0.5;
            Binary64.mkPoint 1.75 1.5; Binary64.mkPoint 0.25 1.75] 2 2 1 1 0);
    [reflexivity|lia|lia|lia].
Defined.

(** ** Resampling with the identity matrix *)

Lemma perspectiveTransform_resampleWith (src : ImageData) (corners : list Point)
    (ow oh : nat) :
  data (perspectiveTransform src corners ow oh)
  = resampleWith src (computeHomography (destinationCorners ow oh) corners) ow oh.
Proof. reflexivity. Qed.

(** C6 (as the code has it): whenever the matrix solved for the full
    rectangle is exactly the identity, resampling into an output of the same
    size reproduces exactly every pixel that has a right and a lower
    neighbour and leaves the pixels of the last column and of the last row
    at 0 in all four channels. *)
Theorem identity_resample (src : ImageData) (H : list Q) (x y c : nat) :
  wellFormed src -> byteBuffer (data src) ->
  (x < width src)%nat -> (y < height src)%nat -> (c < 4)%nat ->
  (forall k, (k < 9)%nat -> getQ H k == identityEntry k) ->
  resampleWith src H (width src) (height src) !! ((y * width src + x) * 4 + c)%nat
  = Some (if ((x + 1 <? width src) && (y + 1 <? height src))%nat
          then getZ (data src) ((y * width src + x) * 4 + c) else 0%Z).
Proof.
  intros Hwf Hbytes Hx Hy Hc Hid. unfold resampleWith.
  rewrite (resample_rows src H (width src) (height src) x y c Hx Hy Hc). f_equal.
  pose proof (Hid 0%nat ltac:(lia)) as I0. pose proof (Hid 1%nat ltac:(lia)) as I1.
  pose proof (Hid 2%nat ltac:(lia)) as I2. pose proof (Hid 3%nat ltac:(lia)) as I3.
  pose proof (Hid 4%nat ltac:(lia)) as I4. pose proof (Hid 5%nat ltac:(lia)) as I5.
  pose proof (Hid 6%nat ltac:(lia)) as I6. pose proof (Hid 7%nat ltac:(lia)) as I7.
  pose proof (Hid 8%nat ltac:(lia)) as I8. clear Hid.
  change (identityEntry 0) with 1 in I0. change (identityEntry 1) with 0 in I1.
  change (identityEntry 2) with 0 in I2. change (identityEntry 3) with 0 in I3.
  change (identityEntry 4) with 1 in I4. change (identityEntry 5) with 0 in I5.
  change (identityEntry 6) with 0 in I6. change (identityEntry 7) with 0 in I7.
  change (identityEntry 8) with 1 in I8.
  assert (reproduces (sourceCoordinates H x y) (mkPoint (Qnat x) (Qnat y))) as Hrep.
  { apply sourceCoordinates_reproduces; unfold projectiveDivisor; cbn [px py];
      rewrite ?I0, ?I1, ?I2, ?I3, ?I4, ?I5, ?I6, ?I7, ?I8; [intros Hc0|..]; lra. }
  destruct (sourceCoordinates H x y) as [[sx| | |] [sy| | |]]; try contradiction.
  destruct Hrep as [Hsx Hsy]. cbn [px py] in Hsx, Hsy.
  now apply resampledByte_exact.
Qed.

Lemma identity_resample_witness :
  let src := mkImageData 3 3 (Z.of_nat <$> seq 10 36) in
  resampleWith src [1; 0; 0; 0; 1; 0; 0; 0; 1] (width src) (height src)
    !! ((1 * width src + 1) * 4 + 0)%nat
  = Some (if ((1 + 1 <? width src) && (1 + 1 <? height src))%nat
          then getZ (data src) ((1 * width src + 1) * 4 + 0) else 0%Z).
Proof.
  apply (identity_resample (mkImageData 3 3 (Z.of_nat <$> seq 10 36))
           [1; 0; 0; 0; 1; 0; 0; 0; 1] 1 1 0);
    [reflexivity| |cbn; lia|cbn; lia|lia|].
  - unfold byteBuffer. refine (bool_decide_unpack _ _). vm_compute. exact I.
  - intros k Hk. reflexivity.
Defined.

(** C6 (as stated) fails.  In the 2x2 raster that holds 255 everywhere the
    pixel (1, 0) has no right neighbour: it is 255 in the input and 0 in the
    output, in exact arithmetic and in binary64 alike (the matrix solved is
    the identity in both).  For a 3x2 raster the binary64 solver returns a
    matrix that is not exactly the identity ([H[5]] is negative), the source
    row of the first output row falls just above the raster and the whole
    output stays 0. *)
Lemma identity_resample_counterexample :
  let src := mkImageData 2 2 (replicate 16 255%Z) in
  let wide := mkImageData 3 2 (replicate 24 255%Z) in
  data src !! 4%nat = Some 255%Z
  /\ data (perspectiveTransform src (destinationCorners 2 2) 2 2) !! 4%nat = Some 0%Z
  /\ Binary64.computeHomography (Binary64.destinationCorners 2 2) (Binary64.destinationCorners 2 2)
     = [1; 0; 0; 0; 1; 0; 0; 0; 1]%float
  /\ data (Binary64.perspectiveTransform src (Binary64.destinationCorners 2 2) 2 2) !! 4%nat
     = Some 0%Z
  /\ (Binary64.getF (Binary64.computeHomography (Binary64.destinationCorners 3 2)
                       (Binary64.destinationCorners 3 2)) 5 <? 0)%float = true
  /\ data (Binary64.perspectiveTransform wide (Binary64.destinationCorners 3 2) 3 2)
     = replicate 24 0%Z.
Proof.
  split; [vm_compute; reflexivity|]. split; [vm_compute; reflexivity|].
  split; [vm_compute; reflexivity|]. split; [vm_compute; reflexivity|].
  split; vm_compute; reflexivity.
Qed.

(** Where the binary64 solver returns the identity exactly, as for 1x1 and
    2x2 rasters, the binary64 resampler writes what the loops write with the
    identity matrix. *)
Lemma identity_resample_binary64 :
  let one := mkImageData 1 1 [7; 8; 9; 255]%Z in
  let two := mkImageData 2 2 (Z.of_nat <$> seq 100 16) in
  Binary64.computeHomography (Binary64.destinationCorners 1 1) (Binary64.destinationCorners 1 1)
  = [1; 0; 0; 0; 1; 0; 0; 0; 1]%float
  /\ data (Binary64.perspectiveTransform one (Binary64.destinationCorners 1 1) 1 1)
     = resampleWith one [1; 0; 0; 0; 1; 0; 0; 0; 1] 1 1
  /\ data (Binary64.perspectiveTransform two (Binary64.destinationCorners 2 2) 2 2)
     = resampleWith two [1; 0; 0; 0; 1; 0; 0; 0; 1] 2 2
  /\ resampleWith two [1; 0; 0; 0; 1; 0; 0; 0; 1] 2 2
     = [100; 101; 102; 103; 0; 0; 0; 0; 0; 0; 0; 0; 0; 0; 0; 0]%Z.
Proof. repeat split; vm_compute; reflexivity. Qed.

(** ** The round trip in binary64 *)

(** C7 (as stated) fails in binary64, through the normal equations.  For
    the unit square and the thin convex quadrilateral (1,1), (1048577,1),
    (2097153,2), (1,2), no three corners of which are on a line, the matrix
    solved sends the corner (0,0) to a point whose second coordinate misses
    1 by more than 1e-4, a hundred times the tolerance of 1e-6.  For the
    convex quadrilateral (1,1), (168897,3), (337792,5), (0,7) the corner
    (0,1), sent to (0,7) in exact arithmetic, comes back with a second
    coordinate above 461: the error is larger than 1e-6 times any coordinate
    of the quadrilateral. *)
Lemma computeHomography_tolerance_counterexample :
  let H := Binary64.computeHomography (Binary64.destinationCorners 1 1) sliver64 in
  let N := Binary64.computeHomography (Binary64.destinationCorners 1 1) needle64 in
  (convexQuad sliver /\ generalPosition sliver)
  /\ withinTolerance (1 # 1000000) (Binary64.sourceCoordinates H 0 0).2 1 = false
  /\ withinTolerance (1 # 10000) (Binary64.sourceCoordinates H 0 0).2 1 = false
  /\ withinTolerance (1 # 1000) (Binary64.sourceCoordinates H 0 0).2 1 = true
  /\ (convexQuad needle /\ generalPosition needle)
  /\ reproduces (sourceCoordinates (computeHomography (destinationCorners 1 1) needle) 0 1)
       (mkPoint 0 7)
  /\ withinTolerance (1 # 1000000) (Binary64.sourceCoordinates N 0 1).2 7 = false
  /\ (461 <? (Binary64.sourceCoordinates N 0 1).2)%float = true.
Proof.
  split; [split; [repeat split; vm_compute; reflexivity|]|].
  { repeat split; intros Hc; vm_compute in Hc; discriminate Hc. }
  split; [vm_compute; reflexivity|]. split; [vm_compute; reflexivity|].
  split; [vm_compute; reflexivity|].
  split; [split; [repeat split; vm_compute; reflexivity|]|].
  { repeat split; intros Hc; vm_compute in Hc; discriminate Hc. }
  split; [vm_compute; split; reflexivity|].
  split; vm_compute; reflexivity.
Qed.

(** On a quadrilateral that is not thin the binary64 corners are within the
    tolerance: the four corners of the 6x5 rectangle come back within 1e-6
    of (1,1), (9,2), (8,7), (0,6), the last first coordinate being compared
    with 0 on the scale of the rectangle. *)
Lemma computeHomography_tolerance_sample :
  let H := Binary64.computeHomography (Binary64.destinationCorners 6 5)
             [Binary64.mkPoint 1 1; Binary64.mkPoint 9 2;
              Binary64.mkPoint 8 7; Binary64.mkPoint 0 6] in
  withinTolerance (1 # 1000000) (Binary64.sourceCoordinates H 0 0).1 1 = true
  /\ withinTolerance (1 # 1000000) (Binary64.sourceCoordinates H 0 0).2 1 = true
  /\ withinTolerance (1 # 1000000) (Binary64.sourceCoordinates H 6 0).1 9 = true
  /\ withinTolerance (1 # 1000000) (Binary64.sourceCoordinates H 6 0).2 2 = true
  /\ withinTolerance (1 # 1000000) (Binary64.sourceCoordinates H 6 5).1 8 = true
  /\ withinTolerance (1 # 1000000) (Binary64.sourceCoordinates H 6 5).2 7 = true
  /\ withinTolerance (1 # 1000000) (Binary64.sourceCoordinates H 0 5).2 6 = true.
Proof. repeat split; vm_compute; reflexivity. Qed.

(** ** The mask of doubleThreshold on the magnitudes it receives *)

Lemma suppressionStep_other (mag dir : list Q) (w : nat) (p : nat * nat) (s : list Q)
    (j : nat) :
  j <> pixelIndex w p -> suppressionStep mag dir w p s !! j = s !! j.
Proof.
  intros Hj. unfold suppressionStep. cbv zeta. destruct (_ && _); [|reflexivity].
  apply list_lookup_insert_ne. intros E. apply Hj. now rewrite <- E.
Qed.

(** What [nonMaxSuppression] hands over has a border of zeros. *)
Lemma nonMaxSuppression_zeroBorder (mag dir : list Q) (w h : nat) :
  length mag = (w * h)%nat -> zeroBorder (nonMaxSuppression mag dir w h) w h.
Proof.
  intros Hlen x y Hx Hy Hb. unfold nonMaxSuppression. rewrite rasterScan_foldl.
  change (foldl _ (replicate (length mag) 0) (interiorPositions w h))
    with (foldl (fun st p => suppressionStep mag dir w p st) (replicate (length mag) 0)
            (interiorPositions w h)).
  unfold getQ.
  rewrite (foldl_local_other (pixelIndex w) (suppressionStep mag dir w)
             (suppressionStep_other mag dir w)).
  - rewrite lookup_replicate_2; [reflexivity|].
    rewrite Hlen. apply (pixelIndex_bound w h x y Hx Hy).
  - intros [x' y'] Hp E. apply elem_of_interiorPositions in Hp as Hp'.
    apply (pixelIndex_inj w x' y' x y) in E as [-> ->]; [|destruct Hp'; lia|exact Hx].
    apply interiorb_spec in Hp'. congruence.
Qed.

(** On the border of such a buffer thresholding leaves 0, or 255 when the
    largest magnitude is 0; never 128. *)
Lemma thresholded_border (edges : list Q) (w h x y : nat) :
  length edges = (w * h)%nat -> zeroBorder edges w h ->
  (x < w)%nat -> (y < h)%nat -> interiorb w h x y = false ->
  thresholded edges !! (y * w + x)%nat = Some 0%Z
  \/ thresholded edges !! (y * w + x)%nat = Some 255%Z.
Proof.
  intros Hlen Hzero Hx Hy Hb. unfold thresholded.
  rewrite applyThresholds_lookup
    by (rewrite Hlen; apply (pixelIndex_bound w h x y Hx Hy)).
  specialize (Hzero x y Hx Hy Hb).
  destruct (maxMagnitude_spec edges) as (Hpos & _ & _).
  destruct (Qleb (maxMagnitude edges * 0.15) _) eqn:E1; [now right|].
  apply Qleb_nle in E1.
  assert (Qleb (maxMagnitude edges * 0.15 * 0.4) (getQ edges (y * w + x)) = false) as ->;
    [|now left].
  apply Qleb_nle. lra.
Qed.

(** C4 (as the code has it), for a buffer of [w * h] magnitudes whose
    border is 0, as [nonMaxSuppression] hands it over.  A weak pixel lies in
    the interior; it becomes 255 if one of its 8 neighbours is 255 in the
    buffer as the pass finds it ([atVisit]: final values before the pixel,
    thresholded values after it) and 0 if none is.  So it is promoted when a
    neighbour was thresholded strong, it is dropped when no neighbour ends
    at 255, and a weak pixel next to a weak pixel promoted before it is
    promoted too.  Every other pixel keeps its thresholded value, and the
    mask is binary: it holds only 0 and 255. *)
Theorem doubleThreshold_hysteresis (edges : list Q) (w h x y : nat) :
  length edges = (w * h)%nat -> zeroBorder edges w h -> (x < w)%nat -> (y < h)%nat ->
  let thr := thresholded edges in
  let out := doubleThreshold edges w h in
  let k := (y * w + x)%nat in
  let seen := atVisit out thr k in
  (thr !! k = Some 128%Z ->
     interiorb w h x y = true
     /\ ((exists j, j ∈ neighborIndices w x y /\ seen !! j = Some 255%Z) ->
         out !! k = Some 255%Z)
     /\ ((forall j, j ∈ neighborIndices w x y -> seen !! j <> Some 255%Z) ->
         out !! k = Some 0%Z)
     /\ ((exists j, j ∈ neighborIndices w x y /\ thr !! j = Some 255%Z) ->
         out !! k = Some 255%Z)
     /\ ((forall j, j ∈ neighborIndices w x y -> out !! j <> Some 255%Z) ->
         out !! k = Some 0%Z))
  /\ (thr !! k <> Some 128%Z -> out !! k = thr !! k)
  /\ (exists v, out !! k = Some v /\ binaryValue v).
Proof.
  intros Hlen Hzero Hx Hy thr out k seen.
  assert (Hout : out = hysteresis w h thr) by reflexivity.
  assert (Hlthr : length thr = (w * h)%nat).
  { unfold thr, thresholded. now rewrite length_applyThresholds. }
  assert (Hlout : length out = length thr) by (rewrite Hout; apply length_hysteresis).
  assert (Hk : (k < w * h)%nat) by (apply (pixelIndex_bound w h x y Hx Hy)).
  assert (Hint : interiorb w h x y = true ->
            out !! k = if bool_decide (thr !! k = Some 128%Z)
                       then Some (if hasStrongNeighbor seen w x y then 255%Z else 0%Z)
                       else thr !! k).
  { intros Hb. apply interiorb_spec in Hb.
    destruct (hysteresis_visit w h thr x y Hb) as (s & -> & Hs). rewrite Hout. exact Hs. }
  assert (Hborder : interiorb w h x y = false ->
            out !! k = thr !! k /\ (thr !! k = Some 0%Z \/ thr !! k = Some 255%Z)).
  { intros Hb. split; [rewrite Hout; now apply hysteresis_border|].
    now apply (thresholded_border edges w h x y). }
  assert (Hkeep : thr !! k <> Some 128%Z -> out !! k = thr !! k).
  { intros Hne. destruct (interiorb w h x y) eqn:Hb; [|now apply Hborder].
    rewrite (Hint eq_refl). now rewrite bool_decide_eq_false_2. }
  assert (Hstrong : forall j, seen !! j = Some 255%Z -> out !! j = Some 255%Z).
  { intros j E. unfold seen in E. rewrite atVisit_lookup in E by exact Hlout.
    destruct (j <? k)%nat; [exact E|]. rewrite Hout. now apply hysteresis_strong. }
  split; [|split; [exact Hkeep|]].
  - intros Hweak.
    assert (interiorb w h x y = true) as Hb.
    { destruct (interiorb w h x y) eqn:Hb; [reflexivity|].
      destruct (Hborder eq_refl) as [_ [E|E]]; congruence. }
    split; [exact Hb|].
    pose proof (Hint Hb) as Hv. rewrite bool_decide_eq_true_2 in Hv by exact Hweak.
    apply interiorb_spec in Hb as [[Hx1 _] [Hy1 _]].
    assert (Hself : seen !! k <> Some 255%Z).
    { unfold seen. rewrite atVisit_lookup by exact Hlout. rewrite Nat.ltb_irrefl. congruence. }
    assert (Hyes : (exists j, j ∈ neighborIndices w x y /\ seen !! j = Some 255%Z) ->
              out !! k = Some 255%Z).
    { intros (j & Hj & E). rewrite Hv.
      assert (hasStrongNeighbor seen w x y = true) as ->; [|reflexivity].
      apply hasStrongNeighbor_spec; [lia|lia|]. right. now exists j. }
    assert (Hno : (forall j, j ∈ neighborIndices w x y -> seen !! j <> Some 255%Z) ->
              out !! k = Some 0%Z).
    { intros Hnone. rewrite Hv.
      destruct (hasStrongNeighbor seen w x y) eqn:E; [|reflexivity].
      exfalso. apply hasStrongNeighbor_spec in E as [E|(j & Hj & E)]; [| |lia|lia].
      - now apply Hself.
      - now apply (Hnone j Hj). }
    split; [exact Hyes|]. split; [exact Hno|]. split.
    + intros (j & Hj & E). apply Hyes. exists j. split; [exact Hj|].
      unfold seen. rewrite atVisit_lookup by exact Hlout.
      destruct (j <? k)%nat; [|exact E]. rewrite Hout. now apply hysteresis_strong.
    + intros Hnone. apply Hno. intros j Hj E. apply (Hnone j Hj). now apply Hstrong.
  - destruct (lookup_lt_is_Some_2 out k ltac:(lia)) as [v Hv].
    exists v. split; [exact Hv|].
    destruct (interiorb w h x y) eqn:Hb.
    + rewrite (Hint eq_refl) in Hv.
      destruct (bool_decide_reflect (thr !! k = Some 128%Z)) as [E|E].
      * injection Hv as <-. destruct (hasStrongNeighbor _ _ _ _); [now right|now left].
      * assert (Forall maskValue thr) as Hall by apply applyThresholds_values.
        rewrite Forall_lookup in Hall. destruct (Hall k v Hv) as [-> | [-> | ->]];
          [now left|contradiction|now right].
    + destruct (Hborder eq_refl) as [E [E0|E255]]; rewrite E in Hv.
      * rewrite E0 in Hv. injection Hv as <-. now left.
      * rewrite E255 in Hv. injection Hv as <-. now right.
Qed.

Lemma doubleThreshold_hysteresis_witness :
  let edges := thinEdges sampleMath darkSpeck in
  let thr := thresholded edges in
  let out := doubleThreshold edges 8 8 in
  let k := (4 * 8 + 3)%nat in
  let seen := atVisit out thr k in
  (thr !! k = Some 128%Z ->
     interiorb 8 8 3 4 = true
     /\ ((exists j, j ∈ neighborIndices 8 3 4 /\ seen !! j = Some 255%Z) ->
         out !! k = Some 255%Z)
     /\ ((forall j, j ∈ neighborIndices 8 3 4 -> seen !! j <> Some 255%Z) ->
         out !! k = Some 0%Z)
     /\ ((exists j, j ∈ neighborIndices 8 3 4 /\ thr !! j = Some 255%Z) ->
         out !! k = Some 255%Z)
     /\ ((forall j, j ∈ neighborIndices 8 3 4 -> out !! j <> Some 255%Z) ->
         out !! k = Some 0%Z))
  /\ (thr !! k <> Some 128%Z -> out !! k = thr !! k)
  /\ (exists v, out !! k = Some v /\ binaryValue v).
Proof.
  apply (doubleThreshold_hysteresis (thinEdges sampleMath darkSpeck) 8 8 3 4);
    [vm_compute; reflexivity| |lia|lia].
  unfold thinEdges. cbv zeta. apply nonMaxSuppression_zeroBorder.
  vm_compute. reflexivity.
Defined.

(** C4 (as stated) fails on a raster, [darkSpeck], run through the pipeline
    up to the classifier.  Thresholding leaves three weak pixels: (3, 3),
    (2, 4) and (3, 4).  None of the neighbours of (3, 4) was thresholded
    strong, so the specification drops it; the pass promotes it, because (2, 4) was
    promoted just before it.  And (3, 3) is dropped although its neighbours
    (2, 4) and (3, 4) end at 255: they are promoted after it was visited. *)
Lemma doubleThreshold_counterexample :
  edgeMask sampleMath darkSpeck = doubleThreshold (thinEdges sampleMath darkSpeck) 8 8
  /\ thresholded (thinEdges sampleMath darkSpeck)
     = [0; 0; 0; 0; 0; 0; 0; 0;
        0; 255; 255; 255; 255; 255; 255; 0;
        0; 255; 0; 0; 0; 0; 255; 0;
        0; 255; 0; 128; 0; 0; 255; 0;
        0; 255; 128; 128; 0; 0; 255; 0;
        0; 255; 0; 0; 0; 0; 255; 0;
        0; 255; 255; 255; 255; 255; 255; 0;
        0; 0; 0; 0; 0; 0; 0; 0]%Z
  /\ specifiedMask (thresholded (thinEdges sampleMath darkSpeck)) 8
     = [0; 0; 0; 0; 0; 0; 0; 0;
        0; 255; 255; 255; 255; 255; 255; 0;
        0; 255; 0; 0; 0; 0; 255; 0;
        0; 255; 0; 0; 0; 0; 255; 0;
        0; 255; 255; 0; 0; 0; 255; 0;
        0; 255; 0; 0; 0; 0; 255; 0;
        0; 255; 255; 255; 255; 255; 255; 0;
        0; 0; 0; 0; 0; 0; 0; 0]%Z
  /\ doubleThreshold (thinEdges sampleMath darkSpeck) 8 8
     = [0; 0; 0; 0; 0; 0; 0; 0;
        0; 255; 255; 255; 255; 255; 255; 0;
        0; 255; 0; 0; 0; 0; 255; 0;
        0; 255; 0; 0; 0; 0; 255; 0;
        0; 255; 255; 255; 0; 0; 255; 0;
        0; 255; 0; 0; 0; 0; 255; 0;
        0; 255; 255; 255; 255; 255; 255; 0;
        0; 0; 0; 0; 0; 0; 0; 0]%Z.
Proof. repeat split; vm_compute; reflexivity. Qed.

(** ** The rounding [roundTo] keeps the sign *)

Lemma roundHalfEven_pos (q : Q) : 1 <= q -> (1 <= roundHalfEven q)%Z.
Proof.
  intros Hq. unfold roundHalfEven.
  assert (Hf : (1 <= Qfloor q)%Z).
  { change 1%Z with (Qfloor 1). now apply Qfloor_resp_le. }
  destruct (Qltb _ _); [exact Hf|].
  destruct (Qltb _ _); [lia|].
  destruct (Z.even _); lia.
Qed.

Lemma Qpower2_pos (e : Z) : 0 < 2 ^ e.
Proof. apply Qpower_0_lt. reflexivity. Qed.

Lemma Qpower2_Z (k : Z) : (0 <= k)%Z -> 2 ^ k == inject_Z (2 ^ k).
Proof. intros Hk. now rewrite (Zpower_Qpower 2 k Hk). Qed.

(** A positive fraction lies above the power of two one below the
    difference of the bit lengths of its numerator and denominator. *)
Lemma Qpower2_below (n : Z) (d : positive) :
  (0 < n)%Z -> 2 ^ (Z.log2 n - Z.log2 (Z.pos d) - 1) <= n # d.
Proof.
  intros Hn.
  pose proof (Z.log2_nonneg n) as Hln.
  pose proof (Z.log2_nonneg (Z.pos d)) as Hld.
  destruct (Z.log2_spec n Hn) as [Hn1 Hn2].
  destruct (Z.log2_spec (Z.pos d) (Pos2Z.is_pos d)) as [Hd1 Hd2].
  replace (Z.log2 n - Z.log2 (Z.pos d) - 1)%Z
    with (Z.log2 n - Z.succ (Z.log2 (Z.pos d)))%Z by lia.
  rewrite Qpower_minus by (intros E; discriminate E).
  rewrite (Qpower2_Z (Z.log2 n)) by lia.
  rewrite (Qpower2_Z (Z.succ (Z.log2 (Z.pos d)))) by lia.
  set (A := (2 ^ Z.log2 n)%Z) in *.
  set (B := (2 ^ Z.succ (Z.log2 (Z.pos d)))%Z) in *.
  assert (HB : (0 < B)%Z) by lia.
  apply Qle_shift_div_r.
  - change 0 with (inject_Z 0). rewrite <- Zlt_Qlt. exact HB.
  - unfold Qle, Qmult, inject_Z. cbn [Qnum Qden].
    rewrite Pos.mul_1_r. nia.
Qed.

(** The scale [roundTo] picks is at most the number it rounds. *)
Lemma roundTo_exponent (a : Q) :
  0 < a ->
  let e := (Z.log2 (Qnum a) - Z.log2 (Z.pos (Qden a)))%Z in
  2 ^ (if Qltb a (2 ^ e) then (e - 1)%Z else e) <= a.
Proof.
  intros Ha e. destruct (Qltb a (2 ^ e)) eqn:E.
  - destruct a as [n d]. unfold e. cbn [Qnum Qden].
    apply Qpower2_below. unfold Qlt in Ha. cbn in Ha. lia.
  - apply Qltb_nlt in E. lra.
Qed.

Lemma roundTo_sign (prec : Z) (q : Q) :
  (1 <= prec)%Z -> Qleb (roundTo prec q) 0 = Qleb q 0.
Proof.
  intros Hp. unfold roundTo.
  destruct (Qeqb q 0) eqn:E0.
  - apply Qeq_bool_eq in E0. symmetry. apply Qleb_le. lra.
  - apply Qeq_bool_neq in E0.
    assert (Ha : 0 < Qabs q).
    { apply Qabs_case; intros Hs; apply Qnot_le_lt; intros H; apply E0; lra. }
    pose proof (roundTo_exponent (Qabs q) Ha) as He. cbv zeta in He |- *.
    set (e := if Qltb (Qabs q) _ then _ else _) in *.
    set (ulp := 2 ^ (e - (prec - 1))).
    assert (Hulp : 0 < ulp) by apply Qpower2_pos.
    assert (Hm : (1 <= roundHalfEven (Qabs q / ulp))%Z).
    { apply roundHalfEven_pos. apply Qle_shift_div_l; [exact Hulp|].
      rewrite Qmult_1_l. apply Qle_trans with (2 ^ e); [|exact He].
      unfold ulp. rewrite Qpower_minus by (intros E; discriminate E).
      apply Qle_shift_div_r; [apply Qpower2_pos|].
      rewrite <- (Qmult_1_r (2 ^ e)) at 1.
      apply Qmult_le_l; [apply Qpower2_pos|].
      rewrite Qpower2_Z by lia. change 1 with (inject_Z 1). rewrite <- Zle_Qle.
      pose proof (Z.pow_pos_nonneg 2 (prec - 1)). lia. }
    assert (HM : 1 <= inject_Z (roundHalfEven (Qabs q / ulp))).
    { change 1 with (inject_Z 1). now rewrite <- Zle_Qle. }
    set (m := inject_Z (roundHalfEven (Qabs q / ulp))) in *.
    assert (Hprod : 0 < m * ulp) by (apply Qmult_lt_0_compat; lra).
    rewrite (Qleb_comp _ _ 0 0 (Qred_correct _) (Qeq_refl 0)).
    destruct (Qltb q 0) eqn:Es.
    + apply Qltb_lt in Es.
      transitivity true; [apply Qleb_le | symmetry; apply Qleb_le]; lra.
    + apply Qltb_nlt in Es.
      assert (Hq : 0 < q).
      { apply Qnot_le_lt. intros H. apply E0. lra. }
      transitivity false; [apply Qleb_nle | symmetry; apply Qleb_nle]; lra.
Qed.

Lemma binary64_signFaithful : Rounded.signFaithful binary64.
Proof. intros u v. apply roundTo_sign. lia. Qed.

(** ** orderCorners applied twice *)

Section RoundedOrder.
Variable fl : Q -> Q.
Hypothesis Hsign : Rounded.signFaithful fl.

Ltac norm_rounded :=
  cbn [insertSorted foldr] in *;
  repeat (rewrite getP_0 in * || rewrite getP_S in * ).

(** Case split on the next comparison of a sort, dropping the branches the
    comparisons made so far rule out. *)
Ltac split_rounded :=
  match goal with
  | |- context [Qleb (fl (fl ?u - fl ?v)) 0] =>
      let E := fresh "E" in
      lazymatch u with context [Qleb _ _] => fail | _ => idtac end;
      lazymatch v with context [Qleb _ _] => fail | _ => idtac end;
      rewrite (Hsign u v);
      destruct (Qleb (fl u - fl v) 0) eqn:E;
      [apply Qleb_le in E | apply Qleb_nle in E];
      norm_rounded;
      try (exfalso; lra)
  end.

Ltac order_rounded :=
  unfold Rounded.orderCorners at 2; unfold sortBy, Rounded.cornerSum, Rounded.cornerDiff;
  norm_rounded;
  repeat split_rounded;
  unfold Rounded.orderCorners, sortBy, Rounded.cornerSum, Rounded.cornerDiff; norm_rounded;
  repeat split_rounded; reflexivity.

Lemma orderCorners_rounded_first (a b c d : Point) :
  Rounded.cornerSum fl b < Rounded.cornerSum fl a ->
  Rounded.cornerSum fl c < Rounded.cornerSum fl a ->
  Rounded.cornerSum fl d < Rounded.cornerSum fl a ->
  Rounded.orderCorners fl (Rounded.orderCorners fl [a; b; c; d])
  = Rounded.orderCorners fl [a; b; c; d].
Proof using Hsign. unfold Rounded.cornerSum. intros H1 H2 H3. order_rounded. Qed.

Lemma orderCorners_rounded_second (a b c d : Point) :
  Rounded.cornerSum fl a < Rounded.cornerSum fl b ->
  Rounded.cornerSum fl c < Rounded.cornerSum fl b ->
  Rounded.cornerSum fl d < Rounded.cornerSum fl b ->
  Rounded.orderCorners fl (Rounded.orderCorners fl [a; b; c; d])
  = Rounded.orderCorners fl [a; b; c; d].
Proof using Hsign. unfold Rounded.cornerSum. intros H1 H2 H3. order_rounded. Qed.

Lemma orderCorners_rounded_third (a b c d : Point) :
  Rounded.cornerSum fl a < Rounded.cornerSum fl c ->
  Rounded.cornerSum fl b < Rounded.cornerSum fl c ->
  Rounded.cornerSum fl d < Rounded.cornerSum fl c ->
  Rounded.orderCorners fl (Rounded.orderCorners fl [a; b; c; d])
  = Rounded.orderCorners fl [a; b; c; d].
Proof using Hsign. unfold Rounded.cornerSum. intros H1 H2 H3. order_rounded. Qed.

Lemma orderCorners_rounded_fourth (a b c d : Point) :
  Rounded.cornerSum fl a < Rounded.cornerSum fl d ->
  Rounded.cornerSum fl b < Rounded.cornerSum fl d ->
  Rounded.cornerSum fl c < Rounded.cornerSum fl d ->
  Rounded.orderCorners fl (Rounded.orderCorners fl [a; b; c; d])
  = Rounded.orderCorners fl [a; b; c; d].
Proof using Hsign. unfold Rounded.cornerSum. intros H1 H2 H3. order_rounded. Qed.

End RoundedOrder.
(** With nothing rounded the corner orderer is [orderCorners]. *)
Lemma orderCorners_unrounded (q : list Point) :
  Rounded.orderCorners (fun s => s) q = orderCorners q.
Proof. reflexivity. Qed.

(** C8 (as the code has it): for four corners of which one has a computed [x + y]
    strictly larger than every other's, ordering the ordered corners again
    changes nothing.  The sums and differences are the rounded ones the
    runtime compares; the rounding is any that keeps the sign of a
    difference, as binary64 does. *)
Theorem orderCorners_idempotent (fl : Q -> Q) (q : list Point) :
  Rounded.signFaithful fl ->
  length q = 4%nat ->
  Rounded.largestSumUnique fl q ->
  Rounded.orderCorners fl (Rounded.orderCorners fl q) = Rounded.orderCorners fl q.
Proof.
  intros Hsign Hlen [i [Hi Hmax]].
  destruct q as [|a [|b [|c [|d [|? ?]]]]]; try discriminate Hlen.
  cbn [length] in Hi, Hmax.
  destruct i as [|[|[|[|i]]]]; try lia.
  - apply orderCorners_rounded_first; [exact Hsign|..].
    + apply (Hmax 1%nat); lia.
    + apply (Hmax 2%nat); lia.
    + apply (Hmax 3%nat); lia.
  - apply orderCorners_rounded_second; [exact Hsign|..].
    + apply (Hmax 0%nat); lia.
    + apply (Hmax 2%nat); lia.
    + apply (Hmax 3%nat); lia.
  - apply orderCorners_rounded_third; [exact Hsign|..].
    + apply (Hmax 0%nat); lia.
    + apply (Hmax 1%nat); lia.
    + apply (Hmax 3%nat); lia.
  - apply orderCorners_rounded_fourth; [exact Hsign|..].
    + apply (Hmax 0%nat); lia.
    + apply (Hmax 1%nat); lia.
    + apply (Hmax 2%nat); lia.
Qed.

Lemma orderCorners_idempotent_witness :
  Rounded.orderCorners binary64 (Rounded.orderCorners binary64 askewSheet)
  = Rounded.orderCorners binary64 askewSheet.
Proof.
  apply (orderCorners_idempotent binary64 askewSheet);
    [exact binary64_signFaithful | reflexivity |].
  exists 3%nat. split; [simpl; lia|].
  intros [|[|[|[|j]]]] Hj Hne; simpl in Hj; try lia; vm_compute; reflexivity.
Defined.

(** C8 (as stated) fails on the diamond: its two lowest corners tie on
    [x + y], and the second pass exchanges bottom-right and bottom-left.
    The coordinates are small integers, so the exact sums, the rounded sums
    and the binary64 sums agree. *)
Lemma orderCorners_diamond_counterexample :
  (orderCorners diamond
     = [mkPoint 0 10; mkPoint 10 0; mkPoint 20 10; mkPoint 10 20]
   /\ orderCorners (orderCorners diamond)
     = [mkPoint 0 10; mkPoint 10 0; mkPoint 10 20; mkPoint 20 10])
  /\ (Rounded.orderCorners binary64 diamond
     = [mkPoint 0 10; mkPoint 10 0; mkPoint 20 10; mkPoint 10 20]
   /\ Rounded.orderCorners binary64 (Rounded.orderCorners binary64 diamond)
     = [mkPoint 0 10; mkPoint 10 0; mkPoint 10 20; mkPoint 20 10])
  /\ (Binary64.orderCorners diamond64
     = [Binary64.mkPoint 0 10; Binary64.mkPoint 10 0; Binary64.mkPoint 20 10;
        Binary64.mkPoint 10 20]
   /\ Binary64.orderCorners (Binary64.orderCorners diamond64)
     = [Binary64.mkPoint 0 10; Binary64.mkPoint 10 0; Binary64.mkPoint 10 20;
        Binary64.mkPoint 20 10]).
Proof. repeat split; vm_compute; reflexivity. Qed.

(** Uniqueness of the largest exact sum is not enough: on [nearTie] the
    exact sums 30 and 30 + 2^-49 differ, the computed sums are both 30, and
    the second pass exchanges the last two corners, in the rounded model and
    on binary64 numbers alike. *)
Lemma orderCorners_nearTie :
  largestSumUnique nearTie
  /\ ~ Rounded.largestSumUnique binary64 nearTie
  /\ Rounded.orderCorners binary64 (Rounded.orderCorners binary64 nearTie)
     <> Rounded.orderCorners binary64 nearTie
  /\ Binary64.orderCorners (Binary64.orderCorners nearTie64)
     <> Binary64.orderCorners nearTie64
  /\ Binary64.getP (Binary64.orderCorners nearTie64) 2 = Binary64.getP nearTie64 3
  /\ Binary64.getP (Binary64.orderCorners (Binary64.orderCorners nearTie64)) 2
     = Binary64.getP nearTie64 2.
Proof.
  split; [|split; [|split; [|split; [|split]]]].
  - exists 3%nat. split; [simpl; lia|].
    intros [|[|[|[|j]]]] Hj Hne; simpl in Hj; try lia; vm_compute; reflexivity.
  - intros [i [Hi Hmax]]. cbn [length nearTie] in Hi, Hmax.
    destruct i as [|[|[|[|i]]]]; try lia.
    + specialize (Hmax 3%nat ltac:(lia) ltac:(lia)). vm_compute in Hmax. discriminate Hmax.
    + specialize (Hmax 3%nat ltac:(lia) ltac:(lia)). vm_compute in Hmax. discriminate Hmax.
    + specialize (Hmax 3%nat ltac:(lia) ltac:(lia)). vm_compute in Hmax. discriminate Hmax.
    + specialize (Hmax 2%nat ltac:(lia) ltac:(lia)). vm_compute in Hmax. discriminate Hmax.
  - vm_compute. intros E. discriminate E.
  - intros E.
    apply (f_equal (fun l => (Binary64.px (Binary64.getP l 2) =? 10)%float)) in E.
    vm_compute in E. discriminate E.
  - vm_compute. reflexivity.
  - vm_compute. reflexivity.
Qed.

(** ** The output of processDocument has pixels *)

Lemma hypotDominates_nonneg (M : MathLib) : hypotDominates M -> hypotNonneg M.
Proof.
  intros HM a b. destruct (HM a b) as [Ha _].
  pose proof (Qabs_nonneg a). lra.
Qed.

Lemma findContours_pixels (edges : list Z) (w h : nat) (contours : list (list Point)) :
  findContours edges w h = Some contours ->
  Forall (Forall (contourPixel edges w h)) contours.
Proof.
  intros Hc. unfold findContours in Hc.
  set (P := fun st : option (list Z * list (list Point)) =>
         forall v cs, st = Some (v, cs) -> Forall (Forall (contourPixel edges w h)) cs).
  match type of Hc with snd <$> ?t = _ => assert (P t) as HP end.
  { apply for_range_invariant; [intros v cs [= <- <-]; constructor|].
    intros y st Hst. apply for_range_invariant; [exact Hst|].
    clear st Hst. intros x st Hst v cs Hbody.
    destruct st as [[visited contours0]|]; [|discriminate Hbody].
    specialize (Hst _ _ eq_refl). cbn [mbind option_bind] in Hbody.
    destruct (bool_decide _ && negb _).
    - destruct (traceContour edges w h visited x y) as [[visited1 contour]|] eqn:Ht;
        [|discriminate Hbody].
      cbn [mbind option_bind] in Hbody. injection Hbody as <- <-.
      destruct (Nat.ltb_spec 50 (length contour)) as [Hlong|_]; [|exact Hst].
      apply Forall_app. split; [exact Hst|]. apply Forall_singleton.
      unfold traceContour in Ht. exact (traceLoop_pixels _ _ _ _ _ _ _ _ _ Ht (Forall_nil_2 _)).
    - injection Hbody as <- <-. exact Hst. }
  destruct (for_range 0 h _ _) as [[v cs]|]; [|discriminate Hc].
  cbn in Hc. injection Hc as <-. exact (HP v cs eq_refl).
Qed.

Lemma contourPixel_lattice (edges : list Z) (w h : nat) (p : Point) :
  contourPixel edges w h p -> latticePoint p.
Proof. intros (x & y & -> & _). now exists x, y. Qed.

Lemma convexHull_subset (M : MathLib) (points : list Point) (p : Point) :
  p ∈ (convexHull M points).2 -> p ∈ points.
Proof.
  unfold convexHull. destruct (Nat.ltb_spec (length points) 3) as [Hshort|Hlen];
    [intros Hp; exact Hp|].
  cbv zeta. cbn [snd]. intros Hp.
  destruct (lowestIndex_spec points ltac:(lia)) as [Hlow Hmin].
  pose proof (swapFirst_Permutation points _ Hlow) as Hperm.
  pose proof (swapFirst_head points _ Hlow) as Hhead.
  rewrite Hhead in Hp.
  set (pivot := getP points (lowestIndex points)) in *.
  set (swapped := swapFirst points (lowestIndex points)) in *.
  set (sorted := sortBy (polarCompare M pivot) (drop 1 swapped)) in *.
  assert (sorted ≡ₚ drop 1 swapped) as Hsorted by apply sortBy_Permutation.
  destruct (hull_fold pivot sorted [pivot] eq_refl) as (_ & Hsub & _).
  cbv zeta in Hsub.
  apply list_elem_of_In, in_rev, list_elem_of_In in Hp.
  assert (pivot ∈ points) as Hpivot.
  { unfold pivot, getP. destruct (lookup_lt_is_Some_2 points _ Hlow) as [q Hq].
    rewrite Hq. simpl. eapply list_elem_of_lookup_2, Hq. }
  destruct (Hsub p Hp) as [Hin|Hin].
  - apply list_elem_of_singleton in Hin as ->. exact Hpivot.
  - rewrite Hsorted in Hin. rewrite <- Hperm.
    apply list_elem_of_lookup in Hin as [i Hi]. rewrite lookup_drop in Hi.
    eapply list_elem_of_lookup_2, Hi.
Qed.

Lemma approximatePolygon_subset (M : MathLib) (hull polygon : list Point) (epsilon : Q)
    (p : Point) :
  hypotNonneg M -> 0 <= epsilon ->
  approximatePolygon M hull epsilon = Some polygon -> p ∈ polygon -> p ∈ hull.
Proof.
  intros HM Heps Hp. unfold approximatePolygon in Hp.
  destruct (Nat.ltb_spec (length hull) 4) as [Hshort|Hlong].
  { injection Hp as <-. tauto. }
  destruct (douglasPeucker _ M hull _ 0 (length hull) []) as [r|] eqn:Hr; [|discriminate Hp].
  cbn [mbind option_bind] in Hp. injection Hp as <-.
  assert (0 <= epsilon * totalLength M hull) as Hthr
    by (pose proof (totalLength_nonneg M hull HM); nra).
  destruct (douglasPeucker_indices M hull _ Hthr _ 0%nat (length hull) [] r ltac:(lia) Hr)
    as (Hidx & _ & _).
  intros Hin. apply list_elem_of_fmap in Hin as (i & -> & Hi).
  assert (i < length hull)%nat as Hlt.
  { destruct (Hidx i Hi) as [Hn|?]; [now apply elem_of_nil in Hn|lia]. }
  unfold getP. destruct (lookup_lt_is_Some_2 hull i Hlt) as [q Hq]. rewrite Hq. simpl.
  eapply list_elem_of_lookup_2, Hq.
Qed.

Lemma shoelace_nonneg (polygon : list Point) : 0 <= shoelace polygon.
Proof.
  unfold shoelace, Math_abs. cbv zeta.
  match goal with |- 0 <= Qabs ?e / 2 => pose proof (Qabs_nonneg e) as H; set (v := Qabs e) in * end.
  apply Qle_shift_div_l; lra.
Qed.

Lemma considerPolygon_lattice (polygon : list Point) (w h : nat) (best : list Point * Q) :
  Forall latticePoint polygon -> bestLattice best ->
  bestLattice (considerPolygon polygon w h best).
Proof.
  intros Hpoly Hb. unfold considerPolygon.
  destruct (length polygon =? 4)%nat eqn:Hlen; [|exact Hb].
  destruct (xdiv _ _) as [r| | |] eqn:Hdiv; try exact Hb.
  destruct (Qltb 0.1 r && Qltb r 0.95) eqn:Hr; [|exact Hb].
  destruct (Qltb best.2 (r * 100)); [|exact Hb].
  apply andb_true_iff in Hr as [H1 _]. apply Qltb_lt in H1.
  right. cbn [fst]. split; [now apply Nat.eqb_eq|]. split; [|exact Hpoly].
  unfold xdiv in Hdiv. destruct (Qeqb _ 0) eqn:Hz.
  { destruct (Qltb 0 _); [discriminate Hdiv|]. destruct (Qltb _ 0); discriminate Hdiv. }
  injection Hdiv as <-.
  pose proof (shoelace_nonneg polygon) as H0.
  destruct (Qlt_le_dec 0 (shoelace polygon)) as [Hpos|Hle]; [exact Hpos|exfalso].
  assert (shoelace polygon == 0) as E by lra.
  rewrite E in H1. unfold Qdiv in H1. rewrite Qmult_0_l in H1. lra.
Qed.

Lemma bestOfContours_lattice (M : MathLib) (contours : list (list Point)) (w h : nat) :
  hypotNonneg M -> Forall (Forall latticePoint) contours ->
  forall best best',
    bestLattice best ->
    bestOfContours M contours w h (Some best) = Some best' -> bestLattice best'.
Proof.
  intros HM Hall. induction Hall as [|contour contours Hc Hcs IH]; intros best best' Hb Hrun.
  - injection Hrun as <-. exact Hb.
  - unfold bestOfContours in Hrun. cbn [foldl] in Hrun. simpl in Hrun.
    destruct (approximatePolygon_returns M (convexHull M contour).2 0.02 HM) as [polygon Hp];
      [lra|].
    rewrite Hp in Hrun. simpl in Hrun.
    apply (IH (considerPolygon polygon w h best) best'); [|exact Hrun].
    apply considerPolygon_lattice; [|exact Hb].
    apply Forall_forall. intros p Hin.
    assert (0 <= 0.02) as Heps by lra.
    apply (approximatePolygon_subset M _ _ 0.02 p HM Heps Hp) in Hin.
    apply convexHull_subset in Hin.
    rewrite Forall_forall in Hc. now apply Hc.
Qed.
Lemma orderCorners_Permutation (q : list Point) :
  length q = 4%nat -> orderCorners q ≡ₚ q.
Proof.
  intros Hlen. unfold orderCorners.
  pose proof (sortBy_Permutation (fun a b : Point => px a + py a - (px b + py b)) q) as Hperm.
  set (sorted := sortBy _ q) in *.
  assert (length sorted = 4%nat) as Hs by (now rewrite Hperm).
  destruct sorted as [|s0 [|s1 [|s2 [|s3 [|? ?]]]]]; try discriminate Hs.
  rewrite <- Hperm. cbv zeta. rewrite !getP_S, !getP_0.
  unfold sortBy. cbn [foldr insertSorted].
  destruct (Qleb _ 0); rewrite ?getP_S, ?getP_0.
  - apply perm_skip, perm_skip, perm_swap.
  - apply perm_skip. symmetry. apply (Permutation_cons_append [s2; s3] s1).
Qed.

(** A 4-gon whose vertices are taken among two points encloses no area. *)
Lemma shoelace_degenerate (a b : Point) (polygon : list Point) :
  length polygon = 4%nat ->
  Forall (fun p => p = a \/ p = b) polygon ->
  shoelace polygon == 0.
Proof.
  intros Hlen Hall.
  destruct polygon as [|p0 [|p1 [|p2 [|p3 [|? ?]]]]]; try discriminate Hlen.
  apply Forall_cons in Hall as [H0 Hall]. apply Forall_cons in Hall as [H1 Hall].
  apply Forall_cons in Hall as [H2 Hall]. apply Forall_cons in Hall as [H3 _].
  unfold shoelace, Math_abs. cbv zeta. rewrite !getP_S, !getP_0.
  destruct H0 as [-> | ->], H1 as [-> | ->], H2 as [-> | ->], H3 as [-> | ->];
    match goal with
    | |- Qabs ?e / 2 == 0 =>
        assert (e == 0) as E by ring; rewrite (Qabs_wd _ _ E); reflexivity
    end.
Qed.

Lemma Qnat_lt (x y : nat) : (x < y)%nat -> Qnat x + 1 <= Qnat y.
Proof.
  intros H. unfold Qnat. change 1 with (inject_Z 1).
  rewrite <- inject_Z_plus, <- Zle_Qle. lia.
Qed.

Lemma lattice_apart (p q : Point) :
  latticePoint p -> latticePoint q -> p = q \/ apart p q.
Proof.
  intros (x & y & ->) (x' & y' & ->). unfold apart. cbn [px py].
  destruct (Nat.lt_trichotomy x x') as [Hx|[->|Hx]].
  - right. left. apply Qnat_lt in Hx. apply Qabs_case; intros; lra.
  - destruct (Nat.lt_trichotomy y y') as [Hy|[->|Hy]].
    + right. right. apply Qnat_lt in Hy. apply Qabs_case; intros; lra.
    + now left.
    + right. right. apply Qnat_lt in Hy. apply Qabs_case; intros; lra.
  - right. left. apply Qnat_lt in Hx. apply Qabs_case; intros; lra.
Qed.

Lemma fallbackQuad_apart (w h : nat) :
  (1 <= w)%nat -> (1 <= h)%nat -> cornersApart (fallbackQuad w h).
Proof.
  intros Hw Hh. apply Qnat_pos in Hw, Hh. unfold cornersApart, fallbackQuad, apart.
  destruct (Math_min_spec (Qnat w) (Qnat h)) as (H1 & H2 & H3).
  assert (1 <= Math_min (Qnat w) (Qnat h)) as H4 by (destruct H3 as [-> | ->]; assumption).
  set (m := Math_min (Qnat w) (Qnat h) * 0.05) in *.
  assert (0 < m /\ 20 * m <= Qnat w /\ 20 * m <= Qnat h) as (Hm0 & Hmw & Hmh).
  { unfold m. repeat split; lra. }
  clearbody m. cbv zeta. rewrite !getP_S, !getP_0. cbn [px py].
  split; left; [left|right]; apply Qabs_case; intros; lra.
Qed.

Lemma orderCorners_apart (quad : list Point) :
  length quad = 4%nat -> 0 < shoelace quad -> Forall latticePoint quad ->
  cornersApart (orderCorners quad).
Proof.
  intros Hlen Harea Hall.
  pose proof (orderCorners_Permutation quad Hlen) as Hperm.
  assert (Forall latticePoint (orderCorners quad)) as Hlat by (now rewrite Hperm).
  assert (forall p, p ∈ quad -> p ∈ orderCorners quad) as Hin
    by (intros p Hp; now rewrite Hperm).
  revert Hlat Hin. unfold orderCorners. cbv zeta.
  set (c0 := getP _ 0). set (c1 := getP _ 0). set (c2 := getP _ 3). set (c3 := getP _ 1).
  intros Hlat Hin.
  apply Forall_cons in Hlat as [L0 Hlat]. apply Forall_cons in Hlat as [L1 Hlat].
  apply Forall_cons in Hlat as [L2 Hlat]. apply Forall_cons in Hlat as [L3 _].
  unfold cornersApart. cbv zeta. rewrite !getP_S, !getP_0.
  split.
  - destruct (lattice_apart c1 c0 L1 L0) as [E10|?]; [|now left].
    destruct (lattice_apart c2 c3 L2 L3) as [E23|?]; [|now right].
    exfalso. pose proof (shoelace_degenerate c0 c3 quad Hlen) as Hz.
    rewrite Hz in Harea; [lra|].
    apply Forall_forall. intros p Hp. specialize (Hin p Hp).
    rewrite E10, E23 in Hin.
    repeat (apply elem_of_cons in Hin as [Hin|Hin]; [tauto|]).
    now apply elem_of_nil in Hin.
  - destruct (lattice_apart c3 c0 L3 L0) as [E30|?]; [|now left].
    destruct (lattice_apart c2 c1 L2 L1) as [E21|?]; [|now right].
    exfalso. pose proof (shoelace_degenerate c0 c1 quad Hlen) as Hz.
    rewrite Hz in Harea; [lra|].
    apply Forall_forall. intros p Hp. specialize (Hin p Hp).
    rewrite E30, E21 in Hin.
    repeat (apply elem_of_cons in Hin as [Hin|Hin]; [tauto|]).
    now apply elem_of_nil in Hin.
Qed.

Lemma selectBest_apart (w h : nat) (best : list Point * Q) :
  (1 <= w)%nat -> (1 <= h)%nat -> bestLattice best ->
  cornersApart (selectBest w h best).1.
Proof.
  intros Hw Hh [Hnil|(Hlen & Harea & Hall)]; unfold selectBest.
  - rewrite Hnil. cbn [length Nat.eqb negb fst].
    rewrite orderCorners_fallbackQuad by assumption. now apply fallbackQuad_apart.
  - rewrite Hlen. cbn [Nat.eqb negb fst]. now apply orderCorners_apart.
Qed.

(** Rounding a side that joins two points apart gives a size of 1 or more. *)
Lemma Math_round_half (q : Q) : 1 # 2 <= q -> (1 <= Math_round q)%Z.
Proof.
  intros Hq. unfold Math_round.
  apply Z.le_trans with (Qfloor 1); [reflexivity|]. apply Qfloor_resp_le. lra.
Qed.

Lemma Math_max_ge (a b : Q) : a <= Math_max a b /\ b <= Math_max a b.
Proof.
  unfold Math_max. destruct (Qltb a b) eqn:E.
  - apply Qltb_lt in E. lra.
  - apply Qltb_nlt in E. lra.
Qed.

Lemma apart_hypot (M : MathLib) (p q : Point) :
  hypotDominates M -> apart p q -> 1 # 2 <= Math_hypot M (px p - px q) (py p - py q).
Proof.
  intros HM Hpq. destruct (HM (px p - px q) (py p - py q)) as [Hx Hy].
  destruct Hpq; lra.
Qed.
Lemma findBestQuadrilateral_apart (M : MathLib) (contours : list (list Point)) (w h : nat)
    (best : list Point * Q) :
  hypotNonneg M -> (1 <= w)%nat -> (1 <= h)%nat ->
  Forall (Forall latticePoint) contours ->
  findBestQuadrilateral M contours w h = Some best -> cornersApart best.1.
Proof.
  intros HM Hw Hh Hall Hbest. unfold findBestQuadrilateral in Hbest.
  fold (bestOfContours M contours w h (Some ([], 0))) in Hbest.
  destruct (bestOfContours M contours w h (Some ([], 0))) as [b|] eqn:Hb;
    [|discriminate Hbest].
  cbn [mbind option_bind] in Hbest. injection Hbest as <-.
  apply selectBest_apart; [assumption..|].
  apply (bestOfContours_lattice M contours w h HM Hall ([], 0) b); [now left|exact Hb].
Qed.

Lemma processDocument_size (M : MathLib) (img : ImageData) (r : ProcessingResult) :
  hypotDominates M -> (1 <= width img)%nat -> (1 <= height img)%nat ->
  processDocument M img = Some r ->
  (1 <= width (processedImage r))%nat /\ (1 <= height (processedImage r))%nat.
Proof.
  intros HM Hw Hh Hr. pose proof (hypotDominates_nonneg M HM) as Hnn.
  unfold processDocument in Hr. fold (edgeMask M img) in Hr.
  destruct (findContours (edgeMask M img) (width img) (height img)) as [contours|] eqn:Hc;
    [|discriminate Hr].
  cbn [mbind option_bind] in Hr.
  destruct (findBestQuadrilateral M contours (width img) (height img)) as [best|] eqn:Hb;
    [|discriminate Hr].
  cbn [mbind option_bind] in Hr. injection Hr as <-.
  cbn [processedImage]. unfold perspectiveTransform. cbn [width height].
  assert (Forall (Forall latticePoint) contours) as Hall.
  { eapply Forall_impl; [exact (findContours_pixels _ _ _ _ Hc)|].
    intros contour Hpix. eapply Forall_impl; [exact Hpix|].
    intros p. apply contourPixel_lattice. }
  destruct (findBestQuadrilateral_apart M contours _ _ best Hnn Hw Hh Hall Hb) as [Hwd Hht].
  cbv zeta in Hwd, Hht.
  split.
  - apply (Z2Nat.inj_le 1); [lia| |].
    + apply Z.le_trans with 1%Z; [lia|]. apply Math_round_half.
      match goal with |- _ <= Math_max ?a ?b => destruct (Math_max_ge a b) as [Ha Hb'] end.
      destruct Hwd as [Hp|Hp]; apply (apart_hypot M _ _ HM) in Hp; lra.
    + apply Math_round_half.
      match goal with |- _ <= Math_max ?a ?b => destruct (Math_max_ge a b) as [Ha Hb'] end.
      destruct Hwd as [Hp|Hp]; apply (apart_hypot M _ _ HM) in Hp; lra.
  - apply (Z2Nat.inj_le 1); [lia| |].
    + apply Z.le_trans with 1%Z; [lia|]. apply Math_round_half.
      match goal with |- _ <= Math_max ?a ?b => destruct (Math_max_ge a b) as [Ha Hb'] end.
      destruct Hht as [Hp|Hp]; apply (apart_hypot M _ _ HM) in Hp; lra.
    + apply Math_round_half.
      match goal with |- _ <= Math_max ?a ?b => destruct (Math_max_ge a b) as [Ha Hb'] end.
      destruct Hht as [Hp|Hp]; apply (apart_hypot M _ _ HM) in Hp; lra.
Qed.

(** The integer square root of [sampleSqrt] rounds down, but onto a grid
    that holds the size of either argument of [Math.hypot]. *)
Lemma sampleSqrt_dominates (a b : Q) : Qabs a <= sampleSqrt (a * a + b * b).
Proof.
  unfold sampleSqrt. destruct (Qleb (a * a + b * b) 0) eqn:E.
  - apply Qleb_le in E.
    assert (a == 0) as Ha by nra. rewrite (Qabs_wd _ _ Ha). apply Qle_refl.
  - clear E. destruct a as [na da], b as [nb db].
    unfold Qabs, Qle, Qplus, Qmult. cbn [Qnum Qden].
    rewrite !Pos2Z.inj_mul.
    set (A := Z.pos da) in *. set (B := Z.pos db) in *.
    assert (0 < A)%Z as HA by (unfold A; lia).
    assert (0 < B)%Z as HB by (unfold B; lia).
    change (Z.pos (2 ^ 20)) with (2 ^ 20)%Z.
    set (n := ((na * na * (B * B) + nb * nb * (A * A)) * (A * A * (B * B)) * 2 ^ 40)%Z).
    assert ((Z.abs na * (A * B * B * 2 ^ 20))%Z <= Z.sqrt n)%Z as Hs.
    { apply Z.sqrt_le_square.
      - unfold n. assert (0 <= na * na)%Z by nia. assert (0 <= nb * nb)%Z by nia. nia.
      - nia.
      - unfold n. replace (2 ^ 40)%Z with (2 ^ 20 * 2 ^ 20)%Z by reflexivity.
        assert (Z.abs na * Z.abs na = na * na)%Z as Hsq by lia.
        set (k := (2 ^ 20)%Z) in *.
        assert (0 <= nb * nb * (A * A) * (A * A * (B * B)) * (k * k))%Z.
        { assert (0 <= nb * nb)%Z by nia. assert (0 <= k * k)%Z by nia. nia. }
        replace (Z.abs na * (A * B * B * k) * (Z.abs na * (A * B * B * k)))%Z
          with (Z.abs na * Z.abs na * (B * B) * (A * A * (B * B)) * (k * k))%Z by ring.
        rewrite Hsq. nia. }
    nia.
Qed.

Lemma sampleMath_hypotDominates : hypotDominates sampleMath.
Proof.
  intros a b. cbn [Math_hypot sampleMath]. split; [apply sampleSqrt_dominates|].
  pose proof (sampleSqrt_dominates b a) as H.
  unfold sampleSqrt in *.
  rewrite (Qleb_comp (a * a + b * b) (b * b + a * a) 0 0) by (ring || reflexivity).
  destruct (Qleb (b * b + a * a) 0); [exact H|].
  eapply Qle_trans; [exact H|].
  destruct a as [na da], b as [nb db]. unfold Qle, Qplus, Qmult. cbn [Qnum Qden].
  replace (nb * nb * Z.pos (da * da) + na * na * Z.pos (db * db))%Z
    with (na * na * Z.pos (db * db) + nb * nb * Z.pos (da * da))%Z by ring.
  replace (db * db * (da * da))%positive with (da * da * (db * db))%positive by lia.
  lia.
Qed.
(** ** What the caller of processDocument gets *)

(** C3 (as the code has it): the promise of [processDocument] is never
    rejected, with [InvalidInput] or with anything else.  When the picture
    does not load nothing settles it; when the canvas has a dimension 0,
    [getImageData] throws an [IndexSizeError] inside the handler and nothing
    settles it either.  For every raster with pixels the promise resolves
    with a [ProcessingResult] ([Math.hypot] being no smaller than its
    arguments, the output has pixels and [createImageData] does not throw),
    and when no contour yields a qualifying quadrilateral that result
    carries the margin-inset rectangle, confidence 30 and the warning. *)
Theorem processDocument_never_fails (M : MathLib) (event : ImageEvent) :
  hypotDominates M ->
  (forall condition, processDocumentPromise M event <> Rejected condition)
  /\ match event with
     | ErrorEvent => processDocumentPromise M event = Pending None
     | LoadEvent canvas =>
         if (width canvas =? 0)%nat || (height canvas =? 0)%nat
         then processDocumentPromise M event = Pending (Some IndexSizeError)
         else
           exists contours r,
             findContours (edgeMask M canvas) (width canvas) (height canvas) = Some contours
             /\ processDocument M canvas = Some r
             /\ processDocumentPromise M event = Resolved r
             /\ (noneQualifies M contours (width canvas) (height canvas) ->
                 corners r = orderCorners (fallbackQuad (width canvas) (height canvas))
                 /\ confidence r = 30
                 /\ warning r = Some lowConfidenceWarning)
     end.
Proof.
  intros HM. pose proof (hypotDominates_nonneg M HM) as Hnn.
  assert (match event with
          | ErrorEvent => processDocumentPromise M event = Pending None
          | LoadEvent canvas =>
              if (width canvas =? 0)%nat || (height canvas =? 0)%nat
              then processDocumentPromise M event = Pending (Some IndexSizeError)
              else
                exists contours r,
                  findContours (edgeMask M canvas) (width canvas) (height canvas)
                  = Some contours
                  /\ processDocument M canvas = Some r
                  /\ processDocumentPromise M event = Resolved r
                  /\ (noneQualifies M contours (width canvas) (height canvas) ->
                      corners r = orderCorners (fallbackQuad (width canvas) (height canvas))
                      /\ confidence r = 30
                      /\ warning r = Some lowConfidenceWarning)
          end) as Hcases.
  { destruct event as [canvas|]; [|reflexivity].
    unfold processDocumentPromise, getImageData.
    destruct ((width canvas =? 0)%nat || (height canvas =? 0)%nat) eqn:Hzero; [reflexivity|].
    apply orb_false_iff in Hzero as [Hw Hh]. apply Nat.eqb_neq in Hw, Hh.
    destruct (processDocument_returns M canvas Hnn) as (contours & r & Hc & Hr & Hbest & Hwarn).
    exists contours, r. split; [exact Hc|]. split; [exact Hr|].
    destruct (processDocument_size M canvas r HM ltac:(lia) ltac:(lia) Hr) as [Hrw Hrh].
    split.
    - rewrite Hr. unfold createImageData.
      assert ((width (processedImage r) =? 0)%nat = false) as -> by (apply Nat.eqb_neq; lia).
      assert ((height (processedImage r) =? 0)%nat = false) as -> by (apply Nat.eqb_neq; lia).
      reflexivity.
    - intros Hnone.
      destruct (findBestQuadrilateral_returns M contours (width canvas) (height canvas) Hnn)
        as (best & Hb & _ & _ & _ & Hfall).
      rewrite Hb in Hbest. rewrite (Hfall Hnone) in Hbest. injection Hbest as Hcorners Hconf.
      split; [now rewrite <- Hcorners|]. split; [now rewrite <- Hconf|].
      rewrite Hwarn, <- Hconf. reflexivity. }
  split; [|exact Hcases].
  intros condition Hrej. destruct event as [canvas|].
  - destruct ((width canvas =? 0)%nat || (height canvas =? 0)%nat).
    + rewrite Hcases in Hrej. discriminate Hrej.
    + destruct Hcases as (_ & r & _ & _ & Hres & _). rewrite Hres in Hrej. discriminate Hrej.
  - rewrite Hcases in Hrej. discriminate Hrej.
Qed.

Lemma processDocument_never_fails_witness :
  (forall condition,
     processDocumentPromise sampleMath (LoadEvent (uniformRaster 4 4 200 200 200 255))
     <> Rejected condition)
  /\ exists contours r,
       findContours (edgeMask sampleMath (uniformRaster 4 4 200 200 200 255)) 4 4
       = Some contours
       /\ processDocument sampleMath (uniformRaster 4 4 200 200 200 255) = Some r
       /\ processDocumentPromise sampleMath (LoadEvent (uniformRaster 4 4 200 200 200 255))
          = Resolved r
       /\ (noneQualifies sampleMath contours 4 4 ->
           corners r = orderCorners (fallbackQuad 4 4)
           /\ confidence r = 30
           /\ warning r = Some lowConfidenceWarning).
Proof.
  exact (processDocument_never_fails sampleMath (LoadEvent (uniformRaster 4 4 200 200 200 255))
           sampleMath_hypotDominates).
Defined.

(** C3 (as stated) fails on a raster of area 0, which is well formed for
    its dimensions: it is not refused with an [InvalidInput] condition.
    [getImageData] throws an [IndexSizeError] that nothing catches, and the
    promise stays pending, as it does when the picture does not load. *)
Lemma processDocument_zero_area_counterexample :
  wellFormed (mkImageData 0 0 [])
  /\ processDocumentPromise sampleMath (LoadEvent (mkImageData 0 0 []))
     = Pending (Some IndexSizeError)
  /\ processDocumentPromise sampleMath (LoadEvent (mkImageData 0 0 []))
     <> Rejected "InvalidInput"
  /\ processDocumentPromise sampleMath ErrorEvent = Pending None.
Proof.
  split; [reflexivity|]. split; [reflexivity|]. split; [|reflexivity].
  intros E. discriminate E.
Qed.
